(** * Dyssol models manager and unit parameters: a shallow embedding

    The first part follows [SimulatorCore/ModelsManager.cpp] function by
    function.  The manager's members become one record, the operating-system
    loader, the file system and the plug-ins become an environment [Env]
    the code is run against, and every member function becomes a
    computation in a state-and-exception monad that also records the
    loader calls, constructions and destructions it performs.

    The second part covers [ModelsAPI/UnitParameters.h]: the classes with
    their members are those of the header; the member functions it only
    declares are modelled from the specification, each marked as such. *)

From Stdlib Require Import ZArith QArith Lia Permutation Sorted Floats.
From stdpp Require Import gmap strings list sorting pretty.

Open Scope string_scope.
Open Scope list_scope.

(** ** Plug-in side: what a library can do when it is called *)

(** An exception thrown by plug-in code: the probes distinguish
    [std::logic_error] from everything else. *)
Inductive thrown : Type :=
| logic_error
| other_exception.

(** The result of calling into a plug-in. *)
Inductive call (A : Type) : Type :=
| returns (a : A)
| throws (e : thrown).
Arguments returns {A} a.
Arguments throws {A} e.

(** A constructed [CBaseUnit], seen through the members the manager uses. *)
Record CBaseUnit : Type := mkUnit {
  unit_nCompilerVer : Z;
  unit_GetUniqueID : call string;
  unit_GetUnitName : call string;
  unit_GetAuthorName : call string;
  unit_GetUnitVersion : call N;
  unit_IsDynamicUnit : call bool
}.

(** A constructed [CExternalSolver]; [ESolverTypes] is its numeric value. *)
Record CExternalSolver : Type := mkSolver {
  solver_nCompilerVer : Z;
  solver_GetUniqueID : call string;
  solver_GetName : call string;
  solver_GetAuthorName : call string;
  solver_GetVersion : call N;
  solver_GetType : call nat
}.

(** Library handles and object addresses; [0] is the null handle / [nullptr]. *)
Abbreviation handle := N (only parsing).
Abbreviation ptr := N (only parsing).
Definition nullptr : ptr := 0%N.
Abbreviation path := string (only parsing).

(** A factory function exported by a library: calling it throws, returns
    [nullptr] ([None]) or returns a new object. *)
Definition CreateUnit := call (option CBaseUnit).
Definition CreateExternalSolver := call (option CExternalSolver).

(** ** Descriptors and directories *)

(** [SModelDescriptor] with the field its two derived structs add:
    [isDynamic] for units, [solverType] for solvers. *)
Record SModelDescriptor (K : Type) : Type := mkDescriptor {
  uniqueID : string;
  name : string;
  author : string;
  version : N;
  fileLocation : path;
  dirKey : string;
  position : nat;
  kindField : K
}.
Arguments mkDescriptor {K}.
Arguments uniqueID {K}.
Arguments name {K}.
Arguments author {K}.
Arguments version {K}.
Arguments fileLocation {K}.
Arguments dirKey {K}.
Arguments position {K}.
Arguments kindField {K}.

Abbreviation SUnitDescriptor := (SModelDescriptor bool) (only parsing).
Abbreviation SSolverDescriptor := (SModelDescriptor nat) (only parsing).
Definition isDynamic (d : SUnitDescriptor) : bool := kindField d.
Definition solverType (d : SSolverDescriptor) : nat := kindField d.

(** The value-initialised descriptor [{}]. *)
Definition empty_descriptor {K} (k : K) : SModelDescriptor K :=
  mkDescriptor "" "" "" 0%N "" "" 0 k.
Definition no_unit : SUnitDescriptor := empty_descriptor false.
Definition no_solver : SSolverDescriptor := empty_descriptor 0.

Definition set_dirKey {K} (k : string) (d : SModelDescriptor K) : SModelDescriptor K :=
  mkDescriptor (uniqueID d) (name d) (author d) (version d) (fileLocation d)
               k (position d) (kindField d).

Definition set_position {K} (i : nat) (d : SModelDescriptor K) : SModelDescriptor K :=
  mkDescriptor (uniqueID d) (name d) (author d) (version d) (fileLocation d)
               (dirKey d) i (kindField d).

(** [SModelDir{ path, key, active, checked }]. *)
Record SModelDir : Type := mkDir {
  dir_path : path;
  dir_key : string;
  dir_active : bool;
  dir_checked : bool
}.

Definition set_checked (c : bool) (d : SModelDir) : SModelDir :=
  mkDir (dir_path d) (dir_key d) (dir_active d) c.
Definition set_active (a : bool) (d : SModelDir) : SModelDir :=
  mkDir (dir_path d) (dir_key d) a (dir_checked d).

(** ** The environment the manager runs in *)

(** Everything [ModelsManager.cpp] uses and does not define: constants and
    helpers of headers outside the two files, the file system, the loader,
    and the standard library's sort. *)
Class Env : Type := {
  COMPILER_VERSION : Z;
  DYSSOL_CREATE_MODEL_FUN_NAME : string;
  (** [std::vector<std::string>{CREATE_SOLVER_FUN_NAMES}[i]] *)
  CREATE_SOLVER_FUN_NAMES : nat -> string;
  SOLVERS_TYPES_NUMBER : nat;
  (** [StringFunctions::GenerateUniqueString(init, existing)] *)
  GenerateUniqueString : string -> list string -> string;
  (** [StringFunctions::UnifyPath] *)
  UnifyPath : path -> path;
  (** [FileSystem::AbsolutePath], [ExecutableDirPath], [FilesList] with the
      extension [StrConst::MM_LibraryFileExtension] already applied *)
  AbsolutePath : path -> path;
  ExecutableDirPath : path;
  FilesList : path -> list path;
  (** [dlopen] / [LoadLibrary]: the handle, [0] when loading fails *)
  os_open : path -> handle;
  (** [dlsym] / [GetProcAddress] followed by the [reinterpret_cast] to the
      factory type: [None] is the null function pointer *)
  os_symbol_unit : handle -> string -> option CreateUnit;
  os_symbol_solver : handle -> string -> option CreateExternalSolver;
  (** [explicit operator bool] of a descriptor *)
  descriptor_bool : forall K, SModelDescriptor K -> bool;
  (** [std::sort] over [operator<] of descriptors *)
  std_sort : forall K, list (SModelDescriptor K) -> list (SModelDescriptor K)
}.

(** Modelled from the spec: [operator<] of [SModelDescriptor] is declared in
    ModelsManager.h, which is not in src/; the descriptor lists are sorted
    "by position". *)
Definition descriptor_lt {K} (a b : SModelDescriptor K) : bool :=
  Nat.ltb (position a) (position b).

(** ** Manager state and the monad of member functions *)

(** What a member function does to the outside, in order. *)
Inductive event : Type :=
| EvLoadLibrary (f : path) (h : handle)
| EvCloseLibrary (h : handle)
| EvConstruct (p : ptr)
| EvDelete (p : ptr)
| EvRecordUnit (p : ptr) (h : handle)
| EvEraseUnit (p : ptr)
| EvRecordSolver (p : ptr) (h : handle)
| EvEraseSolver (p : ptr).

Record CModelsManager : Type := mkManager {
  m_dirsList : list SModelDir;
  m_availableUnits : list SUnitDescriptor;
  m_availableSolvers : list SSolverDescriptor;
  m_loadedUnits : gmap N N;
  m_loadedSolvers : gmap N N;
  (** next free address of the heap the plug-ins allocate from *)
  heap_next : N;
  (** the events so far, oldest first *)
  trace : list event
}.

Definition with_dirs (ds : list SModelDir) (s : CModelsManager) : CModelsManager :=
  mkManager ds (m_availableUnits s) (m_availableSolvers s)
            (m_loadedUnits s) (m_loadedSolvers s) (heap_next s) (trace s).
Definition with_units (us : list SUnitDescriptor) (s : CModelsManager) : CModelsManager :=
  mkManager (m_dirsList s) us (m_availableSolvers s)
            (m_loadedUnits s) (m_loadedSolvers s) (heap_next s) (trace s).
Definition with_solvers (ss : list SSolverDescriptor) (s : CModelsManager) : CModelsManager :=
  mkManager (m_dirsList s) (m_availableUnits s) ss
            (m_loadedUnits s) (m_loadedSolvers s) (heap_next s) (trace s).
Definition with_loadedUnits (m : gmap N N) (s : CModelsManager) : CModelsManager :=
  mkManager (m_dirsList s) (m_availableUnits s) (m_availableSolvers s)
            m (m_loadedSolvers s) (heap_next s) (trace s).
Definition with_loadedSolvers (m : gmap N N) (s : CModelsManager) : CModelsManager :=
  mkManager (m_dirsList s) (m_availableUnits s) (m_availableSolvers s)
            (m_loadedUnits s) m (heap_next s) (trace s).
Definition with_heap (n : N) (s : CModelsManager) : CModelsManager :=
  mkManager (m_dirsList s) (m_availableUnits s) (m_availableSolvers s)
            (m_loadedUnits s) (m_loadedSolvers s) n (trace s).
Definition log (e : event) (s : CModelsManager) : CModelsManager :=
  mkManager (m_dirsList s) (m_availableUnits s) (m_availableSolvers s)
            (m_loadedUnits s) (m_loadedSolvers s) (heap_next s) (trace s ++ [e]).

(** A freshly constructed manager. *)
Definition new_manager : CModelsManager :=
  mkManager [] [] [] ∅ ∅ 1%N [].

(** How a member function ends: it returns, an exception leaves it, or it
    dereferences [nullptr] (undefined behaviour). *)
Inductive outcome (A : Type) : Type :=
| Ret (a : A) (s : CModelsManager)
| Raise (e : thrown) (s : CModelsManager)
| NullDeref (s : CModelsManager).
Arguments Ret {A} a s.
Arguments Raise {A} e s.
Arguments NullDeref {A} s.

(** The state a member function leaves behind, however it ends. *)
Definition final {A} (o : outcome A) : CModelsManager :=
  match o with
  | Ret _ s => s
  | Raise _ s => s
  | NullDeref s => s
  end.

Definition M (A : Type) : Type := CModelsManager -> outcome A.

Definition ret {A} (a : A) : M A := fun s => Ret a s.

Definition bind {A B} (c : M A) (k : A -> M B) : M B :=
  fun s => match c s with
           | Ret a s' => k a s'
           | Raise e s' => Raise e s'
           | NullDeref s' => NullDeref s'
           end.

Notation "'do' x <- c ; k" := (bind c (fun x => k))
  (at level 10, x name, c at level 100, k at level 200).
Notation "c ;; k" := (bind c (fun _ => k))
  (at level 100, k at level 200, right associativity).

Definition get : M CModelsManager := fun s => Ret s s.
Definition modify (f : CModelsManager -> CModelsManager) : M unit := fun s => Ret tt (f s).
Definition raise {A} (e : thrown) : M A := fun s => Raise e s.
Definition null_deref {A} : M A := fun s => NullDeref s.

(** [try { c } catch (const std::logic_error&)]: [None] when the handler
    was entered. *)
Definition try_catch_logic_error {A} (c : M A) : M (option A) :=
  fun s => match c s with
           | Ret a s' => Ret (Some a) s'
           | Raise logic_error s' => Ret None s'
           | Raise other_exception s' => Raise other_exception s'
           | NullDeref s' => NullDeref s'
           end.

(** A range-based [for] whose body may throw. *)
Fixpoint for_each {A} (l : list A) (body : A -> M unit) : M unit :=
  match l with
  | [] => ret tt
  | x :: l' => body x ;; for_each l' body
  end.

(** The same with local variables of type [S] carried through the loop. *)
Fixpoint fold_for {A S} (l : list A) (body : A -> S -> M S) (acc : S) : M S :=
  match l with
  | [] => ret acc
  | x :: l' => do acc' <- body x acc; fold_for l' body acc'
  end.

(** ** ModelsManager.cpp *)

Section ModelsManager.
Context {E : Env}.

(** *** Loader primitives (lines 362-387) *)

Definition LoadDyssolLibrary (_libPath : path) : M handle :=
  fun s => let h := os_open _libPath in Ret h (log (EvLoadLibrary _libPath h) s).

Definition CloseDyssolLibrary (_lib : handle) : M unit :=
  modify (log (EvCloseLibrary _lib)).

(** Calling a factory: the new object gets the next free address. *)
Definition construct {O} (create : call (option O)) : M (option (ptr * O)) :=
  fun s => match create with
           | throws e => Raise e s
           | returns None => Ret None s
           | returns (Some o) =>
               let p := heap_next s in
               Ret (Some (p, o)) (log (EvConstruct p) (with_heap (N.succ p) s))
           end.

(** [delete p]; deleting [nullptr] does nothing. *)
Definition delete_object (p : ptr) : M unit :=
  if N.eqb p nullptr then ret tt else modify (log (EvDelete p)).

(** *** Directory list (lines 12-73, 192-198) *)

Definition DirsNumber (s : CModelsManager) : nat := length (m_dirsList s).

Definition AllDirsKeys (s : CModelsManager) : list string :=
  map dir_key (m_dirsList s).

(** Modelled from the spec: [VectorDelete] of DyssolUtilities.h (not in
    src/) drops every element the predicate holds for and keeps the order of
    the others. *)
Definition VectorDelete {A} (v : list A) (pred : A -> bool) : list A :=
  List.filter (fun x => negb (pred x)) v.

(** The lambda of lines 203-209. *)
Definition IsToDelete {K} (dirs : list SModelDir) (_model : SModelDescriptor K) : bool :=
  negb (existsb (fun dir => dir_active dir && String.eqb (dir_key dir) (dirKey _model)) dirs).

(** *** Probing a library (lines 275-360) *)

(** The [try] block of lines 301-311: any exception of an accessor resets
    the descriptor to [{}]. *)
Definition describe_unit (_pathToUnit : path) (u : CBaseUnit) : SUnitDescriptor :=
  match unit_GetUniqueID u, unit_GetUnitName u, unit_GetAuthorName u,
        unit_GetUnitVersion u, unit_IsDynamicUnit u with
  | returns id, returns nm, returns au, returns ve, returns dy =>
      mkDescriptor id nm au ve (UnifyPath _pathToUnit) "" 0 dy
  | _, _, _, _, _ => no_unit
  end.

Definition TryGetUnitDescriptor (_pathToUnit : path) (_library : handle) : M SUnitDescriptor :=
  match os_symbol_unit _library DYSSOL_CREATE_MODEL_FUN_NAME with
  | None => ret no_unit
  | Some createUnitFunc =>
      do r <- try_catch_logic_error (construct createUnitFunc);
      match r with
      | None => ret no_unit
      | Some None => null_deref
      | Some (Some (pUnit, u)) =>
          if negb (Z.eqb (unit_nCompilerVer u) COMPILER_VERSION) then
            delete_object pUnit ;; ret no_unit
          else
            let unitDescriptor := describe_unit _pathToUnit u in
            delete_object pUnit ;; ret unitDescriptor
      end
  end.

(** The [try] block of lines 344-355; [None] when an accessor threw, so
    that [bFound] stays false. *)
Definition describe_solver (_pathToSolver : path) (v : CExternalSolver) : option SSolverDescriptor :=
  match solver_GetUniqueID v, solver_GetName v, solver_GetAuthorName v,
        solver_GetVersion v, solver_GetType v with
  | returns id, returns nm, returns au, returns ve, returns ty =>
      Some (mkDescriptor id nm au ve (UnifyPath _pathToSolver) "" 0 ty)
  | _, _, _, _, _ => None
  end.

(** The loop of lines 324-356 over the remaining solver types, with its
    locals [solverDescriptor] and [pSolver]; it stops at the first type
    for which [bFound] becomes true. *)
Fixpoint solver_types_loop (_pathToSolver : path) (_library : handle) (types : list nat)
    (solverDescriptor : SSolverDescriptor) (pSolver : ptr) : M (SSolverDescriptor * ptr) :=
  match types with
  | [] => ret (solverDescriptor, pSolver)
  | i :: rest =>
      match os_symbol_solver _library (CREATE_SOLVER_FUN_NAMES i) with
      | None => solver_types_loop _pathToSolver _library rest solverDescriptor pSolver
      | Some createSolverFunc =>
          do r <- try_catch_logic_error (construct createSolverFunc);
          match r with
          | None => solver_types_loop _pathToSolver _library rest solverDescriptor pSolver
          | Some None => null_deref
          | Some (Some (p, v)) =>
              if negb (Z.eqb (solver_nCompilerVer v) COMPILER_VERSION) then
                solver_types_loop _pathToSolver _library rest solverDescriptor p
              else
                match describe_solver _pathToSolver v with
                | Some d => ret (d, p)
                | None => solver_types_loop _pathToSolver _library rest no_solver p
                end
          end
      end
  end.

Definition TryGetSolverDescriptor (_pathToSolver : path) (_library : handle) : M SSolverDescriptor :=
  do r <- solver_types_loop _pathToSolver _library (seq 1 SOLVERS_TYPES_NUMBER) no_solver nullptr;
  delete_object (snd r) ;;
  ret (fst r).

(** *** Scanning a directory (lines 245-273) *)

Definition models : Type := list SUnitDescriptor * list SSolverDescriptor.

Definition GetAllModelsInDir (_dir : path) : M models :=
  fold_for (FilesList _dir)
    (fun f (res : models) =>
       do lib <- LoadDyssolLibrary f;
       if N.eqb lib 0 then ret res
       else
         do unit <- TryGetUnitDescriptor f lib;
         do res' <-
           (if descriptor_bool _ unit then ret (fst res ++ [unit], snd res)
            else
              do solver <- TryGetSolverDescriptor f lib;
              if descriptor_bool _ solver then ret (fst res, snd res ++ [solver])
              else ret res);
         CloseDyssolLibrary lib ;;
         ret res')
    ([], []).

Definition GetModelsList (_dir : path) : M models :=
  let absPath := AbsolutePath _dir in
  do models <- GetAllModelsInDir absPath;
  match models with
  | ([], []) =>
      let relPath := AbsolutePath (String.append ExecutableDirPath (String.append "/" _dir)) in
      GetAllModelsInDir relPath
  | _ => ret models
  end.

(** *** Reconciliation (lines 200-243) *)

(** Lines 214-229 for the directory at index [i]. *)
Definition scan_dir (i : nat) : M unit :=
  do s <- get;
  match m_dirsList s !! i with
  | None => ret tt
  | Some dir =>
      if dir_active dir && negb (dir_checked dir) then
        do models <- GetModelsList (dir_path dir);
        let units := map (set_dirKey (dir_key dir)) (fst models) in
        let solvers := map (set_dirKey (dir_key dir)) (snd models) in
        modify (fun s => with_units (m_availableUnits s ++ units) s) ;;
        modify (fun s => with_solvers (m_availableSolvers s ++ solvers) s) ;;
        modify (fun s => with_dirs (<[i := set_checked true dir]> (m_dirsList s)) s)
      else ret tt
  end.

(** Lines 234-239 for one descriptor list and the directory at index [i]. *)
Definition reposition {K} (i : nat) (key : string) (ms : list (SModelDescriptor K))
    : list (SModelDescriptor K) :=
  map (fun m => if String.eqb (dirKey m) key then set_position i m else m) ms.

(** The body of the loop of lines 232-240. *)
Definition reposition_step (s : CModelsManager) (i : nat) : CModelsManager :=
  match m_dirsList s !! i with
  | None => s
  | Some dir =>
      with_solvers (reposition i (dir_key dir) (m_availableSolvers s))
        (with_units (reposition i (dir_key dir) (m_availableUnits s)) s)
  end.

Definition UpdateAvailableModels : M unit :=
  (* remove models laying in removed dirs *)
  modify (fun s => with_units (VectorDelete (m_availableUnits s) (IsToDelete (m_dirsList s))) s) ;;
  modify (fun s => with_solvers (VectorDelete (m_availableSolvers s) (IsToDelete (m_dirsList s))) s) ;;
  (* add models from added dirs *)
  do s <- get;
  for_each (seq 0 (length (m_dirsList s))) scan_dir ;;
  (* sort models according to dirs order *)
  modify (fun s => fold_left reposition_step (seq 0 (length (m_dirsList s))) s) ;;
  modify (fun s => with_units (std_sort _ (m_availableUnits s)) s) ;;
  modify (fun s => with_solvers (std_sort _ (m_availableSolvers s)) s).

(** *** Directory operations (lines 17-73) *)

Definition AddDir (_path : path) (_active : bool) : M bool :=
  do s <- get;
  if existsb (fun entry => String.eqb (dir_path entry) _path) (m_dirsList s) then
    ret false
  else
    modify (fun s => with_dirs (m_dirsList s ++
              [mkDir _path (GenerateUniqueString "" (AllDirsKeys s)) _active false]) s) ;;
    UpdateAvailableModels ;;
    ret true.

Definition RemoveDir (_index : nat) : M bool :=
  do s <- get;
  if Nat.leb (length (m_dirsList s)) _index then ret false
  else
    modify (fun s => with_dirs (delete _index (m_dirsList s)) s) ;;
    UpdateAvailableModels ;;
    ret true.

(** [std::iter_swap] on two positions of a vector. *)
Definition iter_swap {A} (i j : nat) (l : list A) : list A :=
  match l !! i, l !! j with
  | Some a, Some b => <[i := b]> (<[j := a]> l)
  | _, _ => l
  end.

Definition UpDir (_index : nat) : M bool :=
  do s <- get;
  if Nat.leb (length (m_dirsList s)) _index || Nat.eqb _index 0 then ret false
  else
    modify (fun s => with_dirs (iter_swap _index (_index - 1) (m_dirsList s)) s) ;;
    UpdateAvailableModels ;;
    ret true.

Definition DownDir (_index : nat) : M bool :=
  do s <- get;
  if Nat.leb (length (m_dirsList s)) _index || Nat.eqb _index (length (m_dirsList s) - 1) then
    ret false
  else
    modify (fun s => with_dirs (iter_swap _index (_index + 1) (m_dirsList s)) s) ;;
    UpdateAvailableModels ;;
    ret true.

Definition GetDirPath (_index : nat) (s : CModelsManager) : path :=
  match m_dirsList s !! _index with Some d => dir_path d | None => "" end.

Definition GetDirActivity (_index : nat) (s : CModelsManager) : bool :=
  match m_dirsList s !! _index with Some d => dir_active d | None => false end.

(** Lines 62-64: the two assignments before the reconciliation. *)
Definition SetDirActivity_flags (_index : nat) (_active : bool) (s : CModelsManager)
    : CModelsManager :=
  match m_dirsList s !! _index with
  | None => s
  | Some d =>
      let d1 := set_checked (dir_active d || negb _active) d in
      let d2 := set_active _active d1 in
      with_dirs (<[_index := d2]> (m_dirsList s)) s
  end.

Definition SetDirActivity (_index : nat) (_active : bool) : M unit :=
  do s <- get;
  if Nat.leb (length (m_dirsList s)) _index then ret tt
  else
    modify (SetDirActivity_flags _index _active) ;;
    UpdateAvailableModels.

Definition Clear : M unit :=
  modify (fun s => with_solvers [] (with_units [] (with_dirs [] s))).

Definition GetAvailableUnits (s : CModelsManager) : list SUnitDescriptor :=
  m_availableUnits s.

Definition GetAvailableSolvers (s : CModelsManager) : list SSolverDescriptor :=
  m_availableSolvers s.

(** *** Instances (lines 100-190) *)

(** The loop of lines 102-126 over the remaining descriptors. *)
Fixpoint InstantiateUnit_from (_key : string) (units : list SUnitDescriptor) : M ptr :=
  match units with
  | [] => ret nullptr
  | u :: rest =>
      if String.eqb (uniqueID u) _key then
        do hLibrary <- LoadDyssolLibrary (fileLocation u);
        if N.eqb hLibrary 0 then ret nullptr
        else
          match os_symbol_unit hLibrary DYSSOL_CREATE_MODEL_FUN_NAME with
          | None => CloseDyssolLibrary hLibrary ;; InstantiateUnit_from _key rest
          | Some createUnitFunc =>
              do pUnit <- construct createUnitFunc;
              match pUnit with
              | None => CloseDyssolLibrary hLibrary ;; InstantiateUnit_from _key rest
              | Some (p, _) =>
                  modify (fun s => log (EvRecordUnit p hLibrary)
                                     (with_loadedUnits (<[p := hLibrary]> (m_loadedUnits s)) s)) ;;
                  ret p
              end
          end
      else InstantiateUnit_from _key rest
  end.

Definition InstantiateUnit (_key : string) : M ptr :=
  do s <- get; InstantiateUnit_from _key (m_availableUnits s).

(** The loop of lines 132-156.  Line 139 indexes the vector of the factory
    names with the [solverType] of the descriptor, which the plug-in
    supplied: the vector has the entries [0 .. SOLVERS_TYPES_NUMBER] (the
    loop of lines 324-356 reads it up to that index), and reading past its
    end is undefined behaviour, the outcome [NullDeref] here. *)
Fixpoint InstantiateSolver_from (_key : string) (solvers : list SSolverDescriptor) : M ptr :=
  match solvers with
  | [] => ret nullptr
  | v :: rest =>
      if String.eqb (uniqueID v) _key then
        do hLibrary <- LoadDyssolLibrary (fileLocation v);
        if N.eqb hLibrary 0 then ret nullptr
        else if Nat.ltb SOLVERS_TYPES_NUMBER (solverType v) then null_deref
        else
          match os_symbol_solver hLibrary (CREATE_SOLVER_FUN_NAMES (solverType v)) with
          | None => CloseDyssolLibrary hLibrary ;; InstantiateSolver_from _key rest
          | Some createSolverFunc =>
              do pSolver <- construct createSolverFunc;
              match pSolver with
              | None => CloseDyssolLibrary hLibrary ;; InstantiateSolver_from _key rest
              | Some (p, _) =>
                  modify (fun s => log (EvRecordSolver p hLibrary)
                                     (with_loadedSolvers (<[p := hLibrary]> (m_loadedSolvers s)) s)) ;;
                  ret p
              end
          end
      else InstantiateSolver_from _key rest
  end.

Definition InstantiateSolver (_key : string) : M ptr :=
  do s <- get; InstantiateSolver_from _key (m_availableSolvers s).

Definition FreeUnit (_unit : ptr) : M unit :=
  if N.eqb _unit nullptr then ret tt
  else
    do s <- get;
    match m_loadedUnits s !! _unit with
    | None => ret tt
    | Some hLibrary =>
        modify (fun s => log (EvEraseUnit _unit)
                           (with_loadedUnits (delete _unit (m_loadedUnits s)) s)) ;;
        delete_object _unit ;;
        CloseDyssolLibrary hLibrary
    end.

Definition FreeSolver (_solver : ptr) : M unit :=
  if N.eqb _solver nullptr then ret tt
  else
    do s <- get;
    match m_loadedSolvers s !! _solver with
    | None => ret tt
    | Some hLibrary =>
        modify (fun s => log (EvEraseSolver _solver)
                           (with_loadedSolvers (delete _solver (m_loadedSolvers s)) s)) ;;
        delete_object _solver ;;
        CloseDyssolLibrary hLibrary
    end.

End ModelsManager.

(** ** UnitParameters.h: the time-dependent parameter *)

Module TimeDependent.
Local Open Scope Q_scope.

(** [CTDUnitParameter] (lines 93-127).  [CDependentValues] is not in src/;
    by the spec it is an ordered mapping from time to value with unique,
    increasing times: the list of its points in the order of their times.
    The [double]s of the code are rationals here. *)
Record CTDUnitParameter : Type := mkTD {
  m_values : list (Q * Q);
  m_min : Q;
  m_max : Q
}.

(** The numbers [GetValue] computes with are the [double]s of the code:
    binary64 floating point, with its rounding, infinities and NaN.  (Where
    the points are only stored and read back, as in the record above, the
    rationals stand for them.) *)
Abbreviation double := float (only parsing).

(** [CDependentValues] is not in src/; by the spec it is an "ordered
    mapping time->value (unique, increasing times)": the list of its points
    in the order of their times. *)
Definition CDependentValues : Type := list (double * double).

(** The value at [t] on the straight line through the points [p] and [q]. *)
Definition interpolate (p q : double * double) (t : double) : double :=
  (snd p + (t - fst p) * (snd q - snd p) / (fst q - fst p))%float.

(** The search for the two points that bracket [t], from [p] on: the first
    point [q] with [t <= time of q] and the point before it. *)
Fixpoint bracketing (p : double * double) (rest : list (double * double)) (t : double)
    : double :=
  match rest with
  | [] => snd p
  | q :: rest' => if (t <=? fst q)%float then interpolate p q t else bracketing q rest' t
  end.

(** Modelled from the spec: [CTDUnitParameter::GetValue] is declared in
    line 113 and defined in UnitParameters.cpp, which is not in src/; it
    reads the curve [m_values].  "If [t] is before the first defined point,
    return the first value (clamp-left); if after the last, clamp-right;
    otherwise linear-interpolate between the two bracketing points; if no
    points are defined, [...] a defined default (0.0)."  The clamps take
    the end points with them: a curve of one point has no two bracketing
    points, so that the three cases cover every time only if a time equal
    to the first or the last one is clamped; there the spec's line through
    the bracketing points passes through the stored value, which the clamp
    returns as it is. *)
Definition GetValue (m_values : CDependentValues) (_time : double) : double :=
  match m_values with
  | [] => 0%float
  | first :: rest =>
      let last := List.last rest first in
      if (_time <=? fst first)%float then snd first
      else if (fst last <=? _time)%float then snd last
      else bracketing first rest _time
  end.

(** The invariant of the data model: unique, increasing times. *)
Definition increasing_times (m_values : CDependentValues) : Prop :=
  StronglySorted (fun a b => (a <? b)%float = true) (map fst m_values).

(** The points [{(0,1), (10,5)}]. *)
Definition example : CDependentValues := [(0, 1); (10, 5)]%float.

End TimeDependent.

(** ** UnitParameters.h: the parameter registry *)

Module UnitParameters.

(** [enum class EUnitParameter] (lines 9-20) with its numeric values. *)
Inductive EUnitParameter : Type :=
| UNKNOWN | TIME_DEPENDENT | CONSTANT | STRING | CHECKBOX | SOLVER | COMBO | GROUP | COMPOUND.

Definition EUnitParameter_value (k : EUnitParameter) : Z :=
  match k with
  | UNKNOWN => 0 | TIME_DEPENDENT => 1 | CONSTANT => 2 | STRING => 3 | CHECKBOX => 4
  | SOLVER => 5 | COMBO => 6 | GROUP => 7 | COMPOUND => 8
  end.

(** The [static_cast] back from the stored number. *)
Definition EUnitParameter_of (z : Z) : EUnitParameter :=
  match z with
  | 1 => TIME_DEPENDENT | 2 => CONSTANT | 3 => STRING | 4 => CHECKBOX
  | 5 => SOLVER | 6 => COMBO | 7 => GROUP | 8 => COMPOUND | _ => UNKNOWN
  end%Z.

(** [UP_MAX] and [UP_MIN] (lines 22-23): the largest finite [double],
    [2^1024 - 2^971], and its negative. *)
Definition UP_MAX : Q := inject_Z (2 ^ 1024 - 2 ^ 971).
Definition UP_MIN : Q := Qopp UP_MAX.

(** The members the derived classes add to [CBaseUnitParameter]
    (lines 64-252); [double] is a rational, [size_t] is [N]. *)
Record CConstUnitParameter : Type := mkConst {
  const_value : Q;
  const_min : Q;
  const_max : Q
}.

Record CSolverUnitParameter : Type := mkSolverParameter {
  solver_key : string;
  solver_type : N
}.

Record CComboUnitParameter : Type := mkCombo {
  m_items : gmap N string;
  m_selected : N
}.

(** One case per derived class; [CGroupUnitParameter] derives from
    [CComboUnitParameter] and adds no member. *)
Inductive parameter_data : Type :=
| TimeDependentData (td : TimeDependent.CTDUnitParameter)
| ConstData (c : CConstUnitParameter)
| StringData (m_value : string)
| CheckboxData (m_checked : bool)
| SolverData (sv : CSolverUnitParameter)
| ComboData (cb : CComboUnitParameter)
| GroupData (cb : CComboUnitParameter)
| CompoundData (m_key : string).

(** [CBaseUnitParameter] (lines 27-61); [m_type] is the case of [m_data]. *)
Record CBaseUnitParameter : Type := mkParameter {
  m_name : string;
  m_units : string;
  m_description : string;
  m_data : parameter_data
}.

Definition GetType (p : CBaseUnitParameter) : EUnitParameter :=
  match m_data p with
  | TimeDependentData _ => TIME_DEPENDENT
  | ConstData _ => CONSTANT
  | StringData _ => STRING
  | CheckboxData _ => CHECKBOX
  | SolverData _ => SOLVER
  | ComboData _ => COMBO
  | GroupData _ => GROUP
  | CompoundData _ => COMPOUND
  end.

(** [CUnitParametersManager] (lines 261-440): the owned parameters and
    [group_map_t], map<iParameter, map<iBlock, vector<iGroups>>>. *)
Record CUnitParametersManager : Type := mkRegistry {
  m_parameters : list CBaseUnitParameter;
  m_groups : gmap nat (gmap nat (list N))
}.

Definition ParametersNumber (R : CUnitParametersManager) : nat := length (m_parameters R).

Definition GetParameter (R : CUnitParametersManager) (_index : nat) : option CBaseUnitParameter :=
  m_parameters R !! _index.

Definition GetGroupParameter (R : CUnitParametersManager) (_index : nat) : option CComboUnitParameter :=
  match m_parameters R !! _index with
  | Some p => match m_data p with GroupData cb => Some cb | _ => None end
  | None => None
  end.

(** Modelled from the spec: [IsParameterActive] is declared in line 423 and
    defined in UnitParameters.cpp, which is not in src/.  "A parameter with
    no entries in the group map is always active.  A parameter with entries
    is active iff, for at least one block it is registered under, the
    Group-parameter acting as that block currently has a selected value
    equal to one of the parameter's registered group-ids for that block." *)
Definition IsParameterActive (R : CUnitParametersManager) (_index : nat) : bool :=
  match m_groups R !! _index with
  | None => true
  | Some blocks =>
      existsb (fun '(block, groups) =>
                 match GetGroupParameter R block with
                 | Some cb => existsb (N.eqb (m_selected cb)) groups
                 | None => false
                 end)
              (map_to_list blocks)
  end.

(** Modelled from the spec: [AddToGroup] (line 434) "makes parameter with
    index _parameter a member of the corresponding _block and _group";
    "duplicate registration is harmless/idempotent". *)
Definition AddToGroup (_parameter _block : nat) (_group : N)
    (groups : gmap nat (gmap nat (list N))) : gmap nat (gmap nat (list N)) :=
  let blocks := default ∅ (groups !! _parameter) in
  let members := default [] (blocks !! _block) in
  if existsb (N.eqb _group) members then groups
  else <[_parameter := <[_block := members ++ [_group]]> blocks]> groups.

(** Modelled from the spec: [AddParametersToGroup] (line 419) "validates
    that block [...] indexes an existing Group parameter, group is one of
    its valid item-ids, and every listed parameter exists; if any check
    fails the call is a complete no-op.  On success, registers each
    parameter under (block, group) in the group map". *)
Definition AddParametersToGroup (_block : nat) (_group : N) (_parameters : list nat)
    (R : CUnitParametersManager) : CUnitParametersManager :=
  match GetGroupParameter R _block with
  | Some cb =>
      if bool_decide (is_Some (m_items cb !! _group))
         && forallb (fun i => Nat.ltb i (ParametersNumber R)) _parameters
      then mkRegistry (m_parameters R)
             (fold_left (fun g i => AddToGroup i _block _group g) _parameters (m_groups R))
      else R
  | None => R
  end.

(** Modelled from the spec: [CH5Handler] (H5Handler.h, not in src/) is "a
    hierarchical keyed store addressed by string paths": a value is stored
    under the path of its group and its own name. *)
Inductive datum : Type :=
| DInt (z : Z)
| DReal (x : Q)
| DBool (b : bool)
| DText (s : string)
| DCurve (l : list (Q * Q))
| DItems (l : list (N * string))
| DTriples (l : list (nat * nat * N)).

Abbreviation CH5Handler := (gmap (list string * string) datum) (only parsing).

Definition WriteData (_path : list string) (_name : string) (v : datum)
    (h5 : CH5Handler) : CH5Handler :=
  <[(_path, _name) := v]> h5.

Definition CreateGroup (_path : list string) (_name : string) : list string :=
  _path ++ [_name].


(** Reading gives the stored value, or the given default when the name is
    missing in the group or holds another kind of value ("forward-compatible
    field defaults"). *)
Definition ReadInt (h5 : CH5Handler) (_path : list string) (_name : string) (missing : Z) : Z :=
  match h5 !! (_path, _name) with Some (DInt z) => z | _ => missing end.
Definition ReadReal (h5 : CH5Handler) (_path : list string) (_name : string) (missing : Q) : Q :=
  match h5 !! (_path, _name) with Some (DReal x) => x | _ => missing end.
Definition ReadBool (h5 : CH5Handler) (_path : list string) (_name : string) (missing : bool) : bool :=
  match h5 !! (_path, _name) with Some (DBool b) => b | _ => missing end.
Definition ReadText (h5 : CH5Handler) (_path : list string) (_name : string) (missing : string) : string :=
  match h5 !! (_path, _name) with Some (DText s) => s | _ => missing end.
Definition ReadCurve (h5 : CH5Handler) (_path : list string) (_name : string) : list (Q * Q) :=
  match h5 !! (_path, _name) with Some (DCurve l) => l | _ => [] end.
Definition ReadItems (h5 : CH5Handler) (_path : list string) (_name : string) : list (N * string) :=
  match h5 !! (_path, _name) with Some (DItems l) => l | _ => [] end.
Definition ReadTriples (h5 : CH5Handler) (_path : list string) (_name : string)
    : list (nat * nat * N) :=
  match h5 !! (_path, _name) with Some (DTriples l) => l | _ => [] end.

Section Persistence.
(** The [static const unsigned m_cnSaveVersion] of each parameter class
    and of the manager; their values are in UnitParameters.cpp. *)
Context (m_cnSaveVersion : EUnitParameter -> Z) (m_cnManagerSaveVersion : Z).

(** Modelled from the spec: "each parameter kind writes a per-kind schema
    version integer plus its fields". *)
Definition save_data (d : parameter_data) (g : list string) (h5 : CH5Handler) : CH5Handler :=
  match d with
  | TimeDependentData td =>
      WriteData g "max" (DReal (TimeDependent.m_max td))
        (WriteData g "min" (DReal (TimeDependent.m_min td))
           (WriteData g "values" (DCurve (TimeDependent.m_values td)) h5))
  | ConstData c =>
      WriteData g "max" (DReal (const_max c))
        (WriteData g "min" (DReal (const_min c))
           (WriteData g "value" (DReal (const_value c)) h5))
  | StringData v => WriteData g "value" (DText v) h5
  | CheckboxData b => WriteData g "checked" (DBool b) h5
  | SolverData sv =>
      WriteData g "solverType" (DInt (Z.of_N (solver_type sv)))
        (WriteData g "key" (DText (solver_key sv)) h5)
  | ComboData cb | GroupData cb =>
      WriteData g "selected" (DInt (Z.of_N (m_selected cb)))
        (WriteData g "items" (DItems (map_to_list (m_items cb))) h5)
  | CompoundData k => WriteData g "key" (DText k) h5
  end.

Definition save_parameter (p : CBaseUnitParameter) (g : list string) (h5 : CH5Handler)
    : CH5Handler :=
  save_data (m_data p) g
    (WriteData g "description" (DText (m_description p))
       (WriteData g "units" (DText (m_units p))
          (WriteData g "name" (DText (m_name p))
             (WriteData g "version" (DInt (m_cnSaveVersion (GetType p)))
                (WriteData g "type" (DInt (EUnitParameter_value (GetType p))) h5))))).

(** The group of the parameter with index [i] below [_path]. *)
Definition parameter_group (_path : list string) (i : nat) : list string :=
  CreateGroup _path ("UnitParameter" +:+ pretty i).

Fixpoint save_parameters (_path : list string) (i : nat) (ps : list CBaseUnitParameter)
    (h5 : CH5Handler) : CH5Handler :=
  match ps with
  | [] => h5
  | p :: ps' => save_parameters _path (S i) ps' (save_parameter p (parameter_group _path i) h5)
  end.

(** "the registry additionally persists the group map as
    (parameter-index, block-index, group-id) triples" *)
Definition group_triples (groups : gmap nat (gmap nat (list N))) : list (nat * nat * N) :=
  flat_map (fun pb : nat * gmap nat (list N) =>
              flat_map (fun bg : nat * list N => map (fun g => (pb.1, bg.1, g)) bg.2)
                       (map_to_list pb.2))
           (map_to_list groups).

(** Modelled from the spec: [SaveToFile] (line 428) "serialize[s] every
    parameter, tagged by kind and by a per-kind format version number, to a
    hierarchical keyed store at a given path prefix". *)
Definition SaveToFile (R : CUnitParametersManager) (_path : list string) (h5 : CH5Handler)
    : CH5Handler :=
  WriteData _path "groups" (DTriples (group_triples (m_groups R)))
    (save_parameters _path 0 (m_parameters R)
       (WriteData _path "parametersNumber" (DInt (Z.of_nat (length (m_parameters R))))
          (WriteData _path "version" (DInt m_cnManagerSaveVersion) h5))).

Definition load_combo (h5 : CH5Handler) (g : list string) : CComboUnitParameter :=
  mkCombo (list_to_map (ReadItems h5 g "items"))
          (Z.to_N (ReadInt h5 g "selected" (2 ^ 64 - 1))).

(** Modelled from the spec: loading reads the fields of the stored kind;
    a field that an older format did not write takes its default. *)
Definition load_data (h5 : CH5Handler) (g : list string) (k : EUnitParameter)
    : option parameter_data :=
  match k with
  | TIME_DEPENDENT =>
      Some (TimeDependentData
              (TimeDependent.mkTD (ReadCurve h5 g "values")
                 (ReadReal h5 g "min" UP_MIN) (ReadReal h5 g "max" UP_MAX)))
  | CONSTANT =>
      Some (ConstData (mkConst (ReadReal h5 g "value" 0)
                         (ReadReal h5 g "min" UP_MIN) (ReadReal h5 g "max" UP_MAX)))
  | STRING => Some (StringData (ReadText h5 g "value" ""))
  | CHECKBOX => Some (CheckboxData (ReadBool h5 g "checked" false))
  | SOLVER =>
      Some (SolverData (mkSolverParameter (ReadText h5 g "key" "")
                          (Z.to_N (ReadInt h5 g "solverType" 0))))
  | COMBO => Some (ComboData (load_combo h5 g))
  | GROUP => Some (GroupData (load_combo h5 g))
  | COMPOUND => Some (CompoundData (ReadText h5 g "key" ""))
  | UNKNOWN => None
  end.

Definition load_parameter (h5 : CH5Handler) (g : list string) : option CBaseUnitParameter :=
  match load_data h5 g (EUnitParameter_of (ReadInt h5 g "type" 0)) with
  | Some d =>
      Some (mkParameter (ReadText h5 g "name" "") (ReadText h5 g "units" "")
              (ReadText h5 g "description" "") d)
  | None => None
  end.

Fixpoint load_parameters (h5 : CH5Handler) (_path : list string) (i n : nat)
    : list CBaseUnitParameter :=
  match n with
  | 0 => []
  | S n' =>
      match load_parameter h5 (parameter_group _path i) with
      | Some p => p :: load_parameters h5 _path (S i) n'
      | None => load_parameters h5 _path (S i) n'
      end
  end.

(** [m_groups[p][b].push_back(g)] for a stored triple. *)
Definition register (t : nat * nat * N) (groups : gmap nat (gmap nat (list N)))
    : gmap nat (gmap nat (list N)) :=
  let blocks := default ∅ (groups !! t.1.1) in
  <[t.1.1 := <[t.1.2 := default [] (blocks !! t.1.2) ++ [t.2]]> blocks]> groups.

Definition groups_of_triples (ts : list (nat * nat * N)) : gmap nat (gmap nat (list N)) :=
  fold_left (fun acc t => register t acc) ts ∅.

(** Modelled from the spec: [LoadFromFile] (line 430) reads back what
    [SaveToFile] wrote and "must reconstruct the group map". *)
Definition LoadFromFile (h5 : CH5Handler) (_path : list string) : CUnitParametersManager :=
  mkRegistry
    (load_parameters h5 _path 0 (Z.to_nat (ReadInt h5 _path "parametersNumber" 0)))
    (groups_of_triples (ReadTriples h5 _path "groups")).

End Persistence.

(** [m_groups[p][b]], empty when there is no such entry. *)
Definition members_at (groups : gmap nat (gmap nat (list N))) (p b : nat) : list N :=
  default [] (default ∅ (groups !! p) !! b).

(** The group maps [AddParametersToGroup] builds: no parameter without a
    block, no block without a group. *)
Definition groups_wf (groups : gmap nat (gmap nat (list N))) : Prop :=
  forall p blocks, groups !! p = Some blocks ->
    blocks <> ∅ /\ forall b gs, blocks !! b = Some gs -> gs <> [].

(** The group-ids of the triples of parameter [p] and block [b], in order. *)
Definition triples_at (ts : list (nat * nat * N)) (p b : nat) : list N :=
  flat_map (fun t : nat * nat * N =>
              if decide (t.1.1 = p /\ t.1.2 = b) then [t.2] else []) ts.

(** A registry with a parameter of every kind, built like a unit builds
    it: the parameters, then the members of the two groups of block 6. *)
Definition example_parameters : list CBaseUnitParameter :=
  [mkParameter "Flow" "kg/s" "Mass flow over time"
     (TimeDependentData (TimeDependent.mkTD [(0, 1); (10, 5)]%Q 0%Q 100%Q));
   mkParameter "Split factor" "-" "Fraction to the first outlet"
     (ConstData (mkConst (1 # 2) 0 1));
   mkParameter "Comment" "" "Free text" (StringData "test run");
   mkParameter "Use heat balance" "" "" (CheckboxData true);
   mkParameter "Solver" "" "Agglomeration solver" (SolverData (mkSolverParameter "C77D1D5A7B9F" 1));
   mkParameter "Method" "" "Numerical method"
     (ComboData (mkCombo (<[0%N := "Euler"]> (<[1%N := "RK4"]> ∅)) 1));
   mkParameter "Model" "" "Breakage model"
     (GroupData (mkCombo (<[0%N := "Simple"]> (<[1%N := "Detailed"]> ∅)) 0));
   mkParameter "Material" "" "Compound" (CompoundData "8F1E2A3B")].

Definition example_registry : CUnitParametersManager :=
  AddParametersToGroup 6 1%N [0; 3]
    (AddParametersToGroup 6 0%N [1; 2] (mkRegistry example_parameters ∅)).

End UnitParameters.

(** ** Concrete environments

    A small installation used to run the functions above: two plug-in
    directories, a unit library, a solver library, a library built with
    another compiler, and a library whose factory throws. *)

Module Demo.

Definition unit_symbol : string := "CreateDYSSOLUnitV3".
Definition solver_symbol (i : nat) : string :=
  match i with
  | 1 => "CreateDYSSOLSolverAgglomerationV1"
  | 2 => "CreateDYSSOLSolverPBMV1"
  | _ => "CreateDYSSOLSolverV1"
  end.

Definition host_version : Z := 1916.

Definition mixer : CBaseUnit :=
  mkUnit host_version (returns "4E2C9FB3BBA1") (returns "Mixer") (returns "SPE TUHH")
         (returns 3%N) (returns false).
Definition splitter : CBaseUnit :=
  mkUnit host_version (returns "85C77E9F3B2A") (returns "Splitter") (returns "SPE TUHH")
         (returns 2%N) (returns false).
Definition crusher : CBaseUnit :=
  mkUnit host_version (returns "2FD8955A2E91") (returns "Crusher") (returns "SPE TUHH")
         (returns 1%N) (returns true).
(** Built with another compiler. *)
Definition foreign_unit : CBaseUnit :=
  mkUnit 1800 (returns "77AA01C3D5E6") (returns "Foreign") (returns "unknown")
         (returns 1%N) (returns false).
Definition agglomeration : CExternalSolver :=
  mkSolver host_version (returns "C77D1D5A7B9F") (returns "FFT") (returns "SPE TUHH")
           (returns 1%N) (returns 1).
Definition foreign_solver : CExternalSolver :=
  mkSolver 1800 (returns "0B1E6A5C3D2F") (returns "Old") (returns "unknown")
           (returns 1%N) (returns 1).

(** Library handles by file. *)
Definition open_file (f : path) : handle :=
  if String.eqb f "/models/A/mixer.so" then 11%N
  else if String.eqb f "/models/A/splitter.so" then 12%N
  else if String.eqb f "/models/B/crusher.so" then 13%N
  else if String.eqb f "/models/B/fft.so" then 14%N
  else if String.eqb f "/models/C/foreign.so" then 15%N
  else if String.eqb f "/models/C/oldsolver.so" then 16%N
  else if String.eqb f "/models/D/broken.so" then 17%N
  else if String.eqb f "/models/E/empty.so" then 18%N
  else if String.eqb f "/models/E/nothing.so" then 19%N
  else 0%N.

Definition symbol_unit (h : handle) (sym : string) : option CreateUnit :=
  if negb (String.eqb sym unit_symbol) then None
  else if N.eqb h 11 then Some (returns (Some mixer))
  else if N.eqb h 12 then Some (returns (Some splitter))
  else if N.eqb h 13 then Some (returns (Some crusher))
  else if N.eqb h 15 then Some (returns (Some foreign_unit))
  else if N.eqb h 17 then Some (throws other_exception)
  else if N.eqb h 19 then Some (returns None)
  else None.

Definition symbol_solver (h : handle) (sym : string) : option CreateExternalSolver :=
  if N.eqb h 14 && String.eqb sym (solver_symbol 1) then Some (returns (Some agglomeration))
  else if N.eqb h 16 && String.eqb sym (solver_symbol 1) then Some (returns (Some foreign_solver))
  else None.

Definition files (d : path) : list path :=
  if String.eqb d "/models/A" then ["/models/A/mixer.so"; "/models/A/splitter.so"]
  else if String.eqb d "/models/B" then ["/models/B/crusher.so"; "/models/B/fft.so"]
  else if String.eqb d "/models/C" then ["/models/C/foreign.so"; "/models/C/oldsolver.so"]
  else if String.eqb d "/models/D" then ["/models/D/broken.so"]
  else if String.eqb d "/models/E" then ["/models/E/empty.so"]
  else [].

(** A key that none of the existing ones equals: longer than each. *)
Definition unique_string (init : string) (existing : list string) : string :=
  String.append init (String.append "k" (String.concat "" existing)).

(** An empty unique identifier marks the empty descriptor. *)
Definition has_id K (d : SModelDescriptor K) : bool :=
  negb (String.eqb (uniqueID d) "").

(** Insertion sort by position; [before x y] decides whether [x] goes in
    front of an element [y] already placed. *)
Fixpoint insert_by {K} (before : nat -> nat -> bool) (x : SModelDescriptor K)
    (l : list (SModelDescriptor K)) : list (SModelDescriptor K) :=
  match l with
  | [] => [x]
  | y :: l' => if before (position x) (position y) then x :: y :: l'
               else y :: insert_by before x l'
  end.

Definition sort_by (before : nat -> nat -> bool) K (l : list (SModelDescriptor K))
    : list (SModelDescriptor K) :=
  fold_right (insert_by before) [] l.

(** Equal positions keep their order. *)
Definition keeping_sort := sort_by Nat.leb.
(** Equal positions come out in reverse order. *)
Definition reversing_sort := sort_by Nat.ltb.

Definition env_with (sort : forall K, list (SModelDescriptor K) -> list (SModelDescriptor K))
    : Env :=
  {| COMPILER_VERSION := host_version;
     DYSSOL_CREATE_MODEL_FUN_NAME := unit_symbol;
     CREATE_SOLVER_FUN_NAMES := solver_symbol;
     SOLVERS_TYPES_NUMBER := 2;
     GenerateUniqueString := unique_string;
     UnifyPath := fun f => f;
     AbsolutePath := fun f => f;
     ExecutableDirPath := "/opt/dyssol";
     FilesList := files;
     os_open := open_file;
     os_symbol_unit := symbol_unit;
     os_symbol_solver := symbol_solver;
     descriptor_bool := has_id;
     std_sort := sort |}.

Definition env : Env := env_with keeping_sort.
Definition env_reversing : Env := env_with reversing_sort.

(** The manager after [AddDir("/models/A", true)] and
    [AddDir("/models/B", true)]. *)
Definition two_dirs : CModelsManager :=
  final ((@AddDir env "/models/A" true ;; @AddDir env "/models/B" true) new_manager).

(** ... then [SetDirActivity(0, false)]. *)
Definition first_off : CModelsManager :=
  final (@SetDirActivity env 0 false two_dirs).

(** ... then [SetDirActivity(0, true)] again. *)
Definition first_on_again : CModelsManager :=
  final (@SetDirActivity env 0 true first_off).

(** [two_dirs] after [RemoveDir(0)]. *)
Definition first_removed : CModelsManager :=
  final (@RemoveDir env 0 two_dirs).

(** [two_dirs] after [InstantiateUnit] of the mixer. *)
Definition mixer_loaded : CModelsManager :=
  final (@InstantiateUnit env "4E2C9FB3BBA1" two_dirs).

(** The manager after [AddDir("/models/A", true)] when [std::sort] is
    [reversing_sort]. *)
Definition first_dir_reversing : CModelsManager :=
  final (@AddDir env_reversing "/models/A" true new_manager).

(** What the scan of "/models/A" finds there, in the order of discovery. *)
Definition found_in_first_dir : list SUnitDescriptor * list SSolverDescriptor :=
  match @GetModelsList env_reversing "/models/A" new_manager with
  | Ret found _ => found
  | _ => ([], [])
  end.

(** Both directories hold a copy of the crusher library; the copy in
    "/models/A" was listed by the scan and has been deleted from the disk
    since, so that it does not load any more. *)
Definition crusher_descriptor (f : path) (key : string) (pos : nat) : SUnitDescriptor :=
  mkDescriptor "2FD8955A2E91" "Crusher" "SPE TUHH" 1%N f key pos true.

Definition stale_copy : CModelsManager :=
  with_units [crusher_descriptor "/models/A/crusher.so" "k" 0;
              crusher_descriptor "/models/B/crusher.so" "kk" 1] two_dirs.

End Demo.

(** ** Notions used in the statements *)

(** Two states with the same manager members: they differ at most in the
    heap and in the recorded events. *)
Definition same_members (s s' : CModelsManager) : Prop :=
  m_dirsList s' = m_dirsList s /\
  m_availableUnits s' = m_availableUnits s /\
  m_availableSolvers s' = m_availableSolvers s /\
  m_loadedUnits s' = m_loadedUnits s /\
  m_loadedSolvers s' = m_loadedSolvers s.

(** A computation that never touches the manager's members. *)
Definition probing {A} (c : M A) : Prop :=
  forall s, same_members s (final (c s)).

(** The guard of line 215: the directory is scanned by the next
    reconciliation. *)
Definition pending (d : SModelDir) : bool :=
  dir_active d && negb (dir_checked d).

(** What the loop of lines 214-229 does to a directory entry. *)
Definition mark_scanned (d : SModelDir) : SModelDir :=
  if pending d then set_checked true d else d.

(** The key [k] belongs to an active directory of [dirs]. *)
Definition active_key (dirs : list SModelDir) (k : string) : Prop :=
  exists d, d ∈ dirs /\ dir_active d = true /\ dir_key d = k.

(** The descriptor's position is the list index of its owning directory. *)
Definition positioned {K} (dirs : list SModelDir) (m : SModelDescriptor K) : Prop :=
  exists d, dirs !! position m = Some d /\ dir_key d = dirKey m.

(** The order [std::sort] establishes: no later element is less than an
    earlier one. *)
Definition sorted_by_position {K} (l : list (SModelDescriptor K)) : Prop :=
  StronglySorted (fun a b => descriptor_lt b a = false) l.

(** What the C++ standard promises of [std::sort]. *)
Class SortContract (E : Env) : Prop := {
  std_sort_permutation : forall K (l : list (SModelDescriptor K)), Permutation (std_sort K l) l;
  std_sort_sorted : forall K (l : list (SModelDescriptor K)), sorted_by_position (std_sort K l)
}.

(** What the manager relies on from [GenerateUniqueString]. *)
Definition UniqueContract (E : Env) : Prop :=
  forall init existing, GenerateUniqueString init existing ∉ existing.

(** The state between two member calls that returned: directory keys are
    distinct, every active directory has been scanned, and every cached
    descriptor belongs to an active directory and carries its index. *)
Record consistent (s : CModelsManager) : Prop := {
  keys_distinct : NoDup (map dir_key (m_dirsList s));
  none_pending : Forall (fun d => pending d = false) (m_dirsList s);
  units_owned : Forall (fun u => active_key (m_dirsList s) (dirKey u)) (m_availableUnits s);
  solvers_owned : Forall (fun v => active_key (m_dirsList s) (dirKey v)) (m_availableSolvers s);
  units_positioned : Forall (positioned (m_dirsList s)) (m_availableUnits s);
  solvers_positioned : Forall (positioned (m_dirsList s)) (m_availableSolvers s)
}.

(** Lines 202-211 as one state change. *)
Definition drop_orphans (s : CModelsManager) : CModelsManager :=
  with_solvers (VectorDelete (m_availableSolvers s) (IsToDelete (m_dirsList s)))
    (with_units (VectorDelete (m_availableUnits s) (IsToDelete (m_dirsList s))) s).

(** What lines 232-240 do to one descriptor when the loop is at index [i]. *)
Definition reposition_at {K} (dirs : list SModelDir) (m : SModelDescriptor K) (i : nat)
    : SModelDescriptor K :=
  match dirs !! i with
  | Some d => if String.eqb (dirKey m) (dir_key d) then set_position i m else m
  | None => m
  end.

(** ... and over the whole loop. *)
Definition reposition_all {K} (dirs : list SModelDir) (m : SModelDescriptor K)
    : SModelDescriptor K :=
  fold_left (reposition_at dirs) (seq 0 (length dirs)) m.

(** Lines 231-242 as one state change. *)
Definition sort_models {E : Env} (s : CModelsManager) : CModelsManager :=
  with_solvers (std_sort _ (map (reposition_all (m_dirsList s)) (m_availableSolvers s)))
    (with_units (std_sort _ (map (reposition_all (m_dirsList s)) (m_availableUnits s))) s).




(** The descriptors of a list that the directory [d] does not own. *)
Definition not_owned_by {K} (d : SModelDir) (ms : list (SModelDescriptor K))
    : list (SModelDescriptor K) :=
  List.filter (fun m => negb (String.eqb (dirKey m) (dir_key d))) ms.

(** The position after the directory at index [i] has left the list. *)
Definition shift_position (i : nat) {K} (m : SModelDescriptor K) : SModelDescriptor K :=
  set_position (if Nat.ltb (position m) i then position m else Nat.pred (position m)) m.

(** *** Lookup of solver libraries (lines 85-98)

    [FileSystem::FileName] is the only helper the two functions use. *)
Section SolverLookup.
Context (FileName : path -> path).

Definition GetSolverDescriptor (_fileName : path) (s : CModelsManager) : SSolverDescriptor :=
  let sLibName := FileName _fileName in
  match List.find (fun v => String.eqb (FileName (fileLocation v)) sLibName)
                  (m_availableSolvers s) with
  | None => no_solver
  | Some res => res
  end.

Definition GetSolverLibName (_key : string) (s : CModelsManager) : path :=
  match List.find (fun v => String.eqb (uniqueID v) _key) (m_availableSolvers s) with
  | None => ""
  | Some res => FileName (fileLocation res)
  end.

End SolverLookup.

(** *** Counting what stays open *)

(** What an event adds to the number of times the library [h] is open. *)
Definition library_delta (h : handle) (e : event) : Z :=
  match e with
  | EvLoadLibrary _ h' => if N.eqb h' h then 1 else 0
  | EvCloseLibrary h' => if N.eqb h' h then -1 else 0
  | _ => 0
  end%Z.

(** Loads of [h] minus closes of [h] in a trace. *)
Definition open_count (h : handle) (t : list event) : Z :=
  fold_right (fun e z => (library_delta h e + z)%Z) 0%Z t.

(** Objects constructed minus objects deleted in a trace. *)
Definition object_delta (e : event) : Z :=
  match e with
  | EvConstruct _ => 1
  | EvDelete _ => -1
  | _ => 0
  end%Z.

Definition live_objects (t : list event) : Z :=
  fold_right (fun e z => (object_delta e + z)%Z) 0%Z t.

(** A computation that neither loads nor closes a library, however it ends. *)
Definition library_neutral {A} (c : M A) : Prop :=
  forall s h, open_count h (trace (final (c s))) = open_count h (trace s).

(** A computation that, when it returns, has closed what it loaded. *)
Definition closes_what_it_loads {A} (c : M A) : Prop :=
  forall s a s', c s = Ret a s' ->
    forall h, h <> 0%N -> open_count h (trace s') = open_count h (trace s).

(** A computation that lets no [std::logic_error] out. *)
Definition contains_logic_error {A} (c : M A) : Prop :=
  forall s e s', c s = Raise e s' -> e = other_exception.

(** A computation that returns from every state. *)
Definition always_returns {A} (c : M A) : Prop :=
  forall s, exists a s', c s = Ret a s'.

(** A factory that neither throws anything but [std::logic_error] nor
    returns [nullptr]. *)
Definition tame {O} (create : option (call (option O))) : Prop :=
  match create with
  | Some (throws other_exception) => False
  | Some (returns None) => False
  | _ => True
  end.

Definition tame_plugins {E : Env} : Prop :=
  (forall h, tame (os_symbol_unit h DYSSOL_CREATE_MODEL_FUN_NAME)) /\
  (forall h i, tame (os_symbol_solver h (CREATE_SOLVER_FUN_NAMES i))).

(** The addresses of the live instances lie below the next free address. *)
Definition heap_fresh (s : CModelsManager) : Prop :=
  heap_next s <> 0%N /\
  (forall p h, m_loadedUnits s !! p = Some h -> (p < heap_next s)%N) /\
  (forall p h, m_loadedSolvers s !! p = Some h -> (p < heap_next s)%N).

(** How a call of [InstantiateUnit] or [InstantiateSolver] that returns
    [p] has changed the state: either [p] is [nullptr], the map of live
    instances is as before and every library opened has been closed; or
    [p] is a new address, one object more is alive, and the map holds for
    [p] the handle of the library of a descriptor with the key, the one
    library that is open once more than before. *)
Definition instantiate_outcome {E : Env} {K} (loaded : CModelsManager -> gmap N N)
    (descriptors : list (SModelDescriptor K)) (_key : string)
    (s : CModelsManager) (p : ptr) (s' : CModelsManager) : Prop :=
  (p = nullptr /\ loaded s' = loaded s /\ heap_next s' = heap_next s /\
   live_objects (trace s') = live_objects (trace s) /\
   forall h, h <> 0%N -> open_count h (trace s') = open_count h (trace s))
  \/
  (p = heap_next s /\ heap_next s' = N.succ p /\
   live_objects (trace s') = (live_objects (trace s) + 1)%Z /\
   exists u, u ∈ descriptors /\ uniqueID u = _key /\ os_open (fileLocation u) <> 0%N /\
     loaded s' = <[p := os_open (fileLocation u)]> (loaded s) /\
     forall h, h <> 0%N ->
       open_count h (trace s')
       = (open_count h (trace s) + if N.eqb (os_open (fileLocation u)) h then 1 else 0)%Z).

(** The directory entries of [s'] are those of [s] up to their [checked]
    flags, and the live instances are the same. *)
Definition entries_kept (s s' : CModelsManager) : Prop :=
  map dir_key (m_dirsList s') = map dir_key (m_dirsList s) /\
  map dir_path (m_dirsList s') = map dir_path (m_dirsList s) /\
  map dir_active (m_dirsList s') = map dir_active (m_dirsList s) /\
  m_loadedUnits s' = m_loadedUnits s /\
  m_loadedSolvers s' = m_loadedSolvers s.

(** A computation that keeps the entries however it ends. *)
Definition keeps_entries {A} (c : M A) : Prop :=
  forall s, entries_kept s (final (c s)).

(** *** Plug-ins that behave *)

(** The libraries of [Demo] without the two whose unit factory throws or
    returns [nullptr], and one more, "/models/F/two.so", that exports the
    factories of two solver types: the first creates a solver built with
    another compiler, the second one of the host's. *)
Module Tidy.

Definition pbm : CExternalSolver :=
  mkSolver Demo.host_version (returns "5A3F0C7E9D11") (returns "PBM") (returns "SPE TUHH")
           (returns 1%N) (returns 2).

Definition open_file (f : path) : handle :=
  if String.eqb f "/models/F/two.so" then 20%N else Demo.open_file f.

Definition symbol_unit (h : handle) (sym : string) : option CreateUnit :=
  if N.eqb h 17 || N.eqb h 19 then None else Demo.symbol_unit h sym.

Definition symbol_solver (h : handle) (sym : string) : option CreateExternalSolver :=
  if N.eqb h 20 then
    if String.eqb sym (Demo.solver_symbol 1) then Some (returns (Some Demo.foreign_solver))
    else if String.eqb sym (Demo.solver_symbol 2) then Some (returns (Some pbm))
    else None
  else Demo.symbol_solver h sym.

Definition files (d : path) : list path :=
  if String.eqb d "/models/F" then ["/models/F/two.so"] else Demo.files d.

Definition env : Env :=
  {| COMPILER_VERSION := Demo.host_version;
     DYSSOL_CREATE_MODEL_FUN_NAME := Demo.unit_symbol;
     CREATE_SOLVER_FUN_NAMES := Demo.solver_symbol;
     SOLVERS_TYPES_NUMBER := 2;
     GenerateUniqueString := Demo.unique_string;
     UnifyPath := fun f => f;
     AbsolutePath := fun f => f;
     ExecutableDirPath := "/opt/dyssol";
     FilesList := files;
     os_open := open_file;
     os_symbol_unit := symbol_unit;
     os_symbol_solver := symbol_solver;
     descriptor_bool := Demo.has_id;
     std_sort := Demo.keeping_sort |}.

(** The last component of a path, for [FileSystem::FileName]. *)
Fixpoint has_slash (p : string) : bool :=
  match p with
  | EmptyString => false
  | String c rest => Ascii.eqb c (Ascii.ascii_of_nat 47) || has_slash rest
  end.

Fixpoint file_name (p : string) : string :=
  match p with
  | EmptyString => EmptyString
  | String c rest => if has_slash (String c rest) then file_name rest else String c rest
  end.

(** The manager after [AddDir("/models/B", true)] and
    [AddDir("/models/F", true)]. *)
Definition solver_dirs : CModelsManager :=
  final ((@AddDir env "/models/B" true ;; @AddDir env "/models/F" true) new_manager).

(** The descriptor of the solver of "/models/F/two.so". *)
Definition pbm_descriptor : SSolverDescriptor :=
  mkDescriptor "5A3F0C7E9D11" "PBM" "SPE TUHH" 1%N "/models/F/two.so" "kk" 1 2.

End Tidy.

(** *** Where a listed descriptor comes from *)

(** The descriptor [d] is what the library file [f] yields as a unit: the
    file loads, its unit factory returns an instance of the host's compiler
    version, and [d] holds what the accessors of the instance return. *)
Definition unit_of_file {E : Env} (f : path) (d : SUnitDescriptor) : Prop :=
  os_open f <> 0%N /\
  fileLocation d = UnifyPath f /\
  exists u, os_symbol_unit (os_open f) DYSSOL_CREATE_MODEL_FUN_NAME = Some (returns (Some u)) /\
            unit_nCompilerVer u = COMPILER_VERSION /\
            d = describe_unit f u.

(** The same for a solver, created by the factory of one of the solver
    types. *)
Definition solver_of_file {E : Env} (f : path) (d : SSolverDescriptor) : Prop :=
  os_open f <> 0%N /\
  fileLocation d = UnifyPath f /\
  exists i v, 1 <= i <= SOLVERS_TYPES_NUMBER /\
              os_symbol_solver (os_open f) (CREATE_SOLVER_FUN_NAMES i) = Some (returns (Some v)) /\
              solver_nCompilerVer v = COMPILER_VERSION /\
              describe_solver f v = Some d.

(** *** Sessions *)

(** A computation after which the states are related by [R], however it
    ends. *)
Definition preserves (R : CModelsManager -> CModelsManager -> Prop) {A} (c : M A) : Prop :=
  forall s, R s (final (c s)).

(** Addresses are never given out twice: the next free one only grows. *)
Definition heap_le (s s' : CModelsManager) : Prop :=
  (heap_next s <= heap_next s')%N.

(** The live instances and the libraries they hold are the same. *)
Definition instances_kept (s s' : CModelsManager) : Prop :=
  m_loadedUnits s' = m_loadedUnits s /\
  m_loadedSolvers s' = m_loadedSolvers s /\
  heap_le s s' /\
  forall h, h <> 0%N -> open_count h (trace s') = open_count h (trace s).

(** A call of a public member function that changes the manager. *)
Inductive member_call : Type :=
| CallAddDir (f : path) (a : bool)
| CallRemoveDir (i : nat)
| CallUpDir (i : nat)
| CallDownDir (i : nat)
| CallSetDirActivity (i : nat) (a : bool)
| CallClear
| CallInstantiateUnit (k : string)
| CallInstantiateSolver (k : string)
| CallFreeUnit (p : ptr)
| CallFreeSolver (p : ptr).

Definition perform {E : Env} (c : member_call) : M unit :=
  match c with
  | CallAddDir f a => AddDir f a ;; ret tt
  | CallRemoveDir i => RemoveDir i ;; ret tt
  | CallUpDir i => UpDir i ;; ret tt
  | CallDownDir i => DownDir i ;; ret tt
  | CallSetDirActivity i a => SetDirActivity i a
  | CallClear => Clear
  | CallInstantiateUnit k => InstantiateUnit k ;; ret tt
  | CallInstantiateSolver k => InstantiateSolver k ;; ret tt
  | CallFreeUnit p => FreeUnit p
  | CallFreeSolver p => FreeSolver p
  end.

(** The calls of a client, one after the other, as long as they return. *)
Definition session {E : Env} (calls : list member_call) : M unit :=
  for_each calls perform.

(** The number of live instances of a map that hold the library [h]. *)
Definition instances_of (h : handle) (m : gmap N N) : Z :=
  Z.of_nat (length (List.filter (fun x => N.eqb (snd x) h) (map_to_list m))).

(** Every library is open as many times as live instances hold it. *)
Definition handles_accounted (s : CModelsManager) : Prop :=
  forall h, h <> 0%N ->
    open_count h (trace s)
    = (instances_of h (m_loadedUnits s) + instances_of h (m_loadedSolvers s))%Z.

(** No address is recorded for two live instances: none is the address of
    a unit and of a solver at once, and [nullptr] is the address of none. *)
Definition addresses_distinct (s : CModelsManager) : Prop :=
  m_loadedUnits s ##ₘ m_loadedSolvers s /\
  m_loadedUnits s !! nullptr = None /\
  m_loadedSolvers s !! nullptr = None.

(** What a scan lists for the files of a directory, in their order: every
    file gives nothing, or one unit, or - only when it gives no unit - one
    solver. *)
Inductive lists_of_files {E : Env}
    : list path -> list SUnitDescriptor -> list SSolverDescriptor -> Prop :=
| files_done : lists_of_files [] [] []
| file_skipped f fs us vs :
    lists_of_files fs us vs -> lists_of_files (f :: fs) us vs
| file_unit f fs u us vs :
    unit_of_file f u -> lists_of_files fs us vs -> lists_of_files (f :: fs) (u :: us) vs
| file_solver f fs v us vs :
    solver_of_file f v ->
    (forall u, unit_of_file f u -> descriptor_bool _ u = false) ->
    lists_of_files fs us vs -> lists_of_files (f :: fs) us (v :: vs).

(** *** The loop of the reconciliation, taken apart *)

(** Lines 217-228: what the loop of lines 214-229 does with the directory
    [dir] at index [i] when the guard of line 215 holds. *)
Definition rescan {E : Env} (i : nat) (dir : SModelDir) : M unit :=
  do models <- GetModelsList (dir_path dir);
  let units := map (set_dirKey (dir_key dir)) (fst models) in
  let solvers := map (set_dirKey (dir_key dir)) (snd models) in
  modify (fun s => with_units (m_availableUnits s ++ units) s) ;;
  modify (fun s => with_solvers (m_availableSolvers s ++ solvers) s) ;;
  modify (fun s => with_dirs (<[i := set_checked true dir]> (m_dirsList s)) s).

(** [UpdateAvailableModels] with [scans] in the place of the loop of lines
    214-229. *)
Definition reconcile_with {E : Env} (scans : CModelsManager -> M unit) : M unit :=
  modify (fun s => with_units (VectorDelete (m_availableUnits s) (IsToDelete (m_dirsList s))) s) ;;
  modify (fun s => with_solvers (VectorDelete (m_availableSolvers s) (IsToDelete (m_dirsList s))) s) ;;
  do s <- get;
  scans s ;;
  modify (fun s => fold_left reposition_step (seq 0 (length (m_dirsList s))) s) ;;
  modify (fun s => with_units (std_sort _ (m_availableUnits s)) s) ;;
  modify (fun s => with_solvers (std_sort _ (m_availableSolvers s)) s).

(** ** Proofs *)

Section Properties.
Context {E : Env}.

(** *** The monad *)

Lemma bind_Ret {A B} (c : M A) (k : A -> M B) s a s' :
  c s = Ret a s' -> bind c k s = k a s'.
Proof. intros H. unfold bind. now rewrite H. Qed.

Lemma bind_inv {A B} (c : M A) (k : A -> M B) s b s2 :
  bind c k s = Ret b s2 -> exists a s1, c s = Ret a s1 /\ k a s1 = Ret b s2.
Proof.
  unfold bind. destruct (c s) as [a s1|e s1|s1]; intros H; try discriminate.
  exists a, s1. split; [reflexivity | exact H].
Qed.

Lemma same_members_refl s : same_members s s.
Proof. repeat split. Qed.

Lemma same_members_trans s1 s2 s3 :
  same_members s1 s2 -> same_members s2 s3 -> same_members s1 s3.
Proof.
  unfold same_members. intros (a1 & a2 & a3 & a4 & a5) (b1 & b2 & b3 & b4 & b5).
  repeat split; congruence.
Qed.

Lemma probing_ret {A} (a : A) : probing (ret a).
Proof. intros s. apply same_members_refl. Qed.

Lemma probing_bind {A B} (c : M A) (k : A -> M B) :
  probing c -> (forall a, probing (k a)) -> probing (bind c k).
Proof.
  intros Hc Hk s. unfold bind. specialize (Hc s).
  destruct (c s) as [a s1|e s1|s1]; simpl in *; try assumption.
  eapply same_members_trans; [exact Hc | apply Hk].
Qed.

Lemma probing_log e : probing (modify (log e)).
Proof. intros s. repeat split. Qed.

Lemma probing_LoadDyssolLibrary f : probing (LoadDyssolLibrary f).
Proof. intros s. repeat split. Qed.

Lemma probing_CloseDyssolLibrary h : probing (CloseDyssolLibrary h).
Proof. apply probing_log. Qed.

Lemma probing_construct {O} (create : call (option O)) : probing (construct create).
Proof. intros s. unfold construct. destruct create as [[o|]|e]; repeat split. Qed.

Lemma probing_delete_object p : probing (delete_object p).
Proof.
  unfold delete_object. destruct (N.eqb p nullptr); [apply probing_ret | apply probing_log].
Qed.

Lemma probing_try_catch {A} (c : M A) : probing c -> probing (try_catch_logic_error c).
Proof.
  intros Hc s. unfold try_catch_logic_error. specialize (Hc s).
  destruct (c s) as [a s1|[] s1|s1]; exact Hc.
Qed.

Lemma probing_null_deref {A} : probing (@null_deref A).
Proof. intros s. apply same_members_refl. Qed.

Lemma probing_fold_for {A S} (l : list A) (body : A -> S -> M S) acc :
  (forall x a, probing (body x a)) -> probing (fold_for l body acc).
Proof.
  intros Hb. revert acc. induction l as [|x l IH]; intros acc; simpl.
  - apply probing_ret.
  - apply probing_bind; [apply Hb | intros a; apply IH].
Qed.

Create HintDb probing.
#[local] Hint Resolve probing_ret probing_log probing_LoadDyssolLibrary
  probing_CloseDyssolLibrary probing_construct probing_delete_object
  probing_try_catch probing_null_deref : probing.

Lemma probing_TryGetUnitDescriptor f lib : probing (TryGetUnitDescriptor f lib).
Proof.
  unfold TryGetUnitDescriptor.
  destruct (os_symbol_unit lib DYSSOL_CREATE_MODEL_FUN_NAME) as [create|]; auto with probing.
  apply probing_bind; auto with probing.
  intros [[[p u]|]|]; auto with probing.
  destruct (negb _); apply probing_bind; auto with probing.
Qed.

Lemma probing_solver_types_loop f lib types d p :
  probing (solver_types_loop f lib types d p).
Proof.
  revert d p. induction types as [|i rest IH]; intros d p; simpl; auto with probing.
  destruct (os_symbol_solver lib (CREATE_SOLVER_FUN_NAMES i)) as [create|]; auto.
  apply probing_bind; auto with probing.
  intros [[[q v]|]|]; auto with probing.
  destruct (negb _); auto.
  destruct (describe_solver f v); auto with probing.
Qed.

Lemma probing_TryGetSolverDescriptor f lib : probing (TryGetSolverDescriptor f lib).
Proof.
  unfold TryGetSolverDescriptor.
  apply probing_bind; [apply probing_solver_types_loop |].
  intros r. apply probing_bind; auto with probing.
Qed.

Lemma probing_GetAllModelsInDir d : probing (GetAllModelsInDir d).
Proof.
  unfold GetAllModelsInDir. apply probing_fold_for. intros f res.
  apply probing_bind; auto with probing. intros lib.
  destruct (N.eqb lib 0); auto with probing.
  apply probing_bind; [apply probing_TryGetUnitDescriptor |]. intros u.
  apply probing_bind.
  - destruct (descriptor_bool _ u); auto with probing.
    apply probing_bind; [apply probing_TryGetSolverDescriptor |]. intros v.
    destruct (descriptor_bool _ v); auto with probing.
  - intros r. apply probing_bind; auto with probing.
Qed.

Lemma probing_GetModelsList d : probing (GetModelsList d).
Proof.
  unfold GetModelsList. apply probing_bind; [apply probing_GetAllModelsInDir |].
  intros [[|u us] [|v vs]]; auto with probing; apply probing_GetAllModelsInDir.
Qed.

(** *** Lists *)

Lemma map_fmap {A B} (f : A -> B) (l : list A) : map f l = f <$> l.
Proof. induction l as [|x l IH]; simpl; [reflexivity | now rewrite IH]. Qed.

Lemma lookup_map {A B} (f : A -> B) (l : list A) i : map f l !! i = f <$> l !! i.
Proof. rewrite map_fmap. apply list_lookup_fmap. Qed.

(** *** The loop over the directories *)

Lemma for_each_seq_inv (I : nat -> CModelsManager -> Prop) (body : nat -> M unit) m :
  forall k s s',
    I k s ->
    (forall j s1 s2, k <= j < k + m -> I j s1 -> body j s1 = Ret tt s2 -> I (S j) s2) ->
    for_each (seq k m) body s = Ret tt s' ->
    I (k + m) s'.
Proof.
  induction m as [|m IH]; intros k s s' HI Hstep Hrun; simpl in Hrun.
  - injection Hrun as <-. now rewrite Nat.add_0_r.
  - apply bind_inv in Hrun as ([] & s1 & H1 & H2).
    replace (k + S m) with (S k + m) by lia.
    eapply IH; [| | exact H2].
    + eapply Hstep; [| exact HI | exact H1]. lia.
    + intros j sa sb Hj. apply Hstep. lia.
Qed.

Lemma scan_dir_Ret i s s' :
  scan_dir i s = Ret tt s' ->
  match m_dirsList s !! i with
  | Some d =>
      if pending d then
        m_dirsList s' = <[i := set_checked true d]> (m_dirsList s) /\
        (exists found, m_availableUnits s' = m_availableUnits s ++ found /\
                       Forall (fun u => dirKey u = dir_key d) found) /\
        (exists found, m_availableSolvers s' = m_availableSolvers s ++ found /\
                       Forall (fun v => dirKey v = dir_key d) found)
      else s' = s
  | None => s' = s
  end.
Proof.
  unfold scan_dir, bind, get. destruct (m_dirsList s !! i) as [d|] eqn:Hd.
  2: { unfold ret. now intros [= <-]. }
  unfold pending. destruct (dir_active d && negb (dir_checked d)).
  2: { unfold ret. now intros [= <-]. }
  pose proof (probing_GetModelsList (dir_path d) s) as Hp.
  destruct (GetModelsList (dir_path d) s) as [[us vs] s1|e s1|s1]; try discriminate.
  destruct Hp as (Hd1 & Hu1 & Hv1 & _). simpl in *.
  unfold modify. intros [= <-]. simpl. rewrite Hd1, Hu1, Hv1.
  split; [reflexivity |]. split.
  - eexists. split; [reflexivity |].
    rewrite map_fmap. apply Forall_fmap, Forall_true. reflexivity.
  - eexists. split; [reflexivity |].
    rewrite map_fmap. apply Forall_fmap, Forall_true. reflexivity.
Qed.

Lemma scan_dir_settled i s :
  match m_dirsList s !! i with Some d => pending d = false | None => True end ->
  scan_dir i s = Ret tt s.
Proof.
  unfold scan_dir, bind, get. destruct (m_dirsList s !! i) as [d|]; [| reflexivity].
  unfold pending. now intros ->.
Qed.

Lemma reposition_step_members s i :
  m_dirsList (reposition_step s i) = m_dirsList s /\
  m_availableUnits (reposition_step s i)
    = map (fun m => reposition_at (m_dirsList s) m i) (m_availableUnits s) /\
  m_availableSolvers (reposition_step s i)
    = map (fun m => reposition_at (m_dirsList s) m i) (m_availableSolvers s).
Proof.
  unfold reposition_step, reposition_at, reposition.
  destruct (m_dirsList s !! i) as [d|]; simpl.
  - repeat split.
  - rewrite !map_id. repeat split.
Qed.

Lemma reposition_steps idx :
  forall s,
    fold_left reposition_step idx s =
    with_solvers (map (fun m => fold_left (reposition_at (m_dirsList s)) idx m)
                      (m_availableSolvers s))
      (with_units (map (fun m => fold_left (reposition_at (m_dirsList s)) idx m)
                       (m_availableUnits s)) s).
Proof.
  induction idx as [|i idx IH]; intros s; simpl.
  - rewrite !map_id. now destruct s.
  - rewrite IH. destruct (reposition_step_members s i) as (Hd & Hu & Hv).
    rewrite Hd, Hu, Hv, !map_map.
    unfold reposition_step. destruct (m_dirsList s !! i); reflexivity.
Qed.

Lemma UpdateAvailableModels_unfold s :
  UpdateAvailableModels s =
  match for_each (seq 0 (length (m_dirsList s))) scan_dir (drop_orphans s) with
  | Ret _ s2 => Ret tt (sort_models s2)
  | Raise e s2 => Raise e s2
  | NullDeref s2 => NullDeref s2
  end.
Proof.
  unfold UpdateAvailableModels, bind, modify, get. simpl. fold (drop_orphans s).
  destruct (for_each _ _ _) as [[] s2|e s2|s2]; try reflexivity.
  rewrite reposition_steps. reflexivity.
Qed.

(** *** Directory entries *)

Lemma mark_scanned_key d : dir_key (mark_scanned d) = dir_key d.
Proof. unfold mark_scanned. now destruct (pending d). Qed.

Lemma mark_scanned_active d : dir_active (mark_scanned d) = dir_active d.
Proof. unfold mark_scanned. now destruct (pending d). Qed.

Lemma mark_scanned_settled d : pending (mark_scanned d) = false.
Proof.
  unfold mark_scanned. destruct (pending d) eqn:Hp; [| exact Hp].
  unfold pending. simpl. now rewrite andb_false_r.
Qed.

Lemma mark_scanned_id d : pending d = false -> mark_scanned d = d.
Proof. unfold mark_scanned. now intros ->. Qed.

Lemma map_mark_scanned_keys dirs :
  map dir_key (map mark_scanned dirs) = map dir_key dirs.
Proof. rewrite map_map. apply map_ext. intros d. apply mark_scanned_key. Qed.

Lemma active_key_mark_scanned dirs k :
  active_key dirs k <-> active_key (map mark_scanned dirs) k.
Proof.
  unfold active_key. rewrite map_fmap. split.
  - intros (d & Hd & Ha & Hk). exists (mark_scanned d).
    rewrite mark_scanned_key, mark_scanned_active.
    split; [| easy]. apply list_elem_of_fmap. eauto.
  - intros (d' & Hd & Ha & Hk). apply list_elem_of_fmap in Hd as (d & -> & Hd).
    rewrite mark_scanned_key in Hk. rewrite mark_scanned_active in Ha. eauto.
Qed.

Lemma IsToDelete_false {K} dirs (m : SModelDescriptor K) :
  IsToDelete dirs m = false <-> active_key dirs (dirKey m).
Proof.
  unfold IsToDelete, active_key. rewrite negb_false_iff, existsb_exists.
  split.
  - intros (d & Hd & Hc). apply andb_true_iff in Hc as (Ha & Hk).
    apply String.eqb_eq in Hk. exists d. now rewrite list_elem_of_In.
  - intros (d & Hd & Ha & Hk). exists d. rewrite <- list_elem_of_In.
    split; [exact Hd |]. rewrite Ha. simpl. now apply String.eqb_eq.
Qed.

Lemma VectorDelete_orphans {K} dirs (ms : list (SModelDescriptor K)) :
  Forall (fun m => active_key dirs (dirKey m)) (VectorDelete ms (IsToDelete dirs)).
Proof.
  apply Forall_forall. intros m Hm. unfold VectorDelete in Hm.
  apply list_elem_of_In, filter_In in Hm as (_ & Hm).
  apply negb_true_iff in Hm. now apply IsToDelete_false.
Qed.

(** *** The scanning loop as a whole *)

Lemma scan_loop_Ret s s' :
  for_each (seq 0 (length (m_dirsList s))) scan_dir s = Ret tt s' ->
  m_dirsList s' = map mark_scanned (m_dirsList s) /\
  (exists found, m_availableUnits s' = m_availableUnits s ++ found /\
                 Forall (fun u => active_key (m_dirsList s) (dirKey u)) found) /\
  (exists found, m_availableSolvers s' = m_availableSolvers s ++ found /\
                 Forall (fun v => active_key (m_dirsList s) (dirKey v)) found).
Proof.
  intros Hrun. set (D := m_dirsList s) in *.
  pose (I := fun (k : nat) (st : CModelsManager) =>
    (forall j, m_dirsList st !! j
               = if decide (j < k) then mark_scanned <$> D !! j else D !! j) /\
    (exists found, m_availableUnits st = m_availableUnits s ++ found /\
                   Forall (fun u => active_key D (dirKey u)) found) /\
    (exists found, m_availableSolvers st = m_availableSolvers s ++ found /\
                   Forall (fun v => active_key D (dirKey v)) found)).
  assert (HI : I (0 + length D) s').
  { eapply (for_each_seq_inv I); [| | exact Hrun].
    - split; [intros j; now destruct (decide (j < 0)); [lia |] |].
      split; exists []; rewrite app_nil_r; auto.
    - intros j s1 s2 _ (Hd & (fu & Hu & Hfu) & (fv & Hv & Hfv)) Hstep.
      apply scan_dir_Ret in Hstep.
      assert (Hj : m_dirsList s1 !! j = D !! j).
      { rewrite Hd. destruct (decide (j < j)); [lia | reflexivity]. }
      rewrite Hj in Hstep.
      assert (Hkeep : (forall d, D !! j = Some d -> mark_scanned d = d) ->
                      forall j', m_dirsList s1 !! j'
                        = if decide (j' < S j) then mark_scanned <$> D !! j' else D !! j').
      { intros Hid j'. rewrite Hd.
        destruct (decide (j' < j)), (decide (j' < S j)); try lia; try reflexivity.
        assert (j' = j) as -> by lia.
        destruct (D !! j) as [d|] eqn:HDj; [| reflexivity].
        simpl. now rewrite Hid. }
      destruct (D !! j) as [d|] eqn:HDj.
      2: { subst s2. split; [apply Hkeep; discriminate | split; eauto]. }
      destruct (pending d) eqn:Hp.
      2: { subst s2. split; [| split; eauto].
           apply Hkeep. intros d' [= <-]. now apply mark_scanned_id. }
      destruct Hstep as (Hd2 & (gu & Hu2 & Hgu) & (gv & Hv2 & Hgv)).
      assert (Hact : active_key D (dir_key d)).
      { exists d. split; [eapply list_elem_of_lookup_2; exact HDj |].
        split; [| reflexivity]. unfold pending in Hp.
        now apply andb_true_iff in Hp as (-> & _). }
      split; [| split].
      + intros j'. rewrite Hd2.
        destruct (decide (j' = j)) as [-> | Hne].
        * rewrite list_lookup_insert_eq by (eapply lookup_lt_Some; exact Hj).
          destruct (decide (j < S j)); [| lia].
          rewrite HDj. simpl. unfold mark_scanned. now rewrite Hp.
        * rewrite list_lookup_insert_ne by congruence. rewrite Hd.
          destruct (decide (j' < j)), (decide (j' < S j)); try lia; reflexivity.
      + exists (fu ++ gu). rewrite Hu2, Hu, app_assoc. split; [reflexivity |].
        apply Forall_app. split; [exact Hfu |].
        eapply Forall_impl; [exact Hgu |]. intros u ->. exact Hact.
      + exists (fv ++ gv). rewrite Hv2, Hv, app_assoc. split; [reflexivity |].
        apply Forall_app. split; [exact Hfv |].
        eapply Forall_impl; [exact Hgv |]. intros v ->. exact Hact. }
  destruct HI as (Hd & Hu & Hv). split; [| split; assumption].
  apply list_eq. intros j. rewrite Hd, lookup_map. simpl.
  destruct (decide (j < length D)) as [Hlt | Hge]; [reflexivity |].
  rewrite lookup_ge_None_2 by lia. reflexivity.
Qed.

Lemma scan_loop_settled s :
  Forall (fun d => pending d = false) (m_dirsList s) ->
  for_each (seq 0 (length (m_dirsList s))) scan_dir s = Ret tt s.
Proof.
  intros Hall.
  assert (H : forall m k, for_each (seq k m) scan_dir s = Ret tt s).
  { induction m as [|m IH]; intros k; simpl; [reflexivity |].
    erewrite bind_Ret; [apply IH |]. apply scan_dir_settled.
    destruct (m_dirsList s !! k) as [d|] eqn:Hd; [| exact I].
    eapply Forall_forall in Hall; [exact Hall |].
    eapply list_elem_of_lookup_2; exact Hd. }
  apply H.
Qed.

(** *** Positions *)

Lemma set_position_same {K} (m : SModelDescriptor K) : set_position (position m) m = m.
Proof. now destruct m. Qed.

Lemma set_position_twice {K} i j (m : SModelDescriptor K) :
  set_position i (set_position j m) = set_position i m.
Proof. reflexivity. Qed.

Lemma distinct_keys_index dirs i j d d' :
  NoDup (map dir_key dirs) ->
  dirs !! i = Some d -> dirs !! j = Some d' -> dir_key d = dir_key d' -> i = j.
Proof.
  intros Hnd Hi Hj Hk. eapply NoDup_lookup; [exact Hnd | |].
  - rewrite lookup_map, Hi. reflexivity.
  - rewrite lookup_map, Hj. simpl. now rewrite Hk.
Qed.

Section Reposition.
Context {K : Type} (dirs : list SModelDir) (j : nat) (d : SModelDir).
Hypothesis keys_distinct : NoDup (map dir_key dirs).
Hypothesis at_j : dirs !! j = Some d.

Lemma reposition_at_other (m : SModelDescriptor K) i :
  dirKey m = dir_key d -> i <> j -> reposition_at dirs m i = m.
Proof.
  intros Hk Hne. unfold reposition_at.
  destruct (dirs !! i) as [d'|] eqn:Hi; [| reflexivity].
  destruct (String.eqb (dirKey m) (dir_key d')) eqn:He; [| reflexivity].
  apply String.eqb_eq in He. exfalso. apply Hne.
  eapply distinct_keys_index; eauto. congruence.
Qed.

Lemma reposition_at_owner (m : SModelDescriptor K) :
  dirKey m = dir_key d -> reposition_at dirs m j = set_position j m.
Proof.
  intros Hk. unfold reposition_at. rewrite at_j.
  now rewrite (proj2 (String.eqb_eq _ _) Hk).
Qed.

Lemma reposition_fold_others idx (m : SModelDescriptor K) :
  dirKey m = dir_key d -> j ∉ idx -> fold_left (reposition_at dirs) idx m = m.
Proof.
  induction idx as [|i idx IH]; intros Hk Hj; simpl; [reflexivity |].
  apply not_elem_of_cons in Hj as (Hne & Hj).
  rewrite reposition_at_other; [| exact Hk | congruence].
  apply IH; [exact Hk | exact Hj].
Qed.

Lemma reposition_fold_owner idx (m : SModelDescriptor K) :
  dirKey m = dir_key d -> j ∈ idx ->
  fold_left (reposition_at dirs) idx m = set_position j m.
Proof.
  revert m. induction idx as [|i idx IH]; intros m Hk Hj; simpl; [now apply elem_of_nil in Hj |].
  destruct (decide (i = j)) as [-> | Hne].
  - rewrite reposition_at_owner by exact Hk.
    destruct (decide (j ∈ idx)) as [Hin | Hout].
    + rewrite IH; [apply set_position_twice | exact Hk | exact Hin].
    + apply reposition_fold_others; [exact Hk | exact Hout].
  - rewrite reposition_at_other by (exact Hk || exact Hne).
    apply elem_of_cons in Hj as [Hj | Hj]; [congruence |].
    apply IH; [exact Hk | exact Hj].
Qed.

Lemma reposition_all_owner (m : SModelDescriptor K) :
  dirKey m = dir_key d -> reposition_all dirs m = set_position j m.
Proof.
  intros Hk. apply reposition_fold_owner; [exact Hk |].
  apply elem_of_seq. apply lookup_lt_Some in at_j. lia.
Qed.

End Reposition.

Lemma active_key_lookup dirs k :
  active_key dirs k -> exists j d, dirs !! j = Some d /\ dir_key d = k /\ dir_active d = true.
Proof.
  intros (d & Hd & Ha & Hk). apply list_elem_of_lookup_1 in Hd as (j & Hj). eauto.
Qed.

Lemma reposition_all_positioned {K} dirs (m : SModelDescriptor K) :
  NoDup (map dir_key dirs) -> active_key dirs (dirKey m) ->
  positioned dirs (reposition_all dirs m) /\
  dirKey (reposition_all dirs m) = dirKey m.
Proof.
  intros Hnd Hact. apply active_key_lookup in Hact as (j & d & Hj & Hk & _).
  rewrite (reposition_all_owner dirs j d Hnd Hj) by congruence.
  split; [| reflexivity]. exists d. simpl. split; [exact Hj | exact Hk].
Qed.

Lemma reposition_all_fixed {K} dirs (m : SModelDescriptor K) :
  NoDup (map dir_key dirs) -> positioned dirs m -> reposition_all dirs m = m.
Proof.
  intros Hnd (d & Hj & Hk).
  rewrite (reposition_all_owner dirs _ d Hnd Hj) by congruence.
  apply set_position_same.
Qed.

(** *** The reconciliation as a whole *)

Lemma drop_orphans_dirs s : m_dirsList (drop_orphans s) = m_dirsList s.
Proof. reflexivity. Qed.

Lemma sorted_models_consistent `{!SortContract E} s2 :
  NoDup (map dir_key (m_dirsList s2)) ->
  Forall (fun d => pending d = false) (m_dirsList s2) ->
  Forall (fun u => active_key (m_dirsList s2) (dirKey u)) (m_availableUnits s2) ->
  Forall (fun v => active_key (m_dirsList s2) (dirKey v)) (m_availableSolvers s2) ->
  consistent (sort_models s2).
Proof.
  intros Hnd Hp Hu Hv.
  assert (Hall : forall K (ms : list (SModelDescriptor K)),
    Forall (fun m => active_key (m_dirsList s2) (dirKey m)) ms ->
    Forall (fun m => active_key (m_dirsList s2) (dirKey m) /\ positioned (m_dirsList s2) m)
           (std_sort K (map (reposition_all (m_dirsList s2)) ms))).
  { intros K ms Hms. rewrite std_sort_permutation, map_fmap.
    apply Forall_fmap. eapply Forall_impl; [exact Hms |]. intros m Hm. simpl.
    destruct (reposition_all_positioned _ m Hnd Hm) as (Hpos & ->). now split. }
  specialize (Hall _ _ Hu) as Hu'. specialize (Hall _ _ Hv) as Hv'.
  split; simpl; try assumption.
  - eapply Forall_impl; [exact Hu' |]. now intros u [? ?].
  - eapply Forall_impl; [exact Hv' |]. now intros v [? ?].
  - eapply Forall_impl; [exact Hu' |]. now intros u [? ?].
  - eapply Forall_impl; [exact Hv' |]. now intros v [? ?].
Qed.

Lemma UpdateAvailableModels_Ret `{!SortContract E} s s' :
  NoDup (map dir_key (m_dirsList s)) ->
  UpdateAvailableModels s = Ret tt s' ->
  consistent s' /\ m_dirsList s' = map mark_scanned (m_dirsList s).
Proof.
  intros Hnd Hrun. rewrite UpdateAvailableModels_unfold in Hrun.
  rewrite <- drop_orphans_dirs in Hrun.
  destruct (for_each _ _ _) as [[] s2|e s2|s2] eqn:Hloop; try discriminate.
  injection Hrun as <-.
  apply scan_loop_Ret in Hloop as (Hd & (fu & Hu & Hfu) & (fv & Hv & Hfv)).
  rewrite drop_orphans_dirs in *.
  split; [| exact Hd].
  apply sorted_models_consistent.
  - rewrite Hd, map_mark_scanned_keys. exact Hnd.
  - rewrite Hd, map_fmap. apply Forall_fmap, Forall_true. intros d.
    apply mark_scanned_settled.
  - rewrite Hu, Hd. apply Forall_app. split.
    + eapply Forall_impl; [apply VectorDelete_orphans |].
      intros u. simpl. apply active_key_mark_scanned.
    + eapply Forall_impl; [exact Hfu |]. intros u. apply active_key_mark_scanned.
  - rewrite Hv, Hd. apply Forall_app. split.
    + eapply Forall_impl; [apply VectorDelete_orphans |].
      intros v. simpl. apply active_key_mark_scanned.
    + eapply Forall_impl; [exact Hfv |]. intros v. apply active_key_mark_scanned.
Qed.

Lemma UpdateAvailableModels_settled s :
  Forall (fun d => pending d = false) (m_dirsList s) ->
  UpdateAvailableModels s = Ret tt (sort_models (drop_orphans s)).
Proof.
  intros Hp. rewrite UpdateAvailableModels_unfold.
  rewrite <- drop_orphans_dirs, scan_loop_settled; [reflexivity | exact Hp].
Qed.

Lemma UpdateAvailableModels_dirs s s' :
  UpdateAvailableModels s = Ret tt s' ->
  m_dirsList s' = map mark_scanned (m_dirsList s).
Proof.
  intros Hrun. rewrite UpdateAvailableModels_unfold in Hrun.
  rewrite <- drop_orphans_dirs in Hrun.
  destruct (for_each _ _ _) as [[] s2|e s2|s2] eqn:Hloop; try discriminate.
  injection Hrun as <-. apply scan_loop_Ret in Hloop as (Hd & _). exact Hd.
Qed.

(** *** Directory list operations *)

(** C10: [AddDir] with a path that is already in the directory list returns
    [false] and leaves the whole manager as it was: directory entries with
    their keys and flags, and both descriptor lists. *)
Theorem AddDir_existing_path s _path _active :
  (exists d, d ∈ m_dirsList s /\ dir_path d = _path) ->
  AddDir _path _active s = Ret false s.
Proof.
  intros (d & Hd & Hp). unfold AddDir, bind, get.
  assert (Hex : existsb (fun entry => String.eqb (dir_path entry) _path) (m_dirsList s) = true).
  { apply existsb_exists. exists d. split; [now apply list_elem_of_In |].
    now apply String.eqb_eq. }
  now rewrite Hex.
Qed.

Lemma SetDirActivity_flags_lookup s i a d :
  m_dirsList s !! i = Some d ->
  m_dirsList (SetDirActivity_flags i a s) !! i
  = Some (mkDir (dir_path d) (dir_key d) a (dir_active d || negb a)).
Proof.
  intros Hd. unfold SetDirActivity_flags. rewrite Hd. simpl.
  apply list_lookup_insert_eq. eapply lookup_lt_Some; exact Hd.
Qed.

Lemma SetDirActivity_valid_index s i a d :
  m_dirsList s !! i = Some d ->
  SetDirActivity i a s = UpdateAvailableModels (SetDirActivity_flags i a s).
Proof.
  intros Hd. unfold SetDirActivity, bind, get, modify.
  apply lookup_lt_Some in Hd.
  destruct (Nat.leb_spec (length (m_dirsList s)) i); [lia | reflexivity].
Qed.

Lemma for_each_app {A} (l1 l2 : list A) body s :
  for_each (l1 ++ l2) body s = (for_each l1 body ;; for_each l2 body) s.
Proof.
  revert s. induction l1 as [|a l1 IH]; intros s; simpl; [reflexivity |].
  unfold bind. destruct (body a s) as [[] s1|e s1|s1]; try reflexivity.
  rewrite IH. reflexivity.
Qed.

Lemma bind_ext {A B} (c : M A) (k k' : A -> M B) s :
  (forall a s1, c s = Ret a s1 -> k a s1 = k' a s1) -> bind c k s = bind c k' s.
Proof.
  intros H. unfold bind. destruct (c s) as [a s1|e s1|s1]; [now apply H | reflexivity ..].
Qed.

Lemma scan_dir_other_entry j i s s' :
  scan_dir j s = Ret tt s' -> i <> j -> m_dirsList s' !! i = m_dirsList s !! i.
Proof.
  intros Hrun Hne. apply scan_dir_Ret in Hrun.
  destruct (m_dirsList s !! j) as [d|]; [| now subst].
  destruct (pending d); [| now subst].
  destruct Hrun as (-> & _). now apply list_lookup_insert_ne.
Qed.

Lemma scans_keep_entry l i :
  forall s s', for_each l scan_dir s = Ret tt s' -> i ∉ l ->
               m_dirsList s' !! i = m_dirsList s !! i.
Proof.
  induction l as [|j l IH]; intros s s'; simpl.
  - now intros [= <-].
  - intros Hrun Hi. apply not_elem_of_cons in Hi as (Hne & Hi).
    apply bind_inv in Hrun as ([] & s1 & H1 & H2).
    rewrite (IH _ _ H2 Hi). now apply (scan_dir_other_entry j).
Qed.

Lemma scan_dir_at i d s :
  m_dirsList s !! i = Some d ->
  scan_dir i s = if pending d then rescan i d s else Ret tt s.
Proof.
  intros Hd. unfold scan_dir, rescan, bind at 1, get. rewrite Hd. unfold pending.
  now destruct (dir_active d && negb (dir_checked d)).
Qed.

(** The loop of lines 214-229 around the directory at index [i]. *)
Lemma scan_loop_at i d s :
  m_dirsList s !! i = Some d ->
  for_each (seq 0 (length (m_dirsList s))) scan_dir s
  = (for_each (seq 0 i) scan_dir ;;
     (if pending d then rescan i d else ret tt) ;;
     for_each (seq (S i) (length (m_dirsList s) - S i)) scan_dir) s.
Proof.
  intros Hd. pose proof (lookup_lt_Some _ _ _ Hd) as Hlt.
  replace (length (m_dirsList s)) with (i + S (length (m_dirsList s) - S i)) at 1 by lia.
  rewrite seq_app, for_each_app. simpl.
  apply bind_ext. intros [] s1 Hbefore.
  assert (Hd1 : m_dirsList s1 !! i = Some d).
  { rewrite (scans_keep_entry _ i _ _ Hbefore); [exact Hd |].
    intros Hin. apply elem_of_seq in Hin. lia. }
  unfold bind. rewrite (scan_dir_at i d s1 Hd1).
  now destruct (pending d).
Qed.

Lemma reconcile_with_loop s :
  UpdateAvailableModels s
  = reconcile_with (fun s0 => for_each (seq 0 (length (m_dirsList s0))) scan_dir) s.
Proof. reflexivity. Qed.

Lemma reconcile_with_ext scans scans' s :
  (forall s0, m_dirsList s0 = m_dirsList s -> scans s0 s0 = scans' s0 s0) ->
  reconcile_with scans s = reconcile_with scans' s.
Proof.
  intros Hext. unfold reconcile_with, bind, modify, get. now rewrite Hext.
Qed.

(** C4, as the code has it: [SetDirActivity(i, a)] stores
    [checked = active || !a] and [active = a] and then runs the
    reconciliation on that state.  The stored [checked] is false exactly
    when the directory goes from inactive to active.  Only then is the
    directory scanned again: when the loop of the reconciliation reaches
    it, it scans it in that case and passes over it in every other.  The
    scan sets [checked], so that it is true in every case when the call has
    returned. *)
Theorem SetDirActivity_checked s i a d :
  m_dirsList s !! i = Some d ->
  SetDirActivity i a s = UpdateAvailableModels (SetDirActivity_flags i a s) /\
  (exists d1, m_dirsList (SetDirActivity_flags i a s) !! i = Some d1 /\
              dir_active d1 = a /\
              dir_checked d1 = (dir_active d || negb a) /\
              (dir_checked d1 = false <-> dir_active d = false /\ a = true) /\
              (pending d1 = true <-> dir_active d = false /\ a = true)) /\
  (forall s', SetDirActivity i a s = Ret tt s' ->
              exists d', m_dirsList s' !! i = Some d' /\
                         dir_active d' = a /\ dir_checked d' = true) /\
  (dir_active d = false /\ a = true ->
   SetDirActivity i a s
   = reconcile_with
       (fun s0 => for_each (seq 0 i) scan_dir ;;
                  rescan i (mkDir (dir_path d) (dir_key d) true false) ;;
                  for_each (seq (S i) (length (m_dirsList s0) - S i)) scan_dir)
       (SetDirActivity_flags i a s)) /\
  (~ (dir_active d = false /\ a = true) ->
   SetDirActivity i a s
   = reconcile_with
       (fun s0 => for_each (seq 0 i) scan_dir ;;
                  for_each (seq (S i) (length (m_dirsList s0) - S i)) scan_dir)
       (SetDirActivity_flags i a s)).
Proof.
  intros Hd.
  pose proof (SetDirActivity_valid_index s i a d Hd) as Hcall.
  pose proof (SetDirActivity_flags_lookup s i a d Hd) as Hflags.
  split; [exact Hcall |]. split; [| split; [| split]].
  - eexists. split; [exact Hflags |]. simpl. unfold pending. simpl.
    destruct (dir_active d), a; simpl; intuition (reflexivity || discriminate).
  - intros s' Hrun. rewrite Hcall in Hrun. apply UpdateAvailableModels_dirs in Hrun.
    rewrite Hrun, lookup_map, Hflags. simpl. eexists. split; [reflexivity |].
    rewrite mark_scanned_active. split; [reflexivity |].
    unfold mark_scanned, pending. simpl.
    destruct (dir_active d), a; reflexivity.
  - intros (Hoff & ->). rewrite Hcall, reconcile_with_loop.
    apply reconcile_with_ext. intros s0 Hs0. rewrite <- Hs0 in Hflags.
    rewrite (scan_loop_at i _ s0 Hflags). rewrite Hoff. reflexivity.
  - intros Hother. rewrite Hcall, reconcile_with_loop.
    apply reconcile_with_ext. intros s0 Hs0. rewrite <- Hs0 in Hflags.
    rewrite (scan_loop_at i _ s0 Hflags). unfold pending. simpl.
    destruct (dir_active d), a; simpl; try reflexivity. exfalso. now apply Hother.
Qed.

(** *** Freeing instances *)

Lemma delete_object_live p s :
  p <> nullptr -> delete_object p s = Ret tt (log (EvDelete p) s).
Proof.
  intros Hp. unfold delete_object.
  destruct (N.eqb_spec p nullptr); [contradiction | reflexivity].
Qed.

(** C6: [FreeUnit] and [FreeSolver] change nothing for [nullptr] and for a
    pointer that is not in the map of live instances; for a known pointer
    they erase the map entry, destroy the instance and close its library, in
    this order, and a second call with the same pointer changes nothing. *)
Theorem FreeUnit_FreeSolver_order s p :
  ((p = nullptr \/ m_loadedUnits s !! p = None) -> FreeUnit p s = Ret tt s) /\
  ((p = nullptr \/ m_loadedSolvers s !! p = None) -> FreeSolver p s = Ret tt s) /\
  (forall h, p <> nullptr -> m_loadedUnits s !! p = Some h ->
     let s' := mkManager (m_dirsList s) (m_availableUnits s) (m_availableSolvers s)
                 (delete p (m_loadedUnits s)) (m_loadedSolvers s) (heap_next s)
                 (trace s ++ [EvEraseUnit p; EvDelete p; EvCloseLibrary h]) in
     FreeUnit p s = Ret tt s' /\ FreeUnit p s' = Ret tt s') /\
  (forall h, p <> nullptr -> m_loadedSolvers s !! p = Some h ->
     let s' := mkManager (m_dirsList s) (m_availableUnits s) (m_availableSolvers s)
                 (m_loadedUnits s) (delete p (m_loadedSolvers s)) (heap_next s)
                 (trace s ++ [EvEraseSolver p; EvDelete p; EvCloseLibrary h]) in
     FreeSolver p s = Ret tt s' /\ FreeSolver p s' = Ret tt s').
Proof.
  split; [| split; [| split]].
  - intros [-> | Hp]; [reflexivity |]. unfold FreeUnit, bind, get.
    destruct (N.eqb p nullptr); [reflexivity |]. now rewrite Hp.
  - intros [-> | Hp]; [reflexivity |]. unfold FreeSolver, bind, get.
    destruct (N.eqb p nullptr); [reflexivity |]. now rewrite Hp.
  - intros h Hp Hh s'. split.
    + unfold FreeUnit, bind, get.
      destruct (N.eqb_spec p nullptr); [contradiction |]. rewrite Hh.
      unfold modify. rewrite delete_object_live by assumption.
      unfold CloseDyssolLibrary, modify, log. simpl.
      now rewrite <- !app_assoc.
    + subst s'. unfold FreeUnit, bind, get.
      destruct (N.eqb p nullptr); [reflexivity |].
      simpl (m_loadedUnits (mkManager _ _ _ _ _ _ _)). now rewrite lookup_delete_eq.
  - intros h Hp Hh s'. split.
    + unfold FreeSolver, bind, get.
      destruct (N.eqb_spec p nullptr); [contradiction |]. rewrite Hh.
      unfold modify. rewrite delete_object_live by assumption.
      unfold CloseDyssolLibrary, modify, log. simpl.
      now rewrite <- !app_assoc.
    + subst s'. unfold FreeSolver, bind, get.
      destruct (N.eqb p nullptr); [reflexivity |].
      simpl (m_loadedSolvers (mkManager _ _ _ _ _ _ _)). now rewrite lookup_delete_eq.
Qed.

(** *** Probing libraries built with another compiler *)

Lemma delete_object_returns p s : exists s', delete_object p s = Ret tt s'.
Proof. unfold delete_object. destruct (N.eqb p nullptr); eexists; reflexivity. Qed.




Lemma TryGetUnitDescriptor_source f lib s d s' :
  TryGetUnitDescriptor f lib s = Ret d s' ->
  d = no_unit \/
  exists u, os_symbol_unit lib DYSSOL_CREATE_MODEL_FUN_NAME = Some (returns (Some u)) /\
            unit_nCompilerVer u = COMPILER_VERSION /\ d = describe_unit f u.
Proof.
  unfold TryGetUnitDescriptor.
  destruct (os_symbol_unit lib DYSSOL_CREATE_MODEL_FUN_NAME) as [[[u|]|[|]]|];
    unfold bind, try_catch_logic_error, construct; try discriminate;
    try (intros [= <- _]; now left).
  destruct (Z.eqb_spec (unit_nCompilerVer u) COMPILER_VERSION) as [Hver | Hver]; simpl.
  - destruct (delete_object_returns (heap_next s)
                (log (EvConstruct (heap_next s)) (with_heap (N.succ (heap_next s)) s)))
      as (t & ->).
    intros [= <- _]. right. exists u. auto.
  - destruct (delete_object_returns (heap_next s)
                (log (EvConstruct (heap_next s)) (with_heap (N.succ (heap_next s)) s)))
      as (t & ->).
    intros [= <- _]. now left.
Qed.

Lemma solver_types_loop_source f lib types :
  forall d0 p s r s',
    solver_types_loop f lib types d0 p s = Ret r s' ->
    fst r = d0 \/ fst r = no_solver \/
    exists i v, i ∈ types /\
                os_symbol_solver lib (CREATE_SOLVER_FUN_NAMES i) = Some (returns (Some v)) /\
                solver_nCompilerVer v = COMPILER_VERSION /\
                describe_solver f v = Some (fst r).
Proof.
  induction types as [|i rest IH]; intros d0 p s r s'; simpl.
  { intros [= <- _]. now left. }
  assert (Hrest : forall d1 q t,
    (d1 = d0 \/ d1 = no_solver) ->
    solver_types_loop f lib rest d1 q t = Ret r s' ->
    fst r = d0 \/ fst r = no_solver \/
    exists j v, j ∈ i :: rest /\
                os_symbol_solver lib (CREATE_SOLVER_FUN_NAMES j) = Some (returns (Some v)) /\
                solver_nCompilerVer v = COMPILER_VERSION /\
                describe_solver f v = Some (fst r)).
  { intros d1 q t Hd1 Hrun.
    destruct (IH _ _ _ _ _ Hrun) as [H | [H | (j & v & Hj & Hs & Hv & Hd)]].
    - destruct Hd1 as [-> | ->]; auto.
    - auto.
    - right. right. exists j, v. split; [apply elem_of_cons; now right | auto]. }
  destruct (os_symbol_solver lib (CREATE_SOLVER_FUN_NAMES i)) as [[[v|]|[|]]|] eqn:Hsym;
    unfold bind, try_catch_logic_error, construct; try discriminate;
    try (apply Hrest; now left).
  destruct (Z.eqb_spec (solver_nCompilerVer v) COMPILER_VERSION) as [Hver | Hver]; simpl.
  - destruct (describe_solver f v) as [d1|] eqn:Hd; [| apply Hrest; now right].
    intros [= <- _]. right. right. exists i, v.
    split; [apply elem_of_cons; now left | auto].
  - apply Hrest. now left.
Qed.

Lemma TryGetSolverDescriptor_source f lib s d s' :
  TryGetSolverDescriptor f lib s = Ret d s' ->
  d = no_solver \/
  exists i v, 1 <= i <= SOLVERS_TYPES_NUMBER /\
              os_symbol_solver lib (CREATE_SOLVER_FUN_NAMES i) = Some (returns (Some v)) /\
              solver_nCompilerVer v = COMPILER_VERSION /\
              describe_solver f v = Some d.
Proof.
  unfold TryGetSolverDescriptor. unfold bind at 1.
  destruct (solver_types_loop f lib (seq 1 SOLVERS_TYPES_NUMBER) no_solver nullptr s)
    as [r s1|e s1|s1] eqn:Hloop; try discriminate.
  unfold bind. destruct (delete_object_returns (snd r) s1) as (t & ->).
  intros [= <- _].
  destruct (solver_types_loop_source _ _ _ _ _ _ _ _ Hloop)
    as [H | [H | (i & v & Hi & Hs & Hv & Hd)]]; auto.
  right. exists i, v. apply elem_of_seq in Hi. split; [lia | auto].
Qed.



(** *** Order of the descriptor lists *)

Lemma StronglySorted_lookup_lt {A} (R : A -> A -> Prop) l :
  StronglySorted R l ->
  forall i j x y, i < j -> l !! i = Some x -> l !! j = Some y -> R x y.
Proof.
  induction 1 as [|z l Hs IH Hall]; intros i j x y Hij Hi Hj; [discriminate |].
  destruct i as [|i], j as [|j]; try lia; simpl in *.
  - injection Hi as <-. eapply Forall_forall in Hall; [exact Hall |].
    eapply list_elem_of_lookup_2; exact Hj.
  - eapply IH; [| exact Hi | exact Hj]. lia.
Qed.

Lemma sorted_lookup_order {K} (l : list (SModelDescriptor K)) a b u v :
  sorted_by_position l ->
  l !! a = Some u -> l !! b = Some v -> position u < position v -> a < b.
Proof.
  intros Hs Ha Hb Hlt. destruct (Nat.lt_trichotomy a b) as [Hab | [-> | Hba]].
  - exact Hab.
  - rewrite Ha in Hb. injection Hb as <-. lia.
  - pose proof (StronglySorted_lookup_lt _ _ Hs b a v u Hba Hb Ha) as HR.
    unfold descriptor_lt in HR. apply Nat.ltb_ge in HR. lia.
Qed.

Lemma UpdateAvailableModels_sorted `{!SortContract E} s s' :
  UpdateAvailableModels s = Ret tt s' ->
  sorted_by_position (m_availableUnits s') /\ sorted_by_position (m_availableSolvers s').
Proof.
  intros Hrun. rewrite UpdateAvailableModels_unfold in Hrun.
  destruct (for_each _ _ _) as [[] s2|e s2|s2]; try discriminate.
  injection Hrun as <-. split; apply std_sort_sorted.
Qed.

Lemma positioned_owner {K} dirs (m : SModelDescriptor K) i d :
  NoDup (map dir_key dirs) -> positioned dirs m ->
  dirs !! i = Some d -> dirKey m = dir_key d -> position m = i.
Proof.
  intros Hnd (d0 & Hpos & Hk) Hi Hm.
  eapply distinct_keys_index; eauto. congruence.
Qed.

(** C2, as the code has it: after a run of [UpdateAvailableModels] that
    returns, the position of every descriptor is the list index of its
    owning directory and both lists are sorted by position with
    [std::sort], so for two directories A before B all descriptors of A
    come before all descriptors of B.  The order of the descriptors of one
    directory is whatever [std::sort] leaves. *)
Theorem UpdateAvailableModels_directory_order `{!SortContract E} s s' :
  NoDup (map dir_key (m_dirsList s)) ->
  UpdateAvailableModels s = Ret tt s' ->
  Forall (positioned (m_dirsList s')) (GetAvailableUnits s') /\
  Forall (positioned (m_dirsList s')) (GetAvailableSolvers s') /\
  sorted_by_position (GetAvailableUnits s') /\
  sorted_by_position (GetAvailableSolvers s') /\
  forall i j dA dB,
    m_dirsList s' !! i = Some dA -> m_dirsList s' !! j = Some dB -> i < j ->
    (forall a b u v,
       GetAvailableUnits s' !! a = Some u -> GetAvailableUnits s' !! b = Some v ->
       dirKey u = dir_key dA -> dirKey v = dir_key dB -> a < b) /\
    (forall a b u v,
       GetAvailableSolvers s' !! a = Some u -> GetAvailableSolvers s' !! b = Some v ->
       dirKey u = dir_key dA -> dirKey v = dir_key dB -> a < b).
Proof.
  intros Hnd Hrun.
  destruct (UpdateAvailableModels_Ret s s' Hnd Hrun) as ([Hk _ _ _ Hpu Hpv] & _).
  destruct (UpdateAvailableModels_sorted s s' Hrun) as (Hsu & Hsv).
  unfold GetAvailableUnits, GetAvailableSolvers.
  split; [exact Hpu |]. split; [exact Hpv |]. split; [exact Hsu |]. split; [exact Hsv |].
  intros i j dA dB Hi Hj Hij.
  assert (Horder : forall K (l : list (SModelDescriptor K)),
    Forall (positioned (m_dirsList s')) l -> sorted_by_position l ->
    forall a b u v, l !! a = Some u -> l !! b = Some v ->
      dirKey u = dir_key dA -> dirKey v = dir_key dB -> a < b).
  { intros K l Hpos Hs a b u v Ha Hb Hu Hv.
    eapply sorted_lookup_order; [exact Hs | exact Ha | exact Hb |].
    rewrite (positioned_owner _ u i dA Hk); [| eapply Forall_lookup_1; eauto | exact Hi | exact Hu].
    rewrite (positioned_owner _ v j dB Hk); [| eapply Forall_lookup_1; eauto | exact Hj | exact Hv].
    exact Hij. }
  split; [apply (Horder _ _ Hpu Hsu) | apply (Horder _ _ Hpv Hsv)].
Qed.

(** *** A directory leaves: deactivation and removal *)

Lemma orphans_of_directory {K} dirs dirs1 d (ms : list (SModelDescriptor K)) :
  Forall (fun m => active_key dirs (dirKey m)) ms ->
  (forall k, active_key dirs k -> (active_key dirs1 k <-> k <> dir_key d)) ->
  VectorDelete ms (IsToDelete dirs1) = not_owned_by d ms.
Proof.
  intros Hown Hiff. unfold VectorDelete, not_owned_by. apply filter_ext_in.
  intros m Hm. apply list_elem_of_In in Hm.
  eapply Forall_forall in Hown; [| exact Hm]. specialize (Hiff _ Hown).
  f_equal. destruct (String.eqb_spec (dirKey m) (dir_key d)) as [Heq | Hne].
  - destruct (IsToDelete dirs1 m) eqn:Hdel; [reflexivity |].
    apply IsToDelete_false, Hiff in Hdel. contradiction.
  - apply IsToDelete_false, Hiff. exact Hne.
Qed.

Lemma not_owned_by_key {K} d (ms : list (SModelDescriptor K)) m :
  In m (not_owned_by d ms) -> In m ms /\ dirKey m <> dir_key d.
Proof.
  unfold not_owned_by. intros Hm. apply filter_In in Hm as (Hin & Hk).
  split; [exact Hin |]. apply negb_true_iff in Hk.
  now destruct (String.eqb_spec (dirKey m) (dir_key d)).
Qed.

Lemma settled_update `{!SortContract E} dirs1 s :
  Forall (fun d => pending d = false) dirs1 ->
  exists s', UpdateAvailableModels (with_dirs dirs1 s) = Ret tt s' /\
    m_availableUnits s' ≡ₚ map (reposition_all dirs1)
                              (VectorDelete (m_availableUnits s) (IsToDelete dirs1)) /\
    m_availableSolvers s' ≡ₚ map (reposition_all dirs1)
                              (VectorDelete (m_availableSolvers s) (IsToDelete dirs1)).
Proof.
  intros Hp. eexists. split; [apply UpdateAvailableModels_settled, Hp |].
  split; apply std_sort_permutation.
Qed.

Section Leaving.
Context (dirs : list SModelDir) (i : nat) (d : SModelDir).
Hypothesis keys_distinct : NoDup (map dir_key dirs).
Hypothesis at_i : dirs !! i = Some d.

Lemma other_index j d0 : dirs !! j = Some d0 -> dir_key d0 <> dir_key d -> j <> i.
Proof. intros Hj Hk ->. rewrite at_i in Hj. congruence. Qed.

Lemma same_key_index j d0 : dirs !! j = Some d0 -> dir_key d0 = dir_key d -> j = i.
Proof. intros Hj Hk. eapply distinct_keys_index; eauto. Qed.

(** Deactivation: the entry at [i] is replaced by an inactive one with the
    same key. *)
Lemma deactivated_keys d' :
  dir_key d' = dir_key d -> map dir_key (<[i := d']> dirs) = map dir_key dirs.
Proof.
  intros Hk. rewrite !map_fmap, list_fmap_insert, Hk.
  apply list_insert_id. now rewrite list_lookup_fmap, at_i.
Qed.

Lemma deactivated_active_key d' k :
  dir_key d' = dir_key d -> dir_active d' = false ->
  active_key dirs k -> (active_key (<[i := d']> dirs) k <-> k <> dir_key d).
Proof.
  intros Hk Ha Hact. split.
  - intros (d0 & Hd0 & Ha0 & Hk0) ->.
    apply list_elem_of_lookup_1 in Hd0 as (j & Hj).
    destruct (decide (j = i)) as [-> | Hne].
    + rewrite list_lookup_insert_eq in Hj by (eapply lookup_lt_Some; exact at_i).
      congruence.
    + rewrite list_lookup_insert_ne in Hj by congruence.
      apply Hne. eapply same_key_index; eauto.
  - intros Hne. apply active_key_lookup in Hact as (j & d0 & Hj & Hk0 & Ha0).
    exists d0. split; [| now split].
    apply (list_elem_of_lookup_2 _ j). rewrite list_lookup_insert_ne; [exact Hj |].
    intros <-. rewrite at_i in Hj. congruence.
Qed.

Lemma deactivated_positioned {K} d' (m : SModelDescriptor K) :
  positioned dirs m -> dirKey m <> dir_key d -> positioned (<[i := d']> dirs) m.
Proof.
  intros (d0 & Hpos & Hk0) Hne. exists d0. split; [| exact Hk0].
  rewrite list_lookup_insert_ne; [exact Hpos |].
  intros Heq. rewrite <- Heq, at_i in Hpos. congruence.
Qed.

(** Removal: the entry at [i] is erased. *)
Lemma removed_keys : NoDup (map dir_key (delete i dirs)).
Proof.
  rewrite map_fmap, list_fmap_delete, <- map_fmap.
  eapply sublist_NoDup; [exact keys_distinct | apply sublist_delete].
Qed.

Lemma removed_lookup j d0 :
  dirs !! j = Some d0 -> j <> i ->
  delete i dirs !! (if Nat.ltb j i then j else Nat.pred j) = Some d0.
Proof.
  intros Hj Hne. destruct (Nat.ltb_spec j i) as [Hlt | Hge].
  - now rewrite list_lookup_delete_lt.
  - rewrite list_lookup_delete_ge by lia.
    replace (S (Nat.pred j)) with j by lia. exact Hj.
Qed.

Lemma removed_active_key k :
  active_key dirs k -> (active_key (delete i dirs) k <-> k <> dir_key d).
Proof.
  intros Hact. split.
  - intros (d0 & Hd0 & Ha0 & Hk0) ->.
    apply list_elem_of_lookup_1 in Hd0 as (j & Hj).
    destruct (Nat.ltb_spec j i) as [Hlt | Hge].
    + rewrite list_lookup_delete_lt in Hj by exact Hlt.
      pose proof (same_key_index _ _ Hj Hk0). lia.
    + rewrite list_lookup_delete_ge in Hj by exact Hge.
      pose proof (same_key_index _ _ Hj Hk0). lia.
  - intros Hne. apply active_key_lookup in Hact as (j & d0 & Hj & Hk0 & Ha0).
    exists d0. split; [| now split].
    eapply list_elem_of_lookup_2, removed_lookup; [exact Hj |].
    eapply other_index; [exact Hj | congruence].
Qed.

Lemma removed_reposition {K} (m : SModelDescriptor K) :
  positioned dirs m -> dirKey m <> dir_key d ->
  reposition_all (delete i dirs) m = shift_position i m.
Proof.
  intros (d0 & Hpos & Hk0) Hne. unfold shift_position.
  eapply reposition_all_owner; [apply removed_keys | | symmetry; exact Hk0].
  apply removed_lookup; [exact Hpos |].
  eapply other_index; [exact Hpos | congruence].
Qed.

End Leaving.

Lemma deactivate_directory `{!SortContract E} s i d :
  consistent s -> m_dirsList s !! i = Some d ->
  exists s', SetDirActivity i false s = Ret tt s' /\
    GetAvailableUnits s' ≡ₚ not_owned_by d (GetAvailableUnits s) /\
    GetAvailableSolvers s' ≡ₚ not_owned_by d (GetAvailableSolvers s).
Proof.
  intros [Hk Hp Hou Hov Hpu Hpv] Hd.
  rewrite (SetDirActivity_valid_index s i false d Hd).
  set (d' := mkDir (dir_path d) (dir_key d) false (dir_active d || negb false)).
  assert (Hs1 : SetDirActivity_flags i false s = with_dirs (<[i := d']> (m_dirsList s)) s).
  { unfold SetDirActivity_flags. now rewrite Hd. }
  rewrite Hs1.
  destruct (settled_update (<[i := d']> (m_dirsList s)) s) as (s' & Hrun & Hu & Hv).
  { apply Forall_insert; [exact Hp |]. reflexivity. }
  exists s'. split; [exact Hrun |].
  unfold GetAvailableUnits, GetAvailableSolvers.
  assert (Hlist : forall K (ms : list (SModelDescriptor K)),
    Forall (fun m => active_key (m_dirsList s) (dirKey m)) ms ->
    Forall (positioned (m_dirsList s)) ms ->
    map (reposition_all (<[i := d']> (m_dirsList s)))
        (VectorDelete ms (IsToDelete (<[i := d']> (m_dirsList s)))) = not_owned_by d ms).
  { intros K ms Hown Hpos.
    rewrite (orphans_of_directory (m_dirsList s) _ d ms Hown).
    2: { intros k. now apply deactivated_active_key. }
    rewrite <- (map_id (not_owned_by d ms)) at 2. apply map_ext_in.
    intros m Hm. apply not_owned_by_key in Hm as (Hin & Hne).
    apply reposition_all_fixed.
    - now rewrite (deactivated_keys _ i d Hd).
    - apply deactivated_positioned with (d := d); [exact Hd | | exact Hne].
      eapply Forall_forall in Hpos; [exact Hpos |]. now apply list_elem_of_In. }
  rewrite Hu, Hv, (Hlist _ _ Hou Hpu), (Hlist _ _ Hov Hpv). split; reflexivity.
Qed.

Lemma remove_directory `{!SortContract E} s i d :
  consistent s -> m_dirsList s !! i = Some d ->
  exists s', RemoveDir i s = Ret true s' /\
    GetAvailableUnits s' ≡ₚ map (shift_position i) (not_owned_by d (GetAvailableUnits s)) /\
    GetAvailableSolvers s' ≡ₚ map (shift_position i) (not_owned_by d (GetAvailableSolvers s)).
Proof.
  intros [Hk Hp Hou Hov Hpu Hpv] Hd.
  destruct (settled_update (delete i (m_dirsList s)) s) as (s' & Hrun & Hu & Hv).
  { apply Forall_delete, Hp. }
  exists s'. split.
  { unfold RemoveDir, bind, get, modify.
    pose proof (lookup_lt_Some _ _ _ Hd).
    destruct (Nat.leb_spec (length (m_dirsList s)) i); [lia |]. now rewrite Hrun. }
  unfold GetAvailableUnits, GetAvailableSolvers.
  assert (Hlist : forall K (ms : list (SModelDescriptor K)),
    Forall (fun m => active_key (m_dirsList s) (dirKey m)) ms ->
    Forall (positioned (m_dirsList s)) ms ->
    map (reposition_all (delete i (m_dirsList s)))
        (VectorDelete ms (IsToDelete (delete i (m_dirsList s))))
    = map (shift_position i) (not_owned_by d ms)).
  { intros K ms Hown Hpos.
    rewrite (orphans_of_directory (m_dirsList s) _ d ms Hown).
    2: { intros k. now apply removed_active_key. }
    apply map_ext_in. intros m Hm. apply not_owned_by_key in Hm as (Hin & Hne).
    apply removed_reposition with (d := d); [exact Hk | exact Hd | | exact Hne].
    eapply Forall_forall in Hpos; [exact Hpos |]. now apply list_elem_of_In. }
  rewrite Hu, Hv, (Hlist _ _ Hou Hpu), (Hlist _ _ Hov Hpv). split; reflexivity.
Qed.

(** C5, as the code has it: after a run of [UpdateAvailableModels] that
    returns, every cached unit and solver descriptor is owned by an active
    directory.  Deactivating a directory then removes exactly the
    descriptors it owns and leaves the others as they are; removing a
    directory removes exactly the descriptors it owns and leaves the others
    as they are except for [position], which becomes the new index of the
    owning directory. *)
Theorem descriptors_follow_directories `{!SortContract E} s0 s :
  NoDup (map dir_key (m_dirsList s0)) ->
  UpdateAvailableModels s0 = Ret tt s ->
  (Forall (fun u => active_key (m_dirsList s) (dirKey u)) (GetAvailableUnits s) /\
   Forall (fun v => active_key (m_dirsList s) (dirKey v)) (GetAvailableSolvers s)) /\
  forall i d, m_dirsList s !! i = Some d ->
    (exists s', SetDirActivity i false s = Ret tt s' /\
       GetAvailableUnits s' ≡ₚ not_owned_by d (GetAvailableUnits s) /\
       GetAvailableSolvers s' ≡ₚ not_owned_by d (GetAvailableSolvers s)) /\
    (exists s', RemoveDir i s = Ret true s' /\
       GetAvailableUnits s' ≡ₚ map (shift_position i) (not_owned_by d (GetAvailableUnits s)) /\
       GetAvailableSolvers s' ≡ₚ map (shift_position i) (not_owned_by d (GetAvailableSolvers s))).
Proof.
  intros Hnd Hrun.
  destruct (UpdateAvailableModels_Ret s0 s Hnd Hrun) as (Hc & _).
  split; [split; [apply (units_owned _ Hc) | apply (solvers_owned _ Hc)] |].
  intros i d Hd. split; [now apply deactivate_directory | now apply remove_directory].
Qed.

(** *** States reached by calls that return *)

Lemma iter_swap_lookup {A} (l : list A) i j k :
  i < length l -> j < length l ->
  iter_swap i j l !! k = l !! (if decide (k = i) then j else if decide (k = j) then i else k).
Proof.
  intros Hi Hj. unfold iter_swap.
  destruct (lookup_lt_is_Some_2 l i Hi) as (a & Ha).
  destruct (lookup_lt_is_Some_2 l j Hj) as (b & Hb). rewrite Ha, Hb.
  destruct (decide (k = i)) as [-> | Hki].
  - rewrite list_lookup_insert_eq by (rewrite length_insert; exact Hi). now rewrite Hb.
  - rewrite list_lookup_insert_ne by congruence.
    destruct (decide (k = j)) as [-> | Hkj].
    + rewrite list_lookup_insert_eq by exact Hj. now rewrite Ha.
    + now rewrite list_lookup_insert_ne by congruence.
Qed.

Lemma iter_swap_keys dirs i j :
  i < length dirs -> j < length dirs ->
  NoDup (map dir_key dirs) -> NoDup (map dir_key (iter_swap i j dirs)).
Proof.
  intros Hi Hj Hnd. apply NoDup_alt. intros a b k Ha Hb.
  rewrite lookup_map, iter_swap_lookup in Ha, Hb by assumption.
  rewrite <- lookup_map in Ha, Hb.
  pose proof (proj1 (NoDup_alt _) Hnd _ _ _ Ha Hb) as Heq.
  repeat case_decide; lia.
Qed.

Lemma AddDir_keys (HU : UniqueContract E) s f a :
  NoDup (map dir_key (m_dirsList s)) ->
  NoDup (map dir_key (m_dirsList s ++ [mkDir f (GenerateUniqueString "" (AllDirsKeys s)) a false])).
Proof.
  intros Hnd. rewrite map_app. simpl. apply NoDup_app. split; [exact Hnd |].
  split; [| apply NoDup_singleton].
  intros k Hk Hin. apply list_elem_of_singleton in Hin. subst k.
  now apply HU in Hk.
Qed.

(** Every directory operation that returns leaves a consistent state,
    starting from the empty manager. *)
Lemma new_manager_consistent : consistent new_manager.
Proof. split; simpl; constructor. Qed.

Lemma operations_keep_consistent `{!SortContract E} (HU : UniqueContract E) s :
  consistent s ->
  (forall f a b s', AddDir f a s = Ret b s' -> consistent s') /\
  (forall i b s', RemoveDir i s = Ret b s' -> consistent s') /\
  (forall i b s', UpDir i s = Ret b s' -> consistent s') /\
  (forall i b s', DownDir i s = Ret b s' -> consistent s') /\
  (forall i a s', SetDirActivity i a s = Ret tt s' -> consistent s').
Proof.
  intros Hc. pose proof (keys_distinct _ Hc) as Hnd.
  assert (Hupd : forall dirs1 (b b' : bool) s',
    NoDup (map dir_key dirs1) ->
    match UpdateAvailableModels (with_dirs dirs1 s) with
    | Ret _ s1 => Ret b s1
    | Raise e s1 => Raise e s1
    | NullDeref s1 => NullDeref s1
    end = Ret b' s' ->
    consistent s').
  { intros dirs1 b b' s' Hk Hrun.
    destruct (UpdateAvailableModels (with_dirs dirs1 s)) as [[] s1|e s1|s1] eqn:Hu;
      try discriminate.
    injection Hrun as _ <-.
    now apply (UpdateAvailableModels_Ret (with_dirs dirs1 s) s1 Hk Hu). }
  split; [| split; [| split; [| split]]].
  - intros f a b s'. unfold AddDir, bind, get, modify.
    destruct (existsb _ _); [now intros [= <- <-] |].
    apply (Hupd (m_dirsList s ++ [mkDir f (GenerateUniqueString "" (AllDirsKeys s)) a false])).
    now apply AddDir_keys.
  - intros i b s'. unfold RemoveDir, bind, get, modify.
    destruct (Nat.leb_spec (length (m_dirsList s)) i); [now intros [= <- <-] |].
    apply (Hupd (delete i (m_dirsList s))).
    rewrite map_fmap, list_fmap_delete, <- map_fmap.
    eapply sublist_NoDup; [exact Hnd | apply sublist_delete].
  - intros i b s'. unfold UpDir, bind, get, modify.
    destruct (Nat.leb_spec (length (m_dirsList s)) i); [now intros [= <- <-] |].
    destruct (Nat.eqb_spec i 0); [now intros [= <- <-] |]. simpl.
    apply (Hupd (iter_swap i (i - 1) (m_dirsList s))).
    apply iter_swap_keys; [lia | lia | exact Hnd].
  - intros i b s'. unfold DownDir, bind, get, modify.
    destruct (Nat.leb_spec (length (m_dirsList s)) i); [now intros [= <- <-] |].
    destruct (Nat.eqb_spec i (length (m_dirsList s) - 1)); [now intros [= <- <-] |]. simpl.
    apply (Hupd (iter_swap i (i + 1) (m_dirsList s))).
    apply iter_swap_keys; [lia | lia | exact Hnd].
  - intros i a s'. unfold SetDirActivity, bind, get, modify.
    destruct (Nat.leb_spec (length (m_dirsList s)) i); [now intros [= <-] |].
    intros Hrun.
    apply (UpdateAvailableModels_Ret (SetDirActivity_flags i a s) s') in Hrun;
      [apply Hrun |].
    unfold SetDirActivity_flags.
    destruct (m_dirsList s !! i) as [d|] eqn:Hd; [| exact Hnd].
    simpl. now rewrite (deactivated_keys _ i d Hd).
Qed.

(** *** What the instantiation and the probes do get right *)

Lemma InstantiateUnit_unknown_key _key s :
  Forall (fun u => uniqueID u <> _key) (m_availableUnits s) ->
  InstantiateUnit _key s = Ret nullptr s.
Proof.
  unfold InstantiateUnit, bind, get. generalize (m_availableUnits s).
  induction 1 as [|u units Hu _ IH]; simpl; [reflexivity |].
  destruct (String.eqb_spec (uniqueID u) _key); [contradiction | exact IH].
Qed.

Lemma InstantiateSolver_unknown_key _key s :
  Forall (fun v => uniqueID v <> _key) (m_availableSolvers s) ->
  InstantiateSolver _key s = Ret nullptr s.
Proof.
  unfold InstantiateSolver, bind, get. generalize (m_availableSolvers s).
  induction 1 as [|v solvers Hv _ IH]; simpl; [reflexivity |].
  destruct (String.eqb_spec (uniqueID v) _key); [contradiction | exact IH].
Qed.

Lemma InstantiateUnit_seeks_further _key u rest s h :
  uniqueID u = _key -> os_open (fileLocation u) = h -> h <> 0%N ->
  os_symbol_unit h DYSSOL_CREATE_MODEL_FUN_NAME = None \/
  os_symbol_unit h DYSSOL_CREATE_MODEL_FUN_NAME = Some (returns None) ->
  InstantiateUnit_from _key (u :: rest) s
  = InstantiateUnit_from _key rest
      (log (EvCloseLibrary h) (log (EvLoadLibrary (fileLocation u) h) s)).
Proof.
  intros Hk Hopen Hh Hsym. simpl. rewrite (proj2 (String.eqb_eq _ _) Hk).
  unfold bind at 1, LoadDyssolLibrary. rewrite Hopen.
  destruct (N.eqb_spec h 0); [contradiction |].
  destruct Hsym as [-> | ->]; reflexivity.
Qed.

Lemma TryGetUnitDescriptor_logic_error f lib s :
  os_symbol_unit lib DYSSOL_CREATE_MODEL_FUN_NAME = Some (throws logic_error) ->
  TryGetUnitDescriptor f lib s = Ret no_unit s.
Proof. intros H. unfold TryGetUnitDescriptor. now rewrite H. Qed.

Lemma describe_unit_accessor_throws f u :
  (exists e, unit_GetUniqueID u = throws e \/ unit_GetUnitName u = throws e \/
             unit_GetAuthorName u = throws e \/ unit_GetUnitVersion u = throws e \/
             unit_IsDynamicUnit u = throws e) ->
  describe_unit f u = no_unit.
Proof.
  intros (e & H). unfold describe_unit.
  destruct (unit_GetUniqueID u), (unit_GetUnitName u), (unit_GetAuthorName u),
    (unit_GetUnitVersion u), (unit_IsDynamicUnit u); try reflexivity.
  destruct H as [H | [H | [H | [H | H]]]]; discriminate.
Qed.

End Properties.

(** ** The concrete environments satisfy the contracts *)

Section InsertionSort.
Context (before : nat -> nat -> bool).
Hypothesis before_le : forall x y, before x y = true -> x <= y.
Hypothesis not_before_ge : forall x y, before x y = false -> y <= x.

Lemma insert_by_permutation {K} (x : SModelDescriptor K) l :
  Demo.insert_by before x l ≡ₚ x :: l.
Proof.
  induction l as [|y l IH]; simpl; [reflexivity |].
  destruct (before (position x) (position y)); [reflexivity |].
  rewrite IH. apply perm_swap.
Qed.

Lemma sort_by_permutation K (l : list (SModelDescriptor K)) :
  Demo.sort_by before K l ≡ₚ l.
Proof.
  induction l as [|x l IH]; simpl; [reflexivity |].
  rewrite insert_by_permutation. now rewrite IH.
Qed.

Lemma insert_by_sorted {K} (x : SModelDescriptor K) l :
  sorted_by_position l -> sorted_by_position (Demo.insert_by before x l).
Proof.
  unfold sorted_by_position, descriptor_lt.
  induction 1 as [|y l Hs IH Hall]; simpl.
  - repeat constructor.
  - destruct (before (position x) (position y)) eqn:Hb.
    + apply before_le in Hb. constructor; [now constructor |].
      constructor; [apply Nat.ltb_ge; lia |].
      eapply Forall_impl; [exact Hall |]. intros z Hz. simpl in Hz.
      apply Nat.ltb_ge in Hz. apply Nat.ltb_ge. lia.
    + apply not_before_ge in Hb. constructor; [exact IH |].
      rewrite insert_by_permutation. constructor; [apply Nat.ltb_ge; lia | exact Hall].
Qed.

Lemma sort_by_sorted K (l : list (SModelDescriptor K)) :
  sorted_by_position (Demo.sort_by before K l).
Proof.
  induction l as [|x l IH]; simpl; [constructor |]. now apply insert_by_sorted.
Qed.

Lemma sort_by_contract : SortContract (Demo.env_with (Demo.sort_by before)).
Proof. split; [apply sort_by_permutation | apply sort_by_sorted]. Qed.

End InsertionSort.

#[global] Instance keeping_sort_contract : SortContract Demo.env.
Proof.
  apply sort_by_contract.
  - intros x y H. now apply Nat.leb_le in H.
  - intros x y H. apply Nat.leb_gt in H. lia.
Qed.

#[global] Instance reversing_sort_contract : SortContract Demo.env_reversing.
Proof.
  apply sort_by_contract.
  - intros x y H. apply Nat.ltb_lt in H. lia.
  - intros x y H. now apply Nat.ltb_ge in H.
Qed.

(** ** Runs in the concrete environment *)

Lemma two_dirs_keys : NoDup (map dir_key (m_dirsList Demo.two_dirs)).
Proof. apply (bool_decide_unpack _). vm_compute. exact I. Qed.

Lemma two_dirs_settled : @UpdateAvailableModels Demo.env Demo.two_dirs = Ret tt Demo.two_dirs.
Proof. vm_compute. reflexivity. Qed.

Lemma AddDir_existing_path_witness :
  @AddDir Demo.env "/models/A" false Demo.two_dirs = Ret false Demo.two_dirs.
Proof.
  apply (@AddDir_existing_path Demo.env).
  exists (mkDir "/models/A" "k" true true). split; [| reflexivity].
  apply (list_elem_of_lookup_2 _ 0). reflexivity.
Defined.

Lemma SetDirActivity_checked_witness :
  exists d', m_dirsList Demo.first_on_again !! 0 = Some d' /\
             dir_active d' = true /\ dir_checked d' = true.
Proof.
  apply (proj1 (proj2 (proj2 (@SetDirActivity_checked Demo.env Demo.first_off 0 true
                                (mkDir "/models/A" "k" false true) eq_refl)))).
  vm_compute. reflexivity.
Defined.

(** C4 as stated fails: "/models/A" goes from inactive to active, and when
    [SetDirActivity] returns its [checked] flag is true, not false. *)
Lemma SetDirActivity_checked_after_return :
  ~ (forall (E : Env) s i a d s' d',
       m_dirsList s !! i = Some d ->
       @SetDirActivity E i a s = Ret tt s' ->
       m_dirsList s' !! i = Some d' ->
       (dir_checked d' = false <-> dir_active d = false /\ a = true)).
Proof.
  intros H.
  specialize (H Demo.env Demo.first_off 0 true (mkDir "/models/A" "k" false true)
                Demo.first_on_again (mkDir "/models/A" "k" true true)).
  assert (Hc : true = false); [| discriminate].
  apply H; [reflexivity | vm_compute; reflexivity | reflexivity | split; reflexivity].
Qed.

Lemma FreeUnit_FreeSolver_order_witness :
  exists s', FreeUnit 5%N Demo.mixer_loaded = Ret tt s' /\
             FreeUnit 5%N s' = Ret tt s' /\
             trace s' = trace Demo.mixer_loaded
                        ++ [EvEraseUnit 5%N; EvDelete 5%N; EvCloseLibrary 11%N].
Proof.
  destruct (proj1 (proj2 (proj2 (FreeUnit_FreeSolver_order Demo.mixer_loaded 5%N)))
              11%N) as (H1 & H2).
  - discriminate.
  - vm_compute. reflexivity.
  - eexists. split; [exact H1 |]. split; [exact H2 | reflexivity].
Defined.






Lemma UpdateAvailableModels_directory_order_witness :
  sorted_by_position (GetAvailableUnits Demo.two_dirs) /\
  forall a b u v,
    GetAvailableUnits Demo.two_dirs !! a = Some u ->
    GetAvailableUnits Demo.two_dirs !! b = Some v ->
    dirKey u = "k" -> dirKey v = "kk" -> a < b.
Proof.
  destruct (@UpdateAvailableModels_directory_order Demo.env _ Demo.two_dirs Demo.two_dirs
              two_dirs_keys two_dirs_settled) as (_ & _ & Hs & _ & Horder).
  split; [exact Hs |].
  apply (Horder 0 1 (mkDir "/models/A" "k" true true) (mkDir "/models/B" "kk" true true));
    [reflexivity | reflexivity | lia].
Defined.

(** C2 as stated fails: "/models/A" is added to an empty manager; the scan
    finds the mixer and then the splitter, and with a [std::sort] that is
    not stable [GetAvailableUnits] lists the splitter first. *)
Lemma discovery_order_not_kept :
  ~ (forall (E : Env), SortContract E ->
     forall dir s' found s1,
       @AddDir E dir true new_manager = Ret true s' ->
       @GetModelsList E dir new_manager = Ret found s1 ->
       map uniqueID (GetAvailableUnits s') = map uniqueID (fst found)).
Proof.
  intros H.
  specialize (H Demo.env_reversing _ "/models/A" Demo.first_dir_reversing
                Demo.found_in_first_dir
                (final (@GetModelsList Demo.env_reversing "/models/A" new_manager))).
  assert (Hc : ["85C77E9F3B2A"; "4E2C9FB3BBA1"] = ["4E2C9FB3BBA1"; "85C77E9F3B2A"]);
    [| discriminate].
  apply H; vm_compute; reflexivity.
Qed.

Lemma descriptors_follow_directories_witness :
  (exists s', @SetDirActivity Demo.env 0 false Demo.two_dirs = Ret tt s' /\
     GetAvailableUnits s'
       ≡ₚ not_owned_by (mkDir "/models/A" "k" true true) (GetAvailableUnits Demo.two_dirs)) /\
  (exists s', @RemoveDir Demo.env 0 Demo.two_dirs = Ret true s' /\
     GetAvailableUnits s'
       ≡ₚ map (shift_position 0)
              (not_owned_by (mkDir "/models/A" "k" true true) (GetAvailableUnits Demo.two_dirs))).
Proof.
  destruct (@descriptors_follow_directories Demo.env _ Demo.two_dirs Demo.two_dirs
              two_dirs_keys two_dirs_settled) as (_ & H).
  destruct (H 0 (mkDir "/models/A" "k" true true) eq_refl)
    as ((s1 & Hr1 & Hu1 & _) & (s2 & Hr2 & Hu2 & _)).
  split; eexists; split; eassumption.
Defined.

(** C5 as stated fails for removal: after [RemoveDir(0)] the crusher of
    "/models/B" has position 0 where it had position 1, so the descriptors
    of the other directory are not left unchanged. *)
Lemma RemoveDir_changes_positions :
  ~ (forall (E : Env), SortContract E ->
     forall s0 s i d s',
       NoDup (map dir_key (m_dirsList s0)) ->
       @UpdateAvailableModels E s0 = Ret tt s ->
       m_dirsList s !! i = Some d ->
       @RemoveDir E i s = Ret true s' ->
       GetAvailableUnits s' ≡ₚ not_owned_by d (GetAvailableUnits s)).
Proof.
  intros H.
  specialize (H Demo.env _ Demo.two_dirs Demo.two_dirs 0 (mkDir "/models/A" "k" true true)
                Demo.first_removed two_dirs_keys two_dirs_settled eq_refl).
  assert (Hrun : @RemoveDir Demo.env 0 Demo.two_dirs = Ret true Demo.first_removed)
    by (vm_compute; reflexivity).
  specialize (H Hrun). vm_compute in H.
  apply Permutation_singleton_inj in H. discriminate.
Qed.

(** C1, at the failing input: the first descriptor with the key names a
    library that does not load; [InstantiateUnit] returns [nullptr] at
    once, although the second descriptor with the same key instantiates. *)
Theorem InstantiateUnit_stops_at_load_failure :
  @InstantiateUnit Demo.env "2FD8955A2E91" Demo.stale_copy
  = Ret nullptr (log (EvLoadLibrary "/models/A/crusher.so" 0%N) Demo.stale_copy) /\
  exists s', @InstantiateUnit_from Demo.env "2FD8955A2E91"
               [Demo.crusher_descriptor "/models/B/crusher.so" "kk" 1] Demo.stale_copy
             = Ret 5%N s' /\
             m_loadedUnits s' !! 5%N = Some 13%N.
Proof.
  split; [vm_compute; reflexivity |].
  eexists. split; vm_compute; reflexivity.
Qed.

(** C3, at the failing input: the unit factory of "/models/D/broken.so"
    throws an exception that is no [std::logic_error]; it leaves the probe,
    the scan and [AddDir]. *)
Theorem factory_exception_leaves_the_scan :
  (forall s, @TryGetUnitDescriptor Demo.env "/models/D/broken.so" 17%N s
             = Raise other_exception s) /\
  (exists s', @AddDir Demo.env "/models/D" true new_manager = Raise other_exception s' /\
              m_dirsList s' = [mkDir "/models/D" "k" true false] /\
              trace s' = [EvLoadLibrary "/models/D/broken.so" 17%N]).
Proof.
  split; [reflexivity |].
  eexists. split; [vm_compute; reflexivity | split; reflexivity].
Qed.

(** ** The time-dependent parameter *)

Module TimeDependentFacts.
Import TimeDependent.

(** *** The order of binary64 numbers *)

Lemma SFcompare_opp x y : SFcompare y x = option_map CompOpp (SFcompare x y).
Proof.
  destruct x as [[]|[]| |[] mx ex], y as [[]|[]| |[] my ey]; simpl; try reflexivity;
    rewrite (Z.compare_antisym ex ey); destruct (Z.compare_spec ex ey); simpl; try reflexivity;
    fold (Pos.compare mx my); fold (Pos.compare my mx);
    rewrite (Pos.compare_antisym mx my); destruct (Pos.compare mx my); reflexivity.
Qed.

Lemma SFcompare_Lt_trans x y z :
  SFcompare x y = Some Lt ->
  SFcompare y z = Some Lt \/ SFcompare y z = Some Eq ->
  SFcompare x z = Some Lt.
Proof.
  destruct x as [[]|[]| |[] mx ex], y as [[]|[]| |[] my ey], z as [[]|[]| |[] mz ez];
    simpl; intros H [H' | H']; try discriminate; try reflexivity;
    revert H H'; fold (Pos.compare mx my) (Pos.compare my mz) (Pos.compare mx mz);
    destruct (Z.compare_spec ex ey), (Z.compare_spec ey ez), (Z.compare_spec ex ez);
    try lia; try discriminate; try reflexivity;
    destruct (Pos.compare_spec mx my), (Pos.compare_spec my mz), (Pos.compare_spec mx mz);
    simpl; try lia; try discriminate; try reflexivity.
Qed.

Lemma ltb_compare a b :
  (a <? b)%float = true <-> SFcompare (Prim2SF a) (Prim2SF b) = Some Lt.
Proof.
  rewrite ltb_spec. unfold SFltb. destruct (SFcompare _ _) as [[]|]; split; congruence.
Qed.

Lemma leb_compare a b :
  (a <=? b)%float = true <->
  SFcompare (Prim2SF a) (Prim2SF b) = Some Lt \/ SFcompare (Prim2SF a) (Prim2SF b) = Some Eq.
Proof.
  rewrite leb_spec. unfold SFleb.
  destruct (SFcompare _ _) as [[]|]; split; intuition congruence.
Qed.

Lemma ltb_trans a b c :
  (a <? b)%float = true -> (b <? c)%float = true -> (a <? c)%float = true.
Proof. rewrite !ltb_compare. intros H1 H2. eapply SFcompare_Lt_trans; eauto. Qed.

Lemma ltb_leb_trans a b c :
  (a <? b)%float = true -> (b <=? c)%float = true -> (a <? c)%float = true.
Proof. rewrite !ltb_compare, leb_compare. intros H1 H2. eapply SFcompare_Lt_trans; eauto. Qed.

Lemma ltb_not_leb a b : (a <? b)%float = true -> (b <=? a)%float = false.
Proof.
  rewrite ltb_compare. intros H. apply not_true_is_false. rewrite leb_compare.
  rewrite SFcompare_opp, H. simpl. intros [|]; discriminate.
Qed.

(** *** The search *)

Lemma bracketing_between a pre p q post t :
  Forall (fun x => (t <=? fst x)%float = false) (pre ++ [p]) ->
  (t <=? fst q)%float = true ->
  bracketing a (pre ++ p :: q :: post) t = interpolate p q t.
Proof.
  revert a. induction pre as [|b pre IH]; intros a Hall Hq; simpl in *.
  - apply Forall_cons in Hall as (Hp & _). now rewrite Hp, Hq.
  - apply Forall_cons in Hall as (Hb & Hall). rewrite Hb. now apply IH.
Qed.

Lemma sorted_before (l : list (double * double)) x l' :
  StronglySorted (fun a b => (a <? b)%float = true) (map fst (l ++ x :: l')) ->
  Forall (fun y => (fst y <? fst x)%float = true) l.
Proof.
  induction l as [|a l IH]; simpl; intros Hs; [constructor |].
  apply StronglySorted_inv in Hs as (Hs & Hall). constructor.
  - rewrite map_app in Hall. apply Forall_app in Hall as (_ & Hx).
    now apply Forall_cons in Hx as (Hx & _).
  - now apply IH.
Qed.

Lemma last_cons {A} (x d : A) l : List.last (x :: l) d = List.last l x.
Proof.
  revert x d. induction l as [|y l IH]; intros x d; [reflexivity |].
  change (List.last (y :: l) d = List.last (y :: l) x). now rewrite !IH.
Qed.

Lemma last_middle {A} (l : list A) x l' d : List.last (l ++ x :: l') d = List.last l' x.
Proof.
  revert d. induction l as [|y l IH]; intros d; cbn [app]; rewrite last_cons; [reflexivity |].
  apply IH.
Qed.

(** C8: with no point defined [GetValue] is [0.0]; at or before the first
    time point it is the first value; at or after the last it is the last
    value; strictly between them it is the linear interpolation, in
    [double] arithmetic, between the two neighbouring points that bracket
    the time.  [GetValue] is a total function: it returns for every curve
    and every time, NaN included. *)
Theorem GetValue_clamps_and_interpolates (m_values : CDependentValues) (t : double) :
  increasing_times m_values ->
  (m_values = [] -> GetValue m_values t = 0%float) /\
  (forall first rest, m_values = first :: rest ->
     (t <=? fst first)%float = true -> GetValue m_values t = snd first) /\
  (forall init last, m_values = init ++ [last] ->
     (fst last <=? t)%float = true -> GetValue m_values t = snd last) /\
  (forall pre p q post, m_values = pre ++ p :: q :: post ->
     (fst p <? t)%float = true -> (t <=? fst q)%float = true ->
     (t <? fst (List.last post q))%float = true ->
     GetValue m_values t
     = (snd p + (t - fst p) * (snd q - snd p) / (fst q - fst p))%float).
Proof.
  unfold increasing_times. intros Hs. split; [| split; [| split]].
  - now intros ->.
  - intros first rest -> Ht. unfold GetValue. now rewrite Ht.
  - intros init last -> Ht. destruct init as [|first init]; cbn [app].
    + unfold GetValue. simpl. rewrite Ht. now destruct (t <=? fst last)%float.
    + pose proof (sorted_before (first :: init) last [] Hs) as Hbefore.
      apply Forall_cons in Hbefore as (Hf & _).
      unfold GetValue. rewrite last_last.
      rewrite (ltb_not_leb _ _ (ltb_leb_trans _ _ _ Hf Ht)). now rewrite Ht.
  - intros pre p q post -> Hp Hq Hlast.
    pose proof (sorted_before pre p (q :: post) Hs) as Hbefore.
    assert (Hpast : Forall (fun x => (t <=? fst x)%float = false) (pre ++ [p])).
    { apply Forall_app. split.
      - eapply Forall_impl; [exact Hbefore |]. intros x Hx.
        apply ltb_not_leb. now apply (ltb_trans _ (fst p)).
      - constructor; [now apply ltb_not_leb | constructor]. }
    destruct pre as [|first pre]; cbn [app].
    + unfold GetValue. rewrite last_cons.
      rewrite (ltb_not_leb _ _ Hp), (ltb_not_leb _ _ Hlast). simpl. now rewrite Hq.
    + apply Forall_cons in Hpast as (Hfirst & Hpast).
      unfold GetValue. rewrite last_middle, last_cons.
      rewrite Hfirst, (ltb_not_leb _ _ Hlast).
      now rewrite bracketing_between.
Qed.

Lemma example_increasing : increasing_times example.
Proof. unfold increasing_times. simpl. repeat constructor. Qed.

(** The values of the spec, and one off the middle of the interval. *)
Lemma GetValue_example :
  GetValue example (-5)%float = 1%float /\ GetValue example 5%float = 3%float /\
  GetValue example 15%float = 5%float /\ GetValue example 2.5%float = 2%float.
Proof.
  split; [| split; [| split]].
  - apply (proj1 (proj2 (GetValue_clamps_and_interpolates example (-5)%float
                           example_increasing))
             (0, 1)%float [(10, 5)%float] eq_refl eq_refl).
  - rewrite (proj2 (proj2 (proj2 (GetValue_clamps_and_interpolates example 5%float
                                    example_increasing)))
               [] (0, 1)%float (10, 5)%float [] eq_refl eq_refl eq_refl eq_refl).
    reflexivity.
  - apply (proj1 (proj2 (proj2 (GetValue_clamps_and_interpolates example 15%float
                                  example_increasing)))
             [(0, 1)%float] (10, 5)%float eq_refl eq_refl).
  - rewrite (proj2 (proj2 (proj2 (GetValue_clamps_and_interpolates example 2.5%float
                                    example_increasing)))
               [] (0, 1)%float (10, 5)%float [] eq_refl eq_refl eq_refl eq_refl).
    reflexivity.
Defined.

End TimeDependentFacts.

(** ** The parameter registry: saving and loading *)

Module UnitParametersFacts.
Import UnitParameters.

(** *** The group map and its triples *)

Lemma members_at_register t groups p b :
  members_at (register t groups) p b
  = members_at groups p b ++ (if decide (t.1.1 = p /\ t.1.2 = b) then [t.2] else []).
Proof.
  destruct t as [[p' b'] g]. unfold members_at, register. simpl.
  destruct (decide (p' = p)) as [-> | Hp].
  - rewrite lookup_insert_eq. simpl.
    destruct (decide (b' = b)) as [-> | Hb].
    + rewrite lookup_insert_eq. simpl. now rewrite decide_True.
    + rewrite lookup_insert_ne by exact Hb.
      rewrite decide_False by (intros [_ ?]; contradiction). now rewrite app_nil_r.
  - rewrite lookup_insert_ne by exact Hp.
    rewrite decide_False by (intros [? _]; contradiction). now rewrite app_nil_r.
Qed.

Lemma members_at_fold ts :
  forall acc p b,
    members_at (fold_left (fun acc t => register t acc) ts acc) p b
    = members_at acc p b ++ triples_at ts p b.
Proof.
  induction ts as [|t ts IH]; intros acc p b; simpl.
  - now rewrite app_nil_r.
  - rewrite IH, members_at_register, <- app_assoc. reflexivity.
Qed.

Lemma register_wf t groups : groups_wf groups -> groups_wf (register t groups).
Proof.
  destruct t as [[p b] g]. intros Hwf q blocks. unfold register. simpl.
  destruct (decide (p = q)) as [-> | Hp].
  - rewrite lookup_insert_eq. intros [= <-]. split.
    + apply insert_non_empty.
    + intros b' gs. destruct (decide (b = b')) as [-> | Hb].
      * rewrite lookup_insert_eq. intros [= <-]. now destruct (default [] _).
      * rewrite lookup_insert_ne by exact Hb.
        destruct (groups !! q) as [blocks|] eqn:Hq; simpl; [| now rewrite lookup_empty].
        apply (Hwf q blocks Hq).
  - rewrite lookup_insert_ne by exact Hp. apply Hwf.
Qed.

Lemma groups_of_triples_wf ts : groups_wf (groups_of_triples ts).
Proof.
  unfold groups_of_triples.
  assert (H : forall acc, groups_wf acc ->
            groups_wf (fold_left (fun acc t => register t acc) ts acc)).
  { induction ts as [|t ts IH]; intros acc Hacc; simpl; [exact Hacc |].
    apply IH, register_wf, Hacc. }
  apply H. intros p blocks. now rewrite lookup_empty.
Qed.

Lemma groups_wf_ext g1 g2 :
  groups_wf g1 -> groups_wf g2 ->
  (forall p b, members_at g1 p b = members_at g2 p b) -> g1 = g2.
Proof.
  intros H1 H2 Hext.
  assert (Hhalf : forall ga gb, groups_wf ga ->
    (forall p b, members_at ga p b = members_at gb p b) ->
    forall p blocks, ga !! p = Some blocks ->
      exists blocks', gb !! p = Some blocks' /\
        forall b gs, blocks !! b = Some gs -> blocks' !! b = Some gs).
  { intros ga gb Ha Hab p blocks Hp.
    destruct (Ha p blocks Hp) as (Hne & Hgs).
    assert (Hin : forall b gs, blocks !! b = Some gs ->
              default [] (default ∅ (gb !! p) !! b) = gs /\ gs <> []).
    { intros b gs Hb. split; [| now apply (Hgs b)].
      specialize (Hab p b). unfold members_at in Hab. rewrite Hp in Hab. simpl in Hab.
      now rewrite Hb in Hab. }
    destruct (gb !! p) as [blocks'|] eqn:Hq.
    - exists blocks'. split; [reflexivity |]. intros b gs Hb.
      destruct (Hin b gs Hb) as (Heq & Hn). simpl in Heq.
      destruct (blocks' !! b) as [gs'|]; simpl in Heq; congruence.
    - exfalso. apply map_choose in Hne as (b & gs & Hb).
      destruct (Hin b gs Hb) as (Heq & Hn). simpl in Heq.
      rewrite lookup_empty in Heq. simpl in Heq. congruence. }
  apply map_eq. intros p.
  destruct (g1 !! p) as [b1|] eqn:Hp1, (g2 !! p) as [b2|] eqn:Hp2.
  - f_equal. apply map_eq. intros b.
    destruct (Hhalf g1 g2 H1 Hext p b1 Hp1) as (b2' & Hb2 & H12).
    destruct (Hhalf g2 g1 H2 (fun p b => eq_sym (Hext p b)) p b2 Hp2) as (b1' & Hb1 & H21).
    assert (b2' = b2) as -> by congruence. assert (b1' = b1) as -> by congruence.
    destruct (b1 !! b) as [gs|] eqn:Hb.
    + symmetry. now apply H12.
    + destruct (b2 !! b) as [gs|] eqn:Hb'; [| reflexivity].
      apply H21 in Hb'. congruence.
  - destruct (Hhalf g1 g2 H1 Hext p b1 Hp1) as (b2' & Hb2 & _). congruence.
  - destruct (Hhalf g2 g1 H2 (fun p b => eq_sym (Hext p b)) p b2 Hp2) as (b1' & Hb1 & _).
    congruence.
  - reflexivity.
Qed.


Lemma triples_at_app ts1 ts2 p b :
  triples_at (ts1 ++ ts2) p b = triples_at ts1 p b ++ triples_at ts2 p b.
Proof. unfold triples_at. apply flat_map_app. Qed.

Lemma triples_at_flat_map {A} (f : A -> list (nat * nat * N)) l p b :
  triples_at (flat_map f l) p b = flat_map (fun x => triples_at (f x) p b) l.
Proof.
  induction l as [|x l IH]; simpl; [reflexivity |].
  now rewrite triples_at_app, IH.
Qed.

Lemma triples_at_block p' b' gs p b :
  triples_at (map (fun g => (p', b', g)) gs) p b
  = if decide (p' = p /\ b' = b) then gs else [].
Proof.
  unfold triples_at. induction gs as [|g gs IH]; simpl.
  - now destruct (decide _).
  - rewrite IH. now destruct (decide _).
Qed.

(** In a list of pairs with distinct keys, only the entry of [k] counts. *)
Lemma flat_map_at_key {K V X} `{EqDecision K} (f : K * V -> list X) (l : list (K * V)) k :
  NoDup (l.*1) ->
  (forall kv, kv.1 <> k -> f kv = []) ->
  flat_map f l = match list_find (fun kv => kv.1 = k) l with
                 | Some (_, kv) => f kv
                 | None => []
                 end.
Proof.
  intros Hnd Hf. induction l as [|[k' v'] l IH]; simpl; [reflexivity |].
  apply NoDup_cons in Hnd as (Hk' & Hnd). specialize (IH Hnd).
  case_decide as Hk; simpl in Hk.
  - subst k'. simpl.
    assert (Hrest : flat_map f l = []).
    { rewrite IH. destruct (list_find _ l) as [[i kv]|] eqn:Hfind; [| reflexivity].
      apply list_find_Some in Hfind as (Hi & Hkv & _).
      exfalso. apply Hk'. apply list_elem_of_fmap. exists kv.
      split; [now rewrite Hkv | eapply list_elem_of_lookup_2; exact Hi]. }
    now rewrite Hrest, app_nil_r.
  - rewrite (Hf (k', v')) by exact Hk. simpl. rewrite IH.
    now destruct (list_find _ l) as [[i kv]|].
Qed.

Lemma flat_map_map_to_list {V X} (f : nat * V -> list X) (m : gmap nat V) k :
  (forall kv, kv.1 <> k -> f kv = []) ->
  flat_map f (map_to_list m) = match m !! k with Some v => f (k, v) | None => [] end.
Proof.
  intros Hf. rewrite (flat_map_at_key f _ k (NoDup_fst_map_to_list m) Hf).
  destruct (list_find _ (map_to_list m)) as [[i [k' v]]|] eqn:Hfind.
  - apply list_find_Some in Hfind as (Hi & Hk & _). simpl in Hk. subst k'.
    apply list_elem_of_lookup_2, elem_of_map_to_list in Hi. now rewrite Hi.
  - destruct (m !! k) as [v|] eqn:Hk; [| reflexivity].
    apply elem_of_map_to_list in Hk.
    eapply list_find_None in Hfind. eapply Forall_forall in Hfind; [| exact Hk].
    now contradiction Hfind.
Qed.

Lemma triples_at_group_triples groups p b :
  triples_at (group_triples groups) p b = members_at groups p b.
Proof.
  unfold group_triples, members_at. rewrite triples_at_flat_map.
  rewrite (flat_map_map_to_list _ groups p).
  2: { intros [p' blocks] Hne. simpl in *. rewrite triples_at_flat_map.
       induction (map_to_list blocks) as [|[b' gs] l IH]; simpl; [reflexivity |].
       rewrite IH, triples_at_block.
       rewrite decide_False by (intros [? _]; contradiction). reflexivity. }
  destruct (groups !! p) as [blocks|]; simpl; [| now rewrite lookup_empty].
  rewrite triples_at_flat_map. rewrite (flat_map_map_to_list _ blocks b).
  2: { intros [b' gs] Hne. simpl in *. rewrite triples_at_block.
       now rewrite decide_False by (intros [_ ?]; contradiction). }
  destruct (blocks !! b) as [gs|]; simpl; [| reflexivity].
  rewrite triples_at_block. now rewrite decide_True.
Qed.

Lemma groups_of_group_triples groups :
  groups_wf groups -> groups_of_triples (group_triples groups) = groups.
Proof.
  intros Hwf. apply groups_wf_ext; [apply groups_of_triples_wf | exact Hwf |].
  intros p b. unfold groups_of_triples.
  rewrite members_at_fold, triples_at_group_triples.
  unfold members_at at 1. now rewrite lookup_empty.
Qed.


(** *** The store *)

Section RoundTrip.
Context (m_cnSaveVersion : EUnitParameter -> Z) (m_cnManagerSaveVersion : Z).

Ltac read_back :=
  unfold WriteData;
  repeat (rewrite lookup_insert_eq || rewrite lookup_insert_ne by congruence).

Lemma WriteData_other g name v h5 g' f :
  g' <> g -> WriteData g name v h5 !! (g', f) = h5 !! (g', f).
Proof. intros Hne. unfold WriteData. apply lookup_insert_ne. congruence. Qed.

Lemma save_parameter_other p g h5 g' f :
  g' <> g -> save_parameter m_cnSaveVersion p g h5 !! (g', f) = h5 !! (g', f).
Proof.
  intros Hne. unfold save_parameter, save_data.
  destruct (m_data p); now rewrite !WriteData_other by exact Hne.
Qed.

Lemma EUnitParameter_of_value k : EUnitParameter_of (EUnitParameter_value k) = k.
Proof. now destruct k. Qed.

Lemma load_save_parameter p g h5 :
  load_parameter (save_parameter m_cnSaveVersion p g h5) g = Some p.
Proof.
  destruct p as [nm un de d].
  unfold load_parameter, save_parameter, GetType. simpl.
  destruct d as [[vs mn mx] | [v mn mx] | v | b | [k t] | [items sel] | [items sel] | k];
    unfold load_data, load_combo, save_data, ReadInt, ReadReal, ReadBool, ReadText,
      ReadCurve, ReadItems; simpl; read_back; simpl; read_back;
    rewrite ?N2Z.id, ?list_to_map_to_list; reflexivity.
Qed.

Lemma load_parameter_ext (h5 h5' : gmap (list string * string) datum) g :
  (forall f, h5 !! (g, f) = h5' !! (g, f)) ->
  load_parameter h5 g = load_parameter h5' g.
Proof.
  intros H. unfold load_parameter, load_data, load_combo, ReadInt, ReadReal, ReadBool,
    ReadText, ReadCurve, ReadItems.
  now rewrite !H.
Qed.

Lemma parameter_group_inj _path i j :
  parameter_group _path i = parameter_group _path j -> i = j.
Proof.
  unfold parameter_group, CreateGroup. intros H.
  apply app_inv_head in H. injection H as H.
  apply (inj (String.app "")) in H. now apply (inj pretty) in H.
Qed.

Lemma parameter_group_below _path i : _path <> parameter_group _path i.
Proof.
  unfold parameter_group, CreateGroup. intros H.
  apply (f_equal length) in H. rewrite length_app in H. simpl in H. lia.
Qed.

Lemma save_parameters_other _path ps :
  forall i h5 g' f,
    (forall j, i <= j -> g' <> parameter_group _path j) ->
    save_parameters m_cnSaveVersion _path i ps h5 !! (g', f) = h5 !! (g', f).
Proof.
  induction ps as [|p ps IH]; intros i h5 g' f Hne; simpl; [reflexivity |].
  rewrite IH by (intros j Hj; apply Hne; lia).
  apply save_parameter_other, Hne. lia.
Qed.

Lemma load_parameters_ext (h5 h5' : gmap (list string * string) datum) _path n :
  forall i,
    (forall j f, h5 !! (parameter_group _path j, f) = h5' !! (parameter_group _path j, f)) ->
    load_parameters h5 _path i n = load_parameters h5' _path i n.
Proof.
  induction n as [|n IH]; intros i H; simpl; [reflexivity |].
  rewrite (load_parameter_ext h5 h5') by (intros f; apply H).
  now rewrite (IH (S i) H).
Qed.

Lemma load_save_parameters _path ps :
  forall i h5,
    load_parameters (save_parameters m_cnSaveVersion _path i ps h5) _path i (length ps) = ps.
Proof.
  induction ps as [|p ps IH]; intros i h5; simpl; [reflexivity |].
  rewrite (load_parameter_ext _ (save_parameter m_cnSaveVersion p (parameter_group _path i) h5)).
  2: { intros f. apply save_parameters_other. intros j Hj Heq.
       apply parameter_group_inj in Heq. lia. }
  rewrite load_save_parameter. f_equal. apply IH.
Qed.

Lemma saved_parametersNumber R _path h5 :
  ReadInt (SaveToFile m_cnSaveVersion m_cnManagerSaveVersion R _path h5)
          _path "parametersNumber" 0
  = Z.of_nat (length (m_parameters R)).
Proof.
  unfold ReadInt, SaveToFile. unfold WriteData at 1.
  rewrite lookup_insert_ne by congruence.
  rewrite save_parameters_other by (intros j _; apply parameter_group_below).
  unfold WriteData at 1. now rewrite lookup_insert_eq.
Qed.

Lemma saved_groups R _path h5 :
  ReadTriples (SaveToFile m_cnSaveVersion m_cnManagerSaveVersion R _path h5) _path "groups"
  = group_triples (m_groups R).
Proof. unfold ReadTriples, SaveToFile, WriteData. now rewrite lookup_insert_eq. Qed.

Lemma saved_parameters R _path h5 :
  load_parameters (SaveToFile m_cnSaveVersion m_cnManagerSaveVersion R _path h5) _path 0
                  (length (m_parameters R))
  = m_parameters R.
Proof.
  unfold SaveToFile.
  rewrite (load_parameters_ext _ (save_parameters m_cnSaveVersion _path 0 (m_parameters R)
             (WriteData _path "parametersNumber" (DInt (Z.of_nat (length (m_parameters R))))
                (WriteData _path "version" (DInt m_cnManagerSaveVersion) h5)))).
  - apply load_save_parameters.
  - intros j f. apply WriteData_other. intros Heq.
    symmetry in Heq. now apply parameter_group_below in Heq.
Qed.

(** C9: loading what [SaveToFile] wrote gives the registry back, so every
    getter answers on [Load(Save(R))] as on [R]: the parameters with their
    values, bounds and selected items, and the group map, hence
    [IsParameterActive].  [R] is a registry as the interface builds it: its
    group map has no empty entry. *)
Theorem LoadFromFile_SaveToFile (R : CUnitParametersManager) _path h5 :
  groups_wf (m_groups R) ->
  LoadFromFile (SaveToFile m_cnSaveVersion m_cnManagerSaveVersion R _path h5) _path = R /\
  (forall i,
     GetParameter (LoadFromFile (SaveToFile m_cnSaveVersion m_cnManagerSaveVersion R _path h5)
                                _path) i
     = GetParameter R i) /\
  (forall i,
     IsParameterActive (LoadFromFile (SaveToFile m_cnSaveVersion m_cnManagerSaveVersion R _path h5)
                                     _path) i
     = IsParameterActive R i).
Proof.
  intros Hwf.
  assert (Heq : LoadFromFile (SaveToFile m_cnSaveVersion m_cnManagerSaveVersion R _path h5) _path
                = R).
  { unfold LoadFromFile.
    rewrite saved_parametersNumber, Nat2Z.id, saved_parameters, saved_groups.
    rewrite groups_of_group_triples by exact Hwf. now destruct R. }
  rewrite Heq. repeat split.
Qed.

End RoundTrip.

(** *** Registries built through the interface *)

Lemma AddToGroup_wf p b g groups : groups_wf groups -> groups_wf (AddToGroup p b g groups).
Proof.
  intros Hwf. unfold AddToGroup.
  destruct (existsb _ _); [exact Hwf |]. now apply (register_wf (p, b, g)).
Qed.

Lemma AddParametersToGroup_wf b g ps R :
  groups_wf (m_groups R) -> groups_wf (m_groups (AddParametersToGroup b g ps R)).
Proof.
  intros Hwf. unfold AddParametersToGroup.
  destruct (GetGroupParameter R b) as [cb|]; [| exact Hwf].
  destruct (_ && _); [| exact Hwf]. simpl.
  generalize dependent (m_groups R). induction ps as [|i ps IH]; intros groups Hg; simpl.
  - exact Hg.
  - apply IH, AddToGroup_wf, Hg.
Qed.

Lemma empty_groups_wf : groups_wf ∅.
Proof. intros p blocks. now rewrite lookup_empty. Qed.

Lemma example_registry_wf : groups_wf (m_groups example_registry).
Proof. unfold example_registry. do 2 apply AddParametersToGroup_wf. apply empty_groups_wf. Qed.

Lemma LoadFromFile_SaveToFile_witness :
  LoadFromFile (SaveToFile (fun _ => 1%Z) 2%Z example_registry ["Flowsheet"; "Unit0"] ∅)
               ["Flowsheet"; "Unit0"]
  = example_registry.
Proof.
  apply (proj1 (LoadFromFile_SaveToFile (fun _ => 1%Z) 2%Z example_registry
                  ["Flowsheet"; "Unit0"] ∅ example_registry_wf)).
Defined.

End UnitParametersFacts.

(** ** More of ModelsManager.cpp *)

Section Operations.
Context {E : Env}.

(** *** The directory list *)

Lemma mark_scanned_path d : dir_path (mark_scanned d) = dir_path d.
Proof. unfold mark_scanned. now destruct (pending d). Qed.

Lemma run_update_Ret dirs1 (b b' : bool) s s' :
  match UpdateAvailableModels (with_dirs dirs1 s) with
  | Ret _ s1 => Ret b s1
  | Raise e s1 => Raise e s1
  | NullDeref s1 => NullDeref s1
  end = Ret b' s' ->
  b' = b /\ UpdateAvailableModels (with_dirs dirs1 s) = Ret tt s'.
Proof.
  destruct (UpdateAvailableModels (with_dirs dirs1 s)) as [[] s1|e s1|s1];
    try discriminate.
  now intros [= <- <-].
Qed.

(** X1: [AddDir] with a path that is not in the list appends one entry with
    that path, the requested activity and a generated key, returns [true],
    and the new entry is what [GetDirPath] and [GetDirActivity] show at the
    old [DirsNumber]; the entry is checked exactly when it is active. *)
Theorem AddDir_new_path s f a b s' :
  Forall (fun d => dir_path d <> f) (m_dirsList s) ->
  AddDir f a s = Ret b s' ->
  b = true /\
  m_dirsList s' = map mark_scanned (m_dirsList s)
                  ++ [mkDir f (GenerateUniqueString "" (AllDirsKeys s)) a a] /\
  DirsNumber s' = S (DirsNumber s) /\
  GetDirPath (DirsNumber s) s' = f /\
  GetDirActivity (DirsNumber s) s' = a.
Proof.
  intros Hnew. unfold AddDir, bind, get, modify.
  assert (Hex : existsb (fun entry => String.eqb (dir_path entry) f) (m_dirsList s) = false).
  { apply not_true_is_false. intros Hex. apply existsb_exists in Hex as (d & Hd & Heq).
    apply String.eqb_eq in Heq. apply list_elem_of_In in Hd.
    eapply Forall_forall in Hnew; [| exact Hd]. contradiction. }
  rewrite Hex. intros Hrun. apply run_update_Ret in Hrun as (-> & Hrun).
  apply UpdateAvailableModels_dirs in Hrun. simpl in Hrun.
  assert (Hd : m_dirsList s' = map mark_scanned (m_dirsList s)
                 ++ [mkDir f (GenerateUniqueString "" (AllDirsKeys s)) a a]).
  { rewrite Hrun, map_app. f_equal. simpl. unfold mark_scanned, pending. simpl.
    now destruct a. }
  split; [reflexivity |]. split; [exact Hd |].
  unfold DirsNumber, GetDirPath, GetDirActivity. rewrite Hd.
  rewrite length_app, length_map. simpl.
  rewrite lookup_app_r by (rewrite length_map; lia).
  rewrite length_map, Nat.sub_diag. simpl. repeat split. lia.
Qed.

Lemma iter_swap_length {A} i j (l : list A) : length (iter_swap i j l) = length l.
Proof.
  unfold iter_swap. destruct (l !! i), (l !! j); try reflexivity.
  now rewrite !length_insert.
Qed.

(** X2: [UpDir] refuses the first index and an index out of range and changes
    nothing then; otherwise it exchanges the entry with the one before it.
    [DownDir] refuses the last index and an index out of range; otherwise
    it exchanges the entry with the one after it. *)
Theorem UpDir_DownDir_effect s i b s' :
  (UpDir i s = Ret b s' ->
     (b = false /\ s' = s /\ (i = 0 \/ DirsNumber s <= i)) \/
     (b = true /\ 0 < i < DirsNumber s /\
      m_dirsList s' = map mark_scanned (iter_swap i (i - 1) (m_dirsList s)) /\
      GetDirPath (i - 1) s' = GetDirPath i s /\ GetDirPath i s' = GetDirPath (i - 1) s)) /\
  (DownDir i s = Ret b s' ->
     (b = false /\ s' = s /\ (i = DirsNumber s - 1 \/ DirsNumber s <= i)) \/
     (b = true /\ S i < DirsNumber s /\
      m_dirsList s' = map mark_scanned (iter_swap i (i + 1) (m_dirsList s)) /\
      GetDirPath (i + 1) s' = GetDirPath i s /\ GetDirPath i s' = GetDirPath (i + 1) s)).
Proof.
  assert (Hpaths : forall j k, j < length (m_dirsList s) -> k < length (m_dirsList s) ->
    m_dirsList s' = map mark_scanned (iter_swap j k (m_dirsList s)) ->
    GetDirPath k s' = GetDirPath j s /\ GetDirPath j s' = GetDirPath k s).
  { intros j k Hj Hk Hd. unfold GetDirPath. rewrite Hd, !lookup_map.
    rewrite !iter_swap_lookup by assumption.
    split; repeat case_decide; subst; try congruence;
      destruct (m_dirsList s !! _) as [d|]; simpl;
      try reflexivity; apply mark_scanned_path. }
  unfold DirsNumber. split.
  - unfold UpDir, bind, get, modify.
    destruct (Nat.leb_spec (length (m_dirsList s)) i) as [Hge | Hlt];
      [intros [= <- <-]; left; repeat split; now right |].
    destruct (Nat.eqb_spec i 0) as [-> | Hne];
      [intros [= <- <-]; left; repeat split; now left |].
    simpl. intros Hrun. apply run_update_Ret in Hrun as (-> & Hrun).
    apply UpdateAvailableModels_dirs in Hrun. simpl in Hrun.
    right. split; [reflexivity |]. split; [lia |]. split; [exact Hrun |].
    apply (Hpaths i (i - 1)); [lia | lia | exact Hrun].
  - unfold DownDir, bind, get, modify.
    destruct (Nat.leb_spec (length (m_dirsList s)) i) as [Hge | Hlt];
      [intros [= <- <-]; left; repeat split; now right |].
    destruct (Nat.eqb_spec i (length (m_dirsList s) - 1)) as [Heq | Hne];
      [intros [= <- <-]; left; repeat split; now left |].
    simpl. intros Hrun. apply run_update_Ret in Hrun as (-> & Hrun).
    apply UpdateAvailableModels_dirs in Hrun. simpl in Hrun.
    right. split; [reflexivity |]. split; [lia |]. split; [exact Hrun |].
    apply (Hpaths i (i + 1)); [lia | lia | exact Hrun].
Qed.

(** X3: [RemoveDir] refuses an index out of range and changes nothing then;
    otherwise it erases that entry: the list is one shorter and the entries
    behind the erased one move up by one. *)
Theorem RemoveDir_effect s i b s' :
  RemoveDir i s = Ret b s' ->
  (b = false /\ s' = s /\ DirsNumber s <= i) \/
  (b = true /\ i < DirsNumber s /\
   m_dirsList s' = map mark_scanned (delete i (m_dirsList s)) /\
   S (DirsNumber s') = DirsNumber s /\
   forall j, GetDirPath j s' = GetDirPath (if Nat.ltb j i then j else S j) s).
Proof.
  unfold DirsNumber, RemoveDir, bind, get, modify.
  destruct (Nat.leb_spec (length (m_dirsList s)) i) as [Hge | Hlt];
    [intros [= <- <-]; left; repeat split; exact Hge |].
  intros Hrun. apply run_update_Ret in Hrun as (-> & Hrun).
  apply UpdateAvailableModels_dirs in Hrun. simpl in Hrun.
  right. split; [reflexivity |]. split; [exact Hlt |]. split; [exact Hrun |]. split.
  - rewrite Hrun, length_map, length_delete by (now apply lookup_lt_is_Some_2). lia.
  - intros j. unfold GetDirPath. rewrite Hrun, lookup_map.
    destruct (Nat.ltb_spec j i).
    + rewrite list_lookup_delete_lt by assumption.
      destruct (m_dirsList s !! j); simpl; [apply mark_scanned_path | reflexivity].
    + rewrite list_lookup_delete_ge by assumption.
      destruct (m_dirsList s !! S j); simpl; [apply mark_scanned_path | reflexivity].
Qed.

Lemma RemoveDir_dirs s i b s' :
  RemoveDir i s = Ret b s' ->
  s' = s \/
  (i < length (m_dirsList s) /\ m_dirsList s' = map mark_scanned (delete i (m_dirsList s))).
Proof.
  unfold RemoveDir, bind, get, modify.
  destruct (Nat.leb_spec (length (m_dirsList s)) i) as [Hge | Hlt];
    [intros [= <- <-]; now left |].
  intros Hrun. apply run_update_Ret in Hrun as (_ & Hrun).
  apply UpdateAvailableModels_dirs in Hrun. right. split; [exact Hlt | exact Hrun].
Qed.

Lemma UpDir_dirs s i b s' :
  UpDir i s = Ret b s' ->
  s' = s \/
  (0 < i < length (m_dirsList s) /\
   m_dirsList s' = map mark_scanned (iter_swap i (i - 1) (m_dirsList s))).
Proof.
  unfold UpDir, bind, get, modify.
  destruct (Nat.leb_spec (length (m_dirsList s)) i) as [Hge | Hlt];
    [intros [= <- <-]; now left |].
  destruct (Nat.eqb_spec i 0) as [-> | Hne]; [intros [= <- <-]; now left |].
  simpl. intros Hrun. apply run_update_Ret in Hrun as (_ & Hrun).
  apply UpdateAvailableModels_dirs in Hrun. right. split; [lia | exact Hrun].
Qed.

Lemma DownDir_dirs s i b s' :
  DownDir i s = Ret b s' ->
  s' = s \/
  (S i < length (m_dirsList s) /\
   m_dirsList s' = map mark_scanned (iter_swap i (i + 1) (m_dirsList s))).
Proof.
  unfold DownDir, bind, get, modify.
  destruct (Nat.leb_spec (length (m_dirsList s)) i) as [Hge | Hlt];
    [intros [= <- <-]; now left |].
  destruct (Nat.eqb_spec i (length (m_dirsList s) - 1)) as [Heq | Hne];
    [intros [= <- <-]; now left |].
  simpl. intros Hrun. apply run_update_Ret in Hrun as (_ & Hrun).
  apply UpdateAvailableModels_dirs in Hrun. right. split; [lia | exact Hrun].
Qed.

Lemma iter_swap_NoDup_map {A B} (f : A -> B) (l : list A) i j :
  i < length l -> j < length l ->
  NoDup (map f l) -> NoDup (map f (iter_swap i j l)).
Proof.
  intros Hi Hj Hnd. apply NoDup_alt. intros a b k Ha Hb.
  rewrite lookup_map, iter_swap_lookup in Ha, Hb by assumption.
  rewrite <- lookup_map in Ha, Hb.
  pose proof (proj1 (NoDup_alt _) Hnd _ _ _ Ha Hb) as Heq.
  repeat case_decide; lia.
Qed.

Lemma map_mark_scanned_paths dirs :
  map dir_path (map mark_scanned dirs) = map dir_path dirs.
Proof. rewrite map_map. apply map_ext. intros d. apply mark_scanned_path. Qed.

(** X4: The paths of the directory list stay pairwise distinct under every
    directory operation that returns: [AddDir] is the only one that adds a
    path, and it refuses one that is there. *)
Theorem directory_paths_stay_distinct s :
  NoDup (map dir_path (m_dirsList s)) ->
  (forall f a b s', AddDir f a s = Ret b s' -> NoDup (map dir_path (m_dirsList s'))) /\
  (forall i b s', RemoveDir i s = Ret b s' -> NoDup (map dir_path (m_dirsList s'))) /\
  (forall i b s', UpDir i s = Ret b s' -> NoDup (map dir_path (m_dirsList s'))) /\
  (forall i b s', DownDir i s = Ret b s' -> NoDup (map dir_path (m_dirsList s'))) /\
  (forall i a s', SetDirActivity i a s = Ret tt s' -> NoDup (map dir_path (m_dirsList s'))).
Proof.
  intros Hnd. split; [| split; [| split; [| split]]].
  - intros f a b s'. unfold AddDir, bind, get, modify.
    destruct (existsb _ _) eqn:Hex; [now intros [= <- <-] |].
    intros Hrun. apply run_update_Ret in Hrun as (_ & Hrun).
    apply UpdateAvailableModels_dirs in Hrun. simpl in Hrun.
    rewrite Hrun, map_mark_scanned_paths, map_app. simpl.
    apply NoDup_app. split; [exact Hnd |]. split; [| apply NoDup_singleton].
    intros q Hq Hin. apply list_elem_of_singleton in Hin. subst q.
    apply list_elem_of_In, in_map_iff in Hq as (d & Hp & Hd).
    assert (Hc : existsb (fun entry => String.eqb (dir_path entry) f) (m_dirsList s) = true).
    { apply existsb_exists. exists d. split; [exact Hd | now apply String.eqb_eq]. }
    congruence.
  - intros i b s' Hrun. destruct (RemoveDir_dirs s i b s' Hrun)
      as [-> | (_ & Hd)]; [exact Hnd |].
    rewrite Hd, map_mark_scanned_paths, map_fmap, list_fmap_delete, <- map_fmap.
    eapply sublist_NoDup; [exact Hnd | apply sublist_delete].
  - intros i b s' Hrun. destruct (UpDir_dirs s i b s' Hrun)
      as [-> | (Hi & Hd)]; [exact Hnd |].
    rewrite Hd, map_mark_scanned_paths. apply iter_swap_NoDup_map; [lia | lia | exact Hnd].
  - intros i b s' Hrun. destruct (DownDir_dirs s i b s' Hrun)
      as [-> | (Hi & Hd)]; [exact Hnd |].
    rewrite Hd, map_mark_scanned_paths. apply iter_swap_NoDup_map; [lia | lia | exact Hnd].
  - intros i a s'. unfold SetDirActivity, bind, get, modify.
    destruct (Nat.leb_spec (length (m_dirsList s)) i); [now intros [= <-] |].
    intros Hrun. apply UpdateAvailableModels_dirs in Hrun.
    rewrite Hrun, map_mark_scanned_paths. unfold SetDirActivity_flags.
    destruct (m_dirsList s !! i) as [d|] eqn:Hd; [| exact Hnd]. simpl.
    rewrite map_fmap, list_fmap_insert. simpl. rewrite list_insert_id; [now rewrite <- map_fmap |].
    now rewrite list_lookup_fmap, Hd.
Qed.

(** *** Reconciliation of a state that needs none *)

Lemma VectorDelete_keeps {K} dirs (ms : list (SModelDescriptor K)) :
  Forall (fun m => active_key dirs (dirKey m)) ms ->
  VectorDelete ms (IsToDelete dirs) = ms.
Proof.
  intros Hown. unfold VectorDelete. induction Hown as [|m ms Hm _ IH]; simpl; [reflexivity |].
  apply IsToDelete_false in Hm. rewrite Hm. simpl. now rewrite IH.
Qed.

Lemma settled_same_owners `{!SortContract E} s dirs1 :
  Forall (fun d => pending d = false) dirs1 ->
  Forall (fun u => active_key dirs1 (dirKey u)) (m_availableUnits s) ->
  Forall (fun v => active_key dirs1 (dirKey v)) (m_availableSolvers s) ->
  exists s', UpdateAvailableModels (with_dirs dirs1 s) = Ret tt s' /\
    m_dirsList s' = dirs1 /\ trace s' = trace s /\ heap_next s' = heap_next s /\
    m_loadedUnits s' = m_loadedUnits s /\ m_loadedSolvers s' = m_loadedSolvers s /\
    m_availableUnits s' ≡ₚ map (reposition_all dirs1) (m_availableUnits s) /\
    m_availableSolvers s' ≡ₚ map (reposition_all dirs1) (m_availableSolvers s) /\
    sorted_by_position (m_availableUnits s') /\
    sorted_by_position (m_availableSolvers s').
Proof.
  intros Hp Hu Hv. eexists. split; [apply UpdateAvailableModels_settled, Hp |].
  unfold sort_models, drop_orphans. simpl.
  rewrite (VectorDelete_keeps _ _ Hu), (VectorDelete_keeps _ _ Hv).
  repeat split; try apply std_sort_permutation; apply std_sort_sorted.
Qed.

Lemma reposition_all_consistent {K} dirs (ms : list (SModelDescriptor K)) :
  NoDup (map dir_key dirs) -> Forall (positioned dirs) ms ->
  map (reposition_all dirs) ms = ms.
Proof.
  intros Hnd Hpos. rewrite <- (map_id ms) at 2. apply map_ext_in.
  intros m Hm. apply reposition_all_fixed; [exact Hnd |].
  eapply Forall_forall in Hpos; [exact Hpos |]. now apply list_elem_of_In.
Qed.

(** X5: On a consistent state [UpdateAvailableModels] returns without loading
    any library: the directory list stays as it is and both lists keep
    exactly their descriptors, sorted by position. *)
Theorem UpdateAvailableModels_nothing_to_do `{!SortContract E} s :
  consistent s ->
  exists s', UpdateAvailableModels s = Ret tt s' /\
    m_dirsList s' = m_dirsList s /\ trace s' = trace s /\
    GetAvailableUnits s' ≡ₚ GetAvailableUnits s /\
    GetAvailableSolvers s' ≡ₚ GetAvailableSolvers s /\
    sorted_by_position (GetAvailableUnits s') /\
    sorted_by_position (GetAvailableSolvers s').
Proof.
  intros [Hk Hp Hou Hov Hpu Hpv].
  destruct (settled_same_owners s (m_dirsList s) Hp Hou Hov)
    as (s' & Hrun & Hd & Ht & _ & _ & _ & Hu & Hv & Hsu & Hsv).
  exists s'. replace (with_dirs (m_dirsList s) s) with s in Hrun by now destruct s.
  rewrite (reposition_all_consistent _ _ Hk Hpu) in Hu.
  rewrite (reposition_all_consistent _ _ Hk Hpv) in Hv.
  now repeat split.
Qed.

(** X6: Setting the activity of a directory to the value it has scans
    nothing: no library is loaded, the descriptors stay, and the entry
    keeps its path, key and activity (its [checked] flag is true). *)
Theorem SetDirActivity_same_value `{!SortContract E} s i d :
  consistent s -> m_dirsList s !! i = Some d ->
  exists s', SetDirActivity i (dir_active d) s = Ret tt s' /\
    m_dirsList s' = <[i := set_checked true d]> (m_dirsList s) /\
    trace s' = trace s /\
    GetAvailableUnits s' ≡ₚ GetAvailableUnits s /\
    GetAvailableSolvers s' ≡ₚ GetAvailableSolvers s.
Proof.
  intros [Hk Hp Hou Hov Hpu Hpv] Hd.
  rewrite (SetDirActivity_valid_index s i _ d Hd).
  assert (Hflags : SetDirActivity_flags i (dir_active d) s
                   = with_dirs (<[i := set_checked true d]> (m_dirsList s)) s).
  { unfold SetDirActivity_flags. rewrite Hd. cbv zeta.
    assert (Hpd : pending d = false)
      by exact (Forall_lookup_1 (fun d => pending d = false) _ _ _ Hp Hd).
    replace (set_active (dir_active d)
               (set_checked (dir_active d || negb (dir_active d)) d))
      with (set_checked true d); [reflexivity |].
    unfold pending in Hpd. unfold set_active, set_checked. simpl.
    destruct d as [pa ke [] []]; simpl in *; congruence. }
  rewrite Hflags.
  assert (Hkeys : map dir_key (<[i := set_checked true d]> (m_dirsList s))
                  = map dir_key (m_dirsList s))
    by now apply (deactivated_keys _ i d Hd).
  assert (Hact : forall k, active_key (m_dirsList s) k ->
                           active_key (<[i := set_checked true d]> (m_dirsList s)) k).
  { intros k (d0 & Hd0 & Ha & Hk0). apply list_elem_of_lookup_1 in Hd0 as (j & Hj).
    destruct (decide (j = i)) as [-> | Hne].
    - exists (set_checked true d). rewrite Hd in Hj. injection Hj as <-.
      split; [| now split]. apply (list_elem_of_lookup_2 _ i).
      apply list_lookup_insert_eq. eapply lookup_lt_Some; exact Hd.
    - exists d0. split; [| now split]. apply (list_elem_of_lookup_2 _ j).
      now rewrite list_lookup_insert_ne by congruence. }
  assert (Hposd : forall K (m : SModelDescriptor K), positioned (m_dirsList s) m ->
                    positioned (<[i := set_checked true d]> (m_dirsList s)) m).
  { intros K m (d0 & Hj & Hk0). destruct (decide (position m = i)) as [Heq | Hne].
    - exists (set_checked true d). rewrite Heq, Hd in Hj. injection Hj as <-.
      split; [| exact Hk0]. rewrite Heq.
      apply list_lookup_insert_eq. eapply lookup_lt_Some; exact Hd.
    - exists d0. split; [| exact Hk0]. now rewrite list_lookup_insert_ne by congruence. }
  destruct (settled_same_owners s (<[i := set_checked true d]> (m_dirsList s)))
    as (s' & Hrun & Hd' & Ht & _ & _ & _ & Hu & Hv & _).
  { apply Forall_insert; [exact Hp |]. unfold pending. simpl. apply andb_false_r. }
  { eapply Forall_impl; [exact Hou |]. intros u. apply Hact. }
  { eapply Forall_impl; [exact Hov |]. intros v. apply Hact. }
  exists s'. split; [exact Hrun |]. split; [exact Hd' |]. split; [exact Ht |].
  unfold GetAvailableUnits, GetAvailableSolvers.
  rewrite reposition_all_consistent in Hu;
    [| rewrite Hkeys; exact Hk | eapply Forall_impl; [exact Hpu | apply Hposd]].
  rewrite reposition_all_consistent in Hv;
    [| rewrite Hkeys; exact Hk | eapply Forall_impl; [exact Hpv | apply Hposd]].
  now split.
Qed.

(** *** Moving a directory up and down *)

Lemma iter_swap_back {A} (l : list A) i j :
  i < length l -> j < length l -> iter_swap j i (iter_swap i j l) = l.
Proof.
  intros Hi Hj. apply list_eq. intros k.
  rewrite iter_swap_lookup by (rewrite iter_swap_length; assumption).
  rewrite iter_swap_lookup by assumption.
  repeat case_decide; subst; congruence.
Qed.

Lemma iter_swap_elem {A} (l : list A) i j x :
  i < length l -> j < length l -> x ∈ iter_swap i j l <-> x ∈ l.
Proof.
  intros Hi Hj. split; intros Hx; apply list_elem_of_lookup_1 in Hx as (k & Hk).
  - rewrite iter_swap_lookup in Hk by assumption. eapply list_elem_of_lookup_2; exact Hk.
  - apply (list_elem_of_lookup_2 _
             (if decide (k = i) then j else if decide (k = j) then i else k)).
    rewrite iter_swap_lookup by assumption.
    repeat case_decide; subst; congruence.
Qed.

Lemma iter_swap_active_key dirs i j k :
  i < length dirs -> j < length dirs ->
  active_key (iter_swap i j dirs) k <-> active_key dirs k.
Proof.
  intros Hi Hj. unfold active_key.
  split; intros (d & Hd & H); exists d; (split; [| exact H]);
    now apply (iter_swap_elem dirs i j d Hi Hj).
Qed.

Lemma reposition_all_only_position {K} dirs (m : SModelDescriptor K) :
  exists j, reposition_all dirs m = set_position j m.
Proof.
  unfold reposition_all. generalize (seq 0 (length dirs)). intros idx.
  assert (H : forall m0 : SModelDescriptor K, (exists j, m0 = set_position j m) ->
            exists j, fold_left (reposition_at dirs) idx m0 = set_position j m).
  { induction idx as [|i idx IH]; intros m0 Hm0; simpl; [exact Hm0 |].
    apply IH. destruct Hm0 as (j & ->). unfold reposition_at.
    destruct (dirs !! i) as [d|]; [| eauto].
    destruct (String.eqb _ _); eauto. }
  apply H. exists (position m). now rewrite set_position_same.
Qed.

Lemma reposition_all_twice {K} dirs dirs1 (ms : list (SModelDescriptor K)) :
  NoDup (map dir_key dirs) -> Forall (positioned dirs) ms ->
  map (reposition_all dirs) (map (reposition_all dirs1) ms) = ms.
Proof.
  intros Hnd Hpos. rewrite map_map. rewrite <- (map_id ms) at 2. apply map_ext_in.
  intros m Hm. apply list_elem_of_In in Hm.
  eapply Forall_forall in Hpos; [| exact Hm]. destruct Hpos as (d0 & Hj & Hk0).
  destruct (reposition_all_only_position dirs1 m) as (j' & ->).
  rewrite (reposition_all_owner dirs (position m) d0 Hnd Hj) by (simpl; congruence).
  rewrite set_position_twice. apply set_position_same.
Qed.

Lemma UpDir_on_consistent `{!SortContract E} s j :
  consistent s -> S j < DirsNumber s ->
  exists s1, UpDir (S j) s = Ret true s1 /\
    m_dirsList s1 = iter_swap (S j) j (m_dirsList s) /\
    trace s1 = trace s /\ consistent s1 /\
    m_availableUnits s1
      ≡ₚ map (reposition_all (iter_swap (S j) j (m_dirsList s))) (m_availableUnits s) /\
    m_availableSolvers s1
      ≡ₚ map (reposition_all (iter_swap (S j) j (m_dirsList s))) (m_availableSolvers s) /\
    sorted_by_position (m_availableUnits s1) /\ sorted_by_position (m_availableSolvers s1).
Proof.
  intros [Hk Hp Hou Hov Hpu Hpv] Hj. unfold DirsNumber in Hj.
  assert (Hj0 : j < length (m_dirsList s)) by lia.
  destruct (settled_same_owners s (iter_swap (S j) j (m_dirsList s)))
    as (s1 & Hrun & Hd & Ht & _ & _ & _ & Hu & Hv & Hsu & Hsv).
  { apply Forall_forall. intros d Hd. apply iter_swap_elem in Hd; [| assumption ..].
    eapply Forall_forall in Hp; [exact Hp | exact Hd]. }
  { eapply Forall_impl; [exact Hou |]. intros u. now apply iter_swap_active_key. }
  { eapply Forall_impl; [exact Hov |]. intros v. now apply iter_swap_active_key. }
  exists s1. split; [| split; [exact Hd | split; [exact Ht | split; [| now repeat split]]]].
  - unfold UpDir, bind, get, modify.
    destruct (Nat.leb_spec (length (m_dirsList s)) (S j)); [lia |]. simpl.
    replace (j - 0) with j by lia. now rewrite Hrun.
  - apply (UpdateAvailableModels_Ret _ _) in Hrun; [apply Hrun |].
    simpl. now apply iter_swap_keys.
Qed.

(** X7: Moving a directory up and then down again gives back the directory
    list and the descriptors of both caches, and loads no library. *)
Theorem UpDir_then_DownDir `{!SortContract E} s j :
  consistent s -> S j < DirsNumber s ->
  exists s1 s2, UpDir (S j) s = Ret true s1 /\ DownDir j s1 = Ret true s2 /\
    m_dirsList s2 = m_dirsList s /\ trace s2 = trace s /\
    GetAvailableUnits s2 ≡ₚ GetAvailableUnits s /\
    GetAvailableSolvers s2 ≡ₚ GetAvailableSolvers s.
Proof.
  intros Hc Hj. pose proof Hc as [Hk Hp Hou Hov Hpu Hpv].
  destruct (UpDir_on_consistent s j Hc Hj)
    as (s1 & Hup & Hd1 & Ht1 & Hc1 & Hu1 & Hv1 & _).
  unfold DirsNumber in Hj.
  assert (Hown : forall K (ms ms1 : list (SModelDescriptor K)),
    ms1 ≡ₚ map (reposition_all (m_dirsList s1)) ms ->
    Forall (fun m => active_key (m_dirsList s) (dirKey m)) ms ->
    Forall (fun m => active_key (m_dirsList s) (dirKey m)) ms1).
  { intros K ms ms1 -> Hown. rewrite map_fmap. apply Forall_fmap.
    eapply Forall_impl; [exact Hown |]. intros m Hm. simpl.
    destruct (reposition_all_only_position (m_dirsList s1) m) as (j' & ->). exact Hm. }
  rewrite <- Hd1 in Hu1, Hv1.
  destruct (settled_same_owners s1 (m_dirsList s) Hp (Hown _ _ _ Hu1 Hou) (Hown _ _ _ Hv1 Hov))
    as (s2 & Hrun & Hd2 & Ht2 & _ & _ & _ & Hu2 & Hv2 & _).
  exists s1, s2. split; [exact Hup |]. split.
  - unfold DownDir, bind, get, modify. rewrite Hd1, iter_swap_length.
    destruct (Nat.leb_spec (length (m_dirsList s)) j); [lia |].
    destruct (Nat.eqb_spec j (length (m_dirsList s) - 1)); [lia |]. simpl.
    replace (j + 1) with (S j) by lia.
    rewrite Hd1, iter_swap_back by lia. now rewrite Hrun.
  - split; [exact Hd2 |]. split; [congruence |].
    unfold GetAvailableUnits, GetAvailableSolvers.
    rewrite Hu2, Hv2, Hu1, Hv1, !reposition_all_twice by assumption. now split.
Qed.

Lemma owned_order {K} dirs (l : list (SModelDescriptor K)) i j dA dB a b u v :
  NoDup (map dir_key dirs) -> Forall (positioned dirs) l -> sorted_by_position l ->
  dirs !! i = Some dA -> dirs !! j = Some dB -> i < j ->
  l !! a = Some u -> l !! b = Some v ->
  dirKey u = dir_key dA -> dirKey v = dir_key dB -> a < b.
Proof.
  intros Hk Hpos Hs Hi Hj Hij Ha Hb Hu Hv.
  eapply sorted_lookup_order; [exact Hs | exact Ha | exact Hb |].
  rewrite (positioned_owner _ u i dA Hk); [| eapply Forall_lookup_1; eauto | exact Hi | exact Hu].
  rewrite (positioned_owner _ v j dB Hk); [| eapply Forall_lookup_1; eauto | exact Hj | exact Hv].
  exact Hij.
Qed.

(** X8: [UpDir] gives a directory priority over the one that was before it:
    afterwards every unit and solver of the directory moved up is listed
    before every unit and solver of the directory it passed. *)
Theorem UpDir_gives_priority `{!SortContract E} s j dB dA :
  consistent s ->
  m_dirsList s !! j = Some dB -> m_dirsList s !! S j = Some dA ->
  exists s1, UpDir (S j) s = Ret true s1 /\
    (forall a b u v,
       GetAvailableUnits s1 !! a = Some u -> GetAvailableUnits s1 !! b = Some v ->
       dirKey u = dir_key dA -> dirKey v = dir_key dB -> a < b) /\
    (forall a b u v,
       GetAvailableSolvers s1 !! a = Some u -> GetAvailableSolvers s1 !! b = Some v ->
       dirKey u = dir_key dA -> dirKey v = dir_key dB -> a < b).
Proof.
  intros Hc HB HA.
  assert (Hj : S j < DirsNumber s) by (eapply lookup_lt_Some; exact HA).
  destruct (UpDir_on_consistent s j Hc Hj)
    as (s1 & Hup & Hd1 & _ & [Hk1 _ _ _ Hpu1 Hpv1] & _ & _ & Hsu & Hsv).
  unfold DirsNumber in Hj.
  assert (HA1 : m_dirsList s1 !! j = Some dA).
  { rewrite Hd1, iter_swap_lookup by lia.
    destruct (decide (j = S j)); [lia |]. now rewrite decide_True. }
  assert (HB1 : m_dirsList s1 !! S j = Some dB).
  { rewrite Hd1, iter_swap_lookup by lia. now rewrite decide_True. }
  exists s1. split; [exact Hup |]. unfold GetAvailableUnits, GetAvailableSolvers.
  split; intros a b u v Ha Hb Hu Hv.
  - exact (owned_order _ _ j (S j) dA dB a b u v Hk1 Hpu1 Hsu HA1 HB1
             (Nat.lt_succ_diag_r j) Ha Hb Hu Hv).
  - exact (owned_order _ _ j (S j) dA dB a b u v Hk1 Hpv1 Hsv HA1 HB1
             (Nat.lt_succ_diag_r j) Ha Hb Hu Hv).
Qed.

(** *** Libraries opened and closed *)

Lemma open_count_app h t t' :
  open_count h (t ++ t') = (open_count h t + open_count h t')%Z.
Proof. unfold open_count. induction t as [|e t IH]; simpl; [reflexivity |]. rewrite IH. lia. Qed.

Lemma open_count_log h e s :
  open_count h (trace (log e s)) = (open_count h (trace s) + library_delta h e)%Z.
Proof. simpl. rewrite open_count_app. simpl. lia. Qed.

Lemma live_objects_app t t' :
  live_objects (t ++ t') = (live_objects t + live_objects t')%Z.
Proof. unfold live_objects. induction t as [|e t IH]; simpl; [reflexivity |]. rewrite IH. lia. Qed.

Lemma neutral_ret {A} (a : A) : library_neutral (ret a).
Proof. intros s h. reflexivity. Qed.

Lemma neutral_bind {A B} (c : M A) (k : A -> M B) :
  library_neutral c -> (forall a, library_neutral (k a)) -> library_neutral (bind c k).
Proof.
  intros Hc Hk s h. unfold bind. specialize (Hc s h).
  destruct (c s) as [a s1|e s1|s1]; simpl in *; try assumption.
  now rewrite Hk.
Qed.

Lemma neutral_construct {O} (create : call (option O)) : library_neutral (construct create).
Proof.
  intros s h. unfold construct. destruct create as [[o|]|e]; try reflexivity.
  cbn [final]. rewrite open_count_log. simpl. lia.
Qed.

Lemma neutral_delete_object p : library_neutral (delete_object p).
Proof.
  intros s h. unfold delete_object. destruct (N.eqb p nullptr); [reflexivity |].
  unfold modify. cbn [final]. rewrite open_count_log. simpl. lia.
Qed.

Lemma neutral_try_catch {A} (c : M A) :
  library_neutral c -> library_neutral (try_catch_logic_error c).
Proof.
  intros Hc s h. unfold try_catch_logic_error. specialize (Hc s h).
  destruct (c s) as [a s1|[] s1|s1]; exact Hc.
Qed.

Lemma neutral_null_deref {A} : library_neutral (@null_deref A).
Proof. intros s h. reflexivity. Qed.

Create HintDb neutral.
#[local] Hint Resolve neutral_ret neutral_construct neutral_delete_object
  neutral_try_catch neutral_null_deref : neutral.

Lemma neutral_TryGetUnitDescriptor f lib : library_neutral (TryGetUnitDescriptor f lib).
Proof.
  unfold TryGetUnitDescriptor.
  destruct (os_symbol_unit lib DYSSOL_CREATE_MODEL_FUN_NAME) as [create|]; auto with neutral.
  apply neutral_bind; auto with neutral.
  intros [[[p u]|]|]; auto with neutral.
  destruct (negb _); apply neutral_bind; auto with neutral.
Qed.

Lemma neutral_solver_types_loop f lib types d p :
  library_neutral (solver_types_loop f lib types d p).
Proof.
  revert d p. induction types as [|i rest IH]; intros d p; simpl; auto with neutral.
  destruct (os_symbol_solver lib (CREATE_SOLVER_FUN_NAMES i)) as [create|]; auto.
  apply neutral_bind; auto with neutral.
  intros [[[q v]|]|]; auto with neutral.
  destruct (negb _); auto.
  destruct (describe_solver f v); auto with neutral.
Qed.

Lemma neutral_TryGetSolverDescriptor f lib : library_neutral (TryGetSolverDescriptor f lib).
Proof.
  unfold TryGetSolverDescriptor.
  apply neutral_bind; [apply neutral_solver_types_loop |].
  intros r. apply neutral_bind; auto with neutral.
Qed.

Lemma closes_ret {A} (a : A) : closes_what_it_loads (ret a).
Proof. intros s a' s' [= _ <-] h _. reflexivity. Qed.

Lemma closes_bind {A B} (c : M A) (k : A -> M B) :
  closes_what_it_loads c -> (forall a, closes_what_it_loads (k a)) ->
  closes_what_it_loads (bind c k).
Proof.
  intros Hc Hk s b s' Hrun h Hh. apply bind_inv in Hrun as (a & s1 & H1 & H2).
  rewrite (Hk a s1 b s' H2 h Hh). exact (Hc s a s1 H1 h Hh).
Qed.

Lemma closes_fold_for {A S} (l : list A) (body : A -> S -> M S) acc :
  (forall x a, closes_what_it_loads (body x a)) -> closes_what_it_loads (fold_for l body acc).
Proof.
  intros Hb. revert acc. induction l as [|x l IH]; intros acc; simpl.
  - apply closes_ret.
  - apply closes_bind; [apply Hb | intros a; apply IH].
Qed.

Lemma closes_for_each {A} (l : list A) (body : A -> M unit) :
  (forall x, closes_what_it_loads (body x)) -> closes_what_it_loads (for_each l body).
Proof.
  intros Hb. induction l as [|x l IH]; simpl.
  - apply closes_ret.
  - apply closes_bind; [apply Hb | intros _; apply IH].
Qed.

Lemma closes_modify_members (f : CModelsManager -> CModelsManager) :
  (forall s, trace (f s) = trace s) -> closes_what_it_loads (modify f).
Proof. intros Hf s a s' [= _ <-] h _. now rewrite Hf. Qed.

Lemma closes_get : closes_what_it_loads get.
Proof. intros s a s' [= _ <-] h _. reflexivity. Qed.

(** The probe of one file in [GetAllModelsInDir]: load, probe, close. *)
Lemma closes_GetAllModelsInDir d : closes_what_it_loads (GetAllModelsInDir d).
Proof.
  unfold GetAllModelsInDir. apply closes_fold_for. intros f res s r s' Hrun h Hh.
  unfold bind at 1, LoadDyssolLibrary in Hrun.
  set (lib := os_open f) in *. set (s0 := log (EvLoadLibrary f lib) s) in *.
  assert (H0 : open_count h (trace s0)
               = (open_count h (trace s) + if N.eqb lib h then 1 else 0)%Z)
    by apply open_count_log.
  destruct (N.eqb_spec lib 0) as [Hz | Hnz].
  { injection Hrun as _ <-. rewrite H0, Hz.
    destruct (N.eqb_spec 0 h); [congruence | lia]. }
  apply bind_inv in Hrun as (u & s1 & Hu & Hrun).
  pose proof (neutral_TryGetUnitDescriptor f lib s0 h) as N1. rewrite Hu in N1.
  cbn [final] in N1.
  apply bind_inv in Hrun as (res' & s2 & Hres & Hrun).
  assert (N2 : open_count h (trace s2) = open_count h (trace s1)).
  { destruct (descriptor_bool bool u); [now injection Hres as _ <- |].
    apply bind_inv in Hres as (v & s1' & Hv & Hres).
    pose proof (neutral_TryGetSolverDescriptor f lib s1 h) as N2.
    rewrite Hv in N2. cbn [final] in N2.
    destruct (descriptor_bool nat v); injection Hres as _ <-; exact N2. }
  unfold bind, CloseDyssolLibrary, modify, ret in Hrun. injection Hrun as _ <-.
  rewrite open_count_log, N2, N1, H0. simpl. destruct (N.eqb lib h); lia.
Qed.

Lemma closes_GetModelsList d : closes_what_it_loads (GetModelsList d).
Proof.
  unfold GetModelsList. apply closes_bind; [apply closes_GetAllModelsInDir |].
  intros [[|u us] [|v vs]]; try apply closes_ret. apply closes_GetAllModelsInDir.
Qed.

Lemma closes_scan_dir i : closes_what_it_loads (scan_dir i).
Proof.
  unfold scan_dir. apply closes_bind; [apply closes_get |]. intros s.
  destruct (m_dirsList s !! i) as [d|]; [| apply closes_ret].
  destruct (_ && _); [| apply closes_ret].
  apply closes_bind; [apply closes_GetModelsList |]. intros found.
  repeat (apply closes_bind; [apply closes_modify_members; reflexivity | intros _]).
  apply closes_modify_members. reflexivity.
Qed.

Lemma reposition_steps_trace idx s : trace (fold_left reposition_step idx s) = trace s.
Proof. now rewrite reposition_steps. Qed.

Lemma closes_UpdateAvailableModels : closes_what_it_loads UpdateAvailableModels.
Proof.
  unfold UpdateAvailableModels.
  do 2 (apply closes_bind; [apply closes_modify_members; reflexivity | intros _]).
  apply closes_bind; [apply closes_get |]. intros s.
  apply closes_bind; [apply closes_for_each; intros i; apply closes_scan_dir | intros _].
  apply closes_bind;
    [apply closes_modify_members; intros s0; apply reposition_steps_trace | intros _].
  apply closes_bind; [apply closes_modify_members; reflexivity | intros _].
  apply closes_modify_members. reflexivity.
Qed.

(** X9: No probing handle is retained: when a directory operation returns,
    every library the scan loaded has been closed again, so for every
    library the number of loads minus closes is what it was before. *)
Theorem directory_operations_close_libraries h :
  h <> 0%N ->
  (forall s s', UpdateAvailableModels s = Ret tt s' ->
     open_count h (trace s') = open_count h (trace s)) /\
  (forall f a s b s', AddDir f a s = Ret b s' ->
     open_count h (trace s') = open_count h (trace s)) /\
  (forall i s b s', RemoveDir i s = Ret b s' ->
     open_count h (trace s') = open_count h (trace s)) /\
  (forall i s b s', UpDir i s = Ret b s' ->
     open_count h (trace s') = open_count h (trace s)) /\
  (forall i s b s', DownDir i s = Ret b s' ->
     open_count h (trace s') = open_count h (trace s)) /\
  (forall i a s s', SetDirActivity i a s = Ret tt s' ->
     open_count h (trace s') = open_count h (trace s)).
Proof.
  intros Hh.
  assert (Hop : forall (c : M bool),
    closes_what_it_loads c -> forall s b s', c s = Ret b s' ->
      open_count h (trace s') = open_count h (trace s)).
  { intros c Hc s b s' Hrun. exact (Hc s b s' Hrun h Hh). }
  assert (Hmod : forall f : CModelsManager -> list SModelDir,
    closes_what_it_loads (modify (fun s => with_dirs (f s) s) ;; UpdateAvailableModels ;; ret true)).
  { intros f. apply closes_bind; [apply closes_modify_members; reflexivity | intros _].
    apply closes_bind; [apply closes_UpdateAvailableModels | intros _; apply closes_ret]. }
  split; [| split; [| split; [| split; [| split]]]].
  - intros s s' Hrun. exact (closes_UpdateAvailableModels s tt s' Hrun h Hh).
  - intros f a. apply Hop. unfold AddDir.
    apply closes_bind; [apply closes_get | intros s].
    destruct (existsb _ _); [apply closes_ret | apply Hmod].
  - intros i. apply Hop. unfold RemoveDir.
    apply closes_bind; [apply closes_get | intros s].
    destruct (Nat.leb _ _); [apply closes_ret | apply Hmod].
  - intros i. apply Hop. unfold UpDir.
    apply closes_bind; [apply closes_get | intros s].
    destruct (_ || _); [apply closes_ret | apply Hmod].
  - intros i. apply Hop. unfold DownDir.
    apply closes_bind; [apply closes_get | intros s].
    destruct (_ || _); [apply closes_ret | apply Hmod].
  - intros i a s s' Hrun.
    assert (Hc : closes_what_it_loads (SetDirActivity i a)).
    { unfold SetDirActivity. apply closes_bind; [apply closes_get | intros s1].
      destruct (Nat.leb _ _); [apply closes_ret |].
      apply closes_bind; [| intros _; apply closes_UpdateAvailableModels].
      apply closes_modify_members. intros s0. unfold SetDirActivity_flags.
      now destruct (m_dirsList s0 !! i). }
    exact (Hc s tt s' Hrun h Hh).
Qed.

(** *** Instances *)

Lemma live_objects_log e s :
  live_objects (trace (log e s)) = (live_objects (trace s) + object_delta e)%Z.
Proof. simpl. rewrite live_objects_app. simpl. lia. Qed.

Lemma instantiate_outcome_after {K} loaded (ds : list (SModelDescriptor K)) u k s s0 p s' :
  loaded s0 = loaded s -> heap_next s0 = heap_next s ->
  live_objects (trace s0) = live_objects (trace s) ->
  (forall h, h <> 0%N -> open_count h (trace s0) = open_count h (trace s)) ->
  instantiate_outcome loaded ds k s0 p s' ->
  instantiate_outcome loaded (u :: ds) k s p s'.
Proof.
  intros Hl Hh Ho Hc [(-> & Hl' & Hh' & Ho' & Hc') | (-> & Hh' & Ho' & v & Hv & Hk & Hopen & Hl' & Hc')].
  - left. repeat split; try congruence. intros h Hne. rewrite Hc', Hc by exact Hne. reflexivity.
  - right. rewrite <- Hh. repeat split; try congruence.
    exists v. split; [now apply elem_of_cons; right |].
    repeat split; try congruence.
    intros h Hne. rewrite Hc', Hc by exact Hne. reflexivity.
Qed.

Lemma seek_further_counts h0 f s :
  let s1 := log (EvCloseLibrary h0) (log (EvLoadLibrary f h0) s) in
  live_objects (trace s1) = live_objects (trace s) /\
  forall h, open_count h (trace s1) = open_count h (trace s).
Proof.
  intros s1. subst s1. split.
  - rewrite !live_objects_log. simpl. lia.
  - intros h. rewrite !open_count_log. simpl. destruct (N.eqb h0 h); lia.
Qed.

Lemma InstantiateUnit_from_outcome k units :
  forall s p s',
    InstantiateUnit_from k units s = Ret p s' ->
    (m_dirsList s' = m_dirsList s /\ m_availableUnits s' = m_availableUnits s /\
     m_availableSolvers s' = m_availableSolvers s /\ m_loadedSolvers s' = m_loadedSolvers s) /\
    instantiate_outcome m_loadedUnits units k s p s'.
Proof.
  induction units as [|u rest IH]; intros s p s'; simpl.
  { intros [= <- <-]. split; [now repeat split |]. left. now repeat split. }
  destruct (String.eqb_spec (uniqueID u) k) as [Hk | Hk].
  2: { intros Hrun. destruct (IH _ _ _ Hrun) as (Hm & Ho). split; [exact Hm |].
       now apply (instantiate_outcome_after _ _ u k s s). }
  unfold bind at 1, LoadDyssolLibrary.
  set (h0 := os_open (fileLocation u)).
  destruct (N.eqb_spec h0 0) as [Hz | Hnz].
  { intros [= <- <-]. split; [now repeat split |]. left.
    repeat split; [rewrite live_objects_log; simpl; lia |].
    intros h Hne. rewrite open_count_log. simpl. rewrite Hz.
    destruct (N.eqb_spec 0 h); [congruence | lia]. }
  assert (Hfurther : forall p s',
    InstantiateUnit_from k rest
      (log (EvCloseLibrary h0) (log (EvLoadLibrary (fileLocation u) h0) s)) = Ret p s' ->
    (m_dirsList s' = m_dirsList s /\ m_availableUnits s' = m_availableUnits s /\
     m_availableSolvers s' = m_availableSolvers s /\ m_loadedSolvers s' = m_loadedSolvers s) /\
    instantiate_outcome m_loadedUnits (u :: rest) k s p s').
  { intros q t Hrun. destruct (IH _ _ _ Hrun) as (Hm & Ho).
    destruct (seek_further_counts h0 (fileLocation u) s) as (Hobj & Hcnt).
    split; [exact Hm |].
    eapply instantiate_outcome_after; [| | exact Hobj | intros h _; apply Hcnt | exact Ho];
      reflexivity. }
  destruct (os_symbol_unit h0 DYSSOL_CREATE_MODEL_FUN_NAME) as [[[o|]|e]|].
  - intros [= <- <-]. split; [now repeat split |]. right. simpl.
    split; [reflexivity |]. split; [reflexivity |]. split.
    { rewrite !live_objects_app. simpl. lia. }
    exists u. split; [apply elem_of_cons; now left |].
    split; [exact Hk |]. split; [exact Hnz |]. split; [reflexivity |].
    intros h Hne. rewrite !open_count_app. simpl. fold h0. destruct (N.eqb h0 h); lia.
  - apply Hfurther.
  - discriminate.
  - apply Hfurther.
Qed.

Lemma InstantiateSolver_from_outcome k solvers :
  forall s p s',
    InstantiateSolver_from k solvers s = Ret p s' ->
    (m_dirsList s' = m_dirsList s /\ m_availableUnits s' = m_availableUnits s /\
     m_availableSolvers s' = m_availableSolvers s /\ m_loadedUnits s' = m_loadedUnits s) /\
    instantiate_outcome m_loadedSolvers solvers k s p s'.
Proof.
  induction solvers as [|u rest IH]; intros s p s'; simpl.
  { intros [= <- <-]. split; [now repeat split |]. left. now repeat split. }
  destruct (String.eqb_spec (uniqueID u) k) as [Hk | Hk].
  2: { intros Hrun. destruct (IH _ _ _ Hrun) as (Hm & Ho). split; [exact Hm |].
       now apply (instantiate_outcome_after _ _ u k s s). }
  unfold bind at 1, LoadDyssolLibrary.
  set (h0 := os_open (fileLocation u)).
  destruct (N.eqb_spec h0 0) as [Hz | Hnz].
  { intros [= <- <-]. split; [now repeat split |]. left.
    repeat split; [rewrite live_objects_log; simpl; lia |].
    intros h Hne. rewrite open_count_log. simpl. rewrite Hz.
    destruct (N.eqb_spec 0 h); [congruence | lia]. }
  assert (Hfurther : forall p s',
    InstantiateSolver_from k rest
      (log (EvCloseLibrary h0) (log (EvLoadLibrary (fileLocation u) h0) s)) = Ret p s' ->
    (m_dirsList s' = m_dirsList s /\ m_availableUnits s' = m_availableUnits s /\
     m_availableSolvers s' = m_availableSolvers s /\ m_loadedUnits s' = m_loadedUnits s) /\
    instantiate_outcome m_loadedSolvers (u :: rest) k s p s').
  { intros q t Hrun. destruct (IH _ _ _ Hrun) as (Hm & Ho).
    destruct (seek_further_counts h0 (fileLocation u) s) as (Hobj & Hcnt).
    split; [exact Hm |].
    eapply instantiate_outcome_after; [| | exact Hobj | intros h _; apply Hcnt | exact Ho];
      reflexivity. }
  destruct (Nat.ltb SOLVERS_TYPES_NUMBER (solverType u)); [discriminate |].
  destruct (os_symbol_solver h0 (CREATE_SOLVER_FUN_NAMES (solverType u))) as [[[o|]|e]|].
  - intros [= <- <-]. split; [now repeat split |]. right. simpl.
    split; [reflexivity |]. split; [reflexivity |]. split.
    { rewrite !live_objects_app. simpl. lia. }
    exists u. split; [apply elem_of_cons; now left |].
    split; [exact Hk |]. split; [exact Hnz |]. split; [reflexivity |].
    intros h Hne. rewrite !open_count_app. simpl. fold h0. destruct (N.eqb h0 h); lia.
  - apply Hfurther.
  - discriminate.
  - apply Hfurther.
Qed.

(** X10: When [InstantiateUnit] or [InstantiateSolver] returns, the libraries
    are accounted for: with [nullptr] every library it loaded is closed
    again and the map of live instances is unchanged; with an instance,
    exactly the library of a descriptor with the key stays open once more,
    and it is the handle recorded for the new instance.  Directory list and
    descriptor caches are never touched. *)
Theorem Instantiate_accounts_for_libraries k s p s' :
  (InstantiateUnit k s = Ret p s' ->
     (m_dirsList s' = m_dirsList s /\ m_availableUnits s' = m_availableUnits s /\
      m_availableSolvers s' = m_availableSolvers s /\ m_loadedSolvers s' = m_loadedSolvers s) /\
     instantiate_outcome m_loadedUnits (m_availableUnits s) k s p s') /\
  (InstantiateSolver k s = Ret p s' ->
     (m_dirsList s' = m_dirsList s /\ m_availableUnits s' = m_availableUnits s /\
      m_availableSolvers s' = m_availableSolvers s /\ m_loadedUnits s' = m_loadedUnits s) /\
     instantiate_outcome m_loadedSolvers (m_availableSolvers s) k s p s').
Proof.
  split.
  - apply InstantiateUnit_from_outcome.
  - apply InstantiateSolver_from_outcome.
Qed.

(** X11: An unknown key: [InstantiateUnit] and [InstantiateSolver] return
    [nullptr] without loading any library and leave the state as it is. *)
Theorem Instantiate_unknown_key k s :
  (Forall (fun u => uniqueID u <> k) (m_availableUnits s) ->
     InstantiateUnit k s = Ret nullptr s) /\
  (Forall (fun v => uniqueID v <> k) (m_availableSolvers s) ->
     InstantiateSolver k s = Ret nullptr s).
Proof.
  split; [apply InstantiateUnit_unknown_key | apply InstantiateSolver_unknown_key].
Qed.

(** X12: Instantiating and freeing again, for units and for solvers: the map of
    live instances, the number of live objects and the number of times each
    library is open are what they were before; the new address was not in
    use. *)
Theorem Instantiate_then_Free k s p s' :
  heap_fresh s -> p <> nullptr ->
  (InstantiateUnit k s = Ret p s' ->
     m_loadedUnits s !! p = None /\ heap_fresh s' /\
     exists s'', FreeUnit p s' = Ret tt s'' /\
       m_loadedUnits s'' = m_loadedUnits s /\ m_loadedSolvers s'' = m_loadedSolvers s /\
       live_objects (trace s'') = live_objects (trace s) /\
       forall h, h <> 0%N -> open_count h (trace s'') = open_count h (trace s)) /\
  (InstantiateSolver k s = Ret p s' ->
     m_loadedSolvers s !! p = None /\ heap_fresh s' /\
     exists s'', FreeSolver p s' = Ret tt s'' /\
       m_loadedUnits s'' = m_loadedUnits s /\ m_loadedSolvers s'' = m_loadedSolvers s /\
       live_objects (trace s'') = live_objects (trace s) /\
       forall h, h <> 0%N -> open_count h (trace s'') = open_count h (trace s)).
Proof.
  intros (Hnz & Hfu & Hfv) Hp. split; intros Hrun.
  - destruct (InstantiateUnit_from_outcome _ _ _ _ _ Hrun) as ((_ & _ & _ & Hsol) & Ho).
    destruct Ho as [(-> & _) | (-> & Hh' & Hobj & u & _ & _ & Hopen & Hl & Hcnt)];
      [contradiction |].
    assert (Hnone : m_loadedUnits s !! heap_next s = None).
    { destruct (m_loadedUnits s !! heap_next s) as [h|] eqn:Hl0; [| reflexivity].
      apply Hfu in Hl0. lia. }
    split; [exact Hnone |]. split.
    { split; [rewrite Hh'; lia |]. split.
      - intros q h. rewrite Hl, Hh'. intros Hq.
        apply lookup_insert_Some in Hq as [(<- & _) | (_ & Hq)]; [lia |].
        apply Hfu in Hq. lia.
      - intros q h. rewrite Hsol, Hh'. intros Hq. apply Hfv in Hq. lia. }
    unfold FreeUnit, bind, get, modify, CloseDyssolLibrary, modify.
    destruct (N.eqb_spec (heap_next s) nullptr); [contradiction |].
    rewrite Hl, lookup_insert_eq. rewrite delete_object_live by assumption.
    eexists. split; [reflexivity |]. cbn [m_loadedUnits m_loadedSolvers with_loadedUnits log].
    split; [rewrite Hl; now apply delete_insert_id |]. split; [exact Hsol |]. split.
    + rewrite !live_objects_log. cbn [trace with_loadedUnits]. rewrite Hobj. simpl. lia.
    + intros h Hne. rewrite !open_count_log. cbn [trace with_loadedUnits].
      rewrite (Hcnt h Hne). simpl. destruct (N.eqb _ h); lia.
  - destruct (InstantiateSolver_from_outcome _ _ _ _ _ Hrun) as ((_ & _ & _ & Hun) & Ho).
    destruct Ho as [(-> & _) | (-> & Hh' & Hobj & u & _ & _ & Hopen & Hl & Hcnt)];
      [contradiction |].
    assert (Hnone : m_loadedSolvers s !! heap_next s = None).
    { destruct (m_loadedSolvers s !! heap_next s) as [h|] eqn:Hl0; [| reflexivity].
      apply Hfv in Hl0. lia. }
    split; [exact Hnone |]. split.
    { split; [rewrite Hh'; lia |]. split.
      - intros q h. rewrite Hun, Hh'. intros Hq. apply Hfu in Hq. lia.
      - intros q h. rewrite Hl, Hh'. intros Hq.
        apply lookup_insert_Some in Hq as [(<- & _) | (_ & Hq)]; [lia |].
        apply Hfv in Hq. lia. }
    unfold FreeSolver, bind, get, modify, CloseDyssolLibrary, modify.
    destruct (N.eqb_spec (heap_next s) nullptr); [contradiction |].
    rewrite Hl, lookup_insert_eq. rewrite delete_object_live by assumption.
    eexists. split; [reflexivity |]. cbn [m_loadedUnits m_loadedSolvers with_loadedSolvers log].
    split; [exact Hun |]. split; [rewrite Hl; now apply delete_insert_id |]. split.
    + rewrite !live_objects_log. cbn [trace with_loadedSolvers]. rewrite Hobj. simpl. lia.
    + intros h Hne. rewrite !open_count_log. cbn [trace with_loadedSolvers].
      rewrite (Hcnt h Hne). simpl. destruct (N.eqb _ h); lia.
Qed.

(** X13: [Clear] empties the directory list and both descriptor caches and
    leaves the live instances alone: afterwards no key instantiates, and
    an instance created before is still freed with its library. *)
Theorem Clear_effect s :
  exists s', Clear s = Ret tt s' /\
    DirsNumber s' = 0 /\ GetAvailableUnits s' = [] /\ GetAvailableSolvers s' = [] /\
    m_loadedUnits s' = m_loadedUnits s /\ m_loadedSolvers s' = m_loadedSolvers s /\
    trace s' = trace s /\
    (forall k, InstantiateUnit k s' = Ret nullptr s') /\
    (forall k, InstantiateSolver k s' = Ret nullptr s') /\
    (forall p, FreeUnit p s' = match FreeUnit p s with
                               | Ret _ t => Ret tt (with_solvers [] (with_units [] (with_dirs [] t)))
                               | Raise e t => Raise e t
                               | NullDeref t => NullDeref t
                               end).
Proof.
  eexists. split; [reflexivity |]. repeat split.
  intros p. unfold FreeUnit, bind, get. destruct (N.eqb p nullptr); [reflexivity |].
  simpl. destruct (m_loadedUnits s !! p); [| reflexivity].
  unfold delete_object. destruct (N.eqb p nullptr); reflexivity.
Qed.

(** *** What a plug-in can do to a directory operation *)

Lemma returns_ret {A} (a : A) : always_returns (ret a).
Proof. intros s. eexists _, _. reflexivity. Qed.

Lemma returns_bind {A B} (c : M A) (k : A -> M B) :
  always_returns c -> (forall a, always_returns (k a)) -> always_returns (bind c k).
Proof.
  intros Hc Hk s. unfold bind. destruct (Hc s) as (a & s1 & ->). apply Hk.
Qed.

Lemma returns_modify f : always_returns (modify f).
Proof. intros s. eexists _, _. reflexivity. Qed.

Lemma returns_get : always_returns get.
Proof. intros s. eexists _, _. reflexivity. Qed.

Lemma returns_for_each {A} (l : list A) body :
  (forall x, always_returns (body x)) -> always_returns (for_each l body).
Proof.
  intros Hb. induction l as [|x l IH]; simpl; [apply returns_ret |].
  apply returns_bind; [apply Hb | intros _; exact IH].
Qed.

Lemma returns_fold_for {A S} (l : list A) (body : A -> S -> M S) acc :
  (forall x a, always_returns (body x a)) -> always_returns (fold_for l body acc).
Proof.
  intros Hb. revert acc. induction l as [|x l IH]; intros acc; simpl; [apply returns_ret |].
  apply returns_bind; [apply Hb | intros a; apply IH].
Qed.

Lemma returns_delete_object p : always_returns (delete_object p).
Proof. intros s. destruct (delete_object_returns p s) as (s' & ->). eexists _, _. reflexivity. Qed.

Lemma returns_LoadDyssolLibrary f : always_returns (LoadDyssolLibrary f).
Proof. intros s. eexists _, _. reflexivity. Qed.

Lemma returns_CloseDyssolLibrary h : always_returns (CloseDyssolLibrary h).
Proof. apply returns_modify. Qed.

Create HintDb returning.
#[local] Hint Resolve returns_ret returns_modify returns_get returns_delete_object
  returns_LoadDyssolLibrary returns_CloseDyssolLibrary : returning.

Lemma returns_TryGetUnitDescriptor f lib :
  tame_plugins -> always_returns (TryGetUnitDescriptor f lib).
Proof.
  intros (Hu & _). specialize (Hu lib). unfold TryGetUnitDescriptor.
  destruct (os_symbol_unit lib DYSSOL_CREATE_MODEL_FUN_NAME) as [[[o|]|[|]]|];
    simpl in Hu; try contradiction; auto with returning.
  - intros s. unfold bind at 1, try_catch_logic_error, construct.
    destruct (negb _); apply returns_bind; auto with returning.
  - intros s. eexists _, _. reflexivity.
Qed.

Lemma returns_solver_types_loop f lib types :
  tame_plugins -> forall d p, always_returns (solver_types_loop f lib types d p).
Proof.
  intros (_ & Hv). induction types as [|i rest IH]; intros d p; simpl; [apply returns_ret |].
  specialize (Hv lib i).
  destruct (os_symbol_solver lib (CREATE_SOLVER_FUN_NAMES i)) as [[[o|]|[|]]|];
    simpl in Hv; try contradiction; auto.
  - intros s. unfold bind, try_catch_logic_error, construct.
    destruct (negb _); [apply IH |]. destruct (describe_solver f o); [| apply IH].
    eexists _, _. reflexivity.
  - intros s. unfold bind, try_catch_logic_error, construct. apply IH.
Qed.

Lemma returns_TryGetSolverDescriptor f lib :
  tame_plugins -> always_returns (TryGetSolverDescriptor f lib).
Proof.
  intros Ht. unfold TryGetSolverDescriptor.
  apply returns_bind; [now apply returns_solver_types_loop |]. intros r.
  apply returns_bind; auto with returning.
Qed.

Lemma returns_GetAllModelsInDir d : tame_plugins -> always_returns (GetAllModelsInDir d).
Proof.
  intros Ht. unfold GetAllModelsInDir. apply returns_fold_for. intros f res.
  apply returns_bind; auto with returning. intros lib.
  destruct (N.eqb lib 0); auto with returning.
  apply returns_bind; [now apply returns_TryGetUnitDescriptor |]. intros u.
  apply returns_bind.
  - destruct (descriptor_bool _ u); auto with returning.
    apply returns_bind; [now apply returns_TryGetSolverDescriptor |]. intros v.
    destruct (descriptor_bool _ v); auto with returning.
  - intros r. apply returns_bind; auto with returning.
Qed.

Lemma returns_GetModelsList d : tame_plugins -> always_returns (GetModelsList d).
Proof.
  intros Ht. unfold GetModelsList.
  apply returns_bind; [now apply returns_GetAllModelsInDir |].
  intros [[|u us] [|v vs]]; auto with returning. now apply returns_GetAllModelsInDir.
Qed.

Lemma returns_scan_dir i : tame_plugins -> always_returns (scan_dir i).
Proof.
  intros Ht. unfold scan_dir. apply returns_bind; auto with returning. intros s.
  destruct (m_dirsList s !! i) as [d|]; auto with returning.
  destruct (_ && _); auto with returning.
  apply returns_bind; [now apply returns_GetModelsList |]. intros found.
  repeat (apply returns_bind; [apply returns_modify | intros _]). apply returns_modify.
Qed.

Lemma returns_UpdateAvailableModels : tame_plugins -> always_returns UpdateAvailableModels.
Proof.
  intros Ht. unfold UpdateAvailableModels.
  do 2 (apply returns_bind; [apply returns_modify | intros _]).
  apply returns_bind; [apply returns_get |]. intros s.
  apply returns_bind; [apply returns_for_each; intros i; now apply returns_scan_dir | intros _].
  repeat (apply returns_bind; [apply returns_modify | intros _]). apply returns_modify.
Qed.

(** X14: With plug-ins whose factories throw nothing but [std::logic_error] and
    never return [nullptr], the reconciliation and every directory
    operation return, from every state. *)
Theorem tame_plugins_always_return :
  tame_plugins ->
  always_returns UpdateAvailableModels /\
  (forall f a, always_returns (AddDir f a)) /\
  (forall i, always_returns (RemoveDir i)) /\
  (forall i, always_returns (UpDir i)) /\
  (forall i, always_returns (DownDir i)) /\
  (forall i a, always_returns (SetDirActivity i a)).
Proof.
  intros Ht. pose proof (returns_UpdateAvailableModels Ht) as Hup.
  assert (Hthen : forall (f : CModelsManager -> CModelsManager) (b : bool),
            always_returns (modify f ;; UpdateAvailableModels ;; ret b)).
  { intros f b. apply returns_bind; [apply returns_modify | intros _].
    apply returns_bind; [exact Hup | intros _; apply returns_ret]. }
  split; [exact Hup |]. split; [| split; [| split; [| split]]].
  - intros f a. unfold AddDir. apply returns_bind; [apply returns_get |]. intros s.
    destruct (existsb _ _); [apply returns_ret | apply Hthen].
  - intros i. unfold RemoveDir. apply returns_bind; [apply returns_get |]. intros s.
    destruct (Nat.leb _ _); [apply returns_ret | apply Hthen].
  - intros i. unfold UpDir. apply returns_bind; [apply returns_get |]. intros s.
    destruct (_ || _); [apply returns_ret | apply Hthen].
  - intros i. unfold DownDir. apply returns_bind; [apply returns_get |]. intros s.
    destruct (_ || _); [apply returns_ret | apply Hthen].
  - intros i a. unfold SetDirActivity. apply returns_bind; [apply returns_get |]. intros s.
    destruct (Nat.leb _ _); [apply returns_ret |].
    apply returns_bind; [apply returns_modify | intros _; exact Hup].
Qed.

Lemma contains_ret {A} (a : A) : contains_logic_error (ret a).
Proof. intros s e s' [=]. Qed.

Lemma contains_bind {A B} (c : M A) (k : A -> M B) :
  contains_logic_error c -> (forall a, contains_logic_error (k a)) ->
  contains_logic_error (bind c k).
Proof.
  intros Hc Hk s e s'. unfold bind. destruct (c s) as [a s1|e1 s1|s1] eqn:Hcs.
  - apply Hk.
  - intros [= <- <-]. eapply Hc, Hcs.
  - discriminate.
Qed.

Lemma contains_modify f : contains_logic_error (modify f).
Proof. intros s e s' [=]. Qed.

Lemma contains_get : contains_logic_error get.
Proof. intros s e s' [=]. Qed.

Lemma contains_null_deref {A} : contains_logic_error (@null_deref A).
Proof. intros s e s' [=]. Qed.

Lemma contains_delete_object p : contains_logic_error (delete_object p).
Proof. intros s e s'. destruct (delete_object_returns p s) as (t & ->). discriminate. Qed.

Lemma contains_LoadDyssolLibrary f : contains_logic_error (LoadDyssolLibrary f).
Proof. intros s e s' [=]. Qed.

Lemma contains_CloseDyssolLibrary h : contains_logic_error (CloseDyssolLibrary h).
Proof. apply contains_modify. Qed.

Lemma contains_try_catch {A} (c : M A) : contains_logic_error (try_catch_logic_error c).
Proof.
  intros s e s'. unfold try_catch_logic_error.
  destruct (c s) as [a s1|[|] s1|s1]; intros [=]; congruence.
Qed.

Lemma contains_for_each {A} (l : list A) body :
  (forall x, contains_logic_error (body x)) -> contains_logic_error (for_each l body).
Proof.
  intros Hb. induction l as [|x l IH]; simpl; [apply contains_ret |].
  apply contains_bind; [apply Hb | intros _; exact IH].
Qed.

Lemma contains_fold_for {A S} (l : list A) (body : A -> S -> M S) acc :
  (forall x a, contains_logic_error (body x a)) -> contains_logic_error (fold_for l body acc).
Proof.
  intros Hb. revert acc. induction l as [|x l IH]; intros acc; simpl; [apply contains_ret |].
  apply contains_bind; [apply Hb | intros a; apply IH].
Qed.

Create HintDb containing.
#[local] Hint Resolve contains_ret contains_modify contains_get contains_null_deref
  contains_delete_object contains_LoadDyssolLibrary contains_CloseDyssolLibrary
  contains_try_catch : containing.

Lemma contains_TryGetUnitDescriptor f lib : contains_logic_error (TryGetUnitDescriptor f lib).
Proof.
  unfold TryGetUnitDescriptor.
  destruct (os_symbol_unit lib DYSSOL_CREATE_MODEL_FUN_NAME) as [create|]; auto with containing.
  apply contains_bind; auto with containing.
  intros [[[p u]|]|]; auto with containing.
  destruct (negb _); apply contains_bind; auto with containing.
Qed.

Lemma contains_solver_types_loop f lib types :
  forall d p, contains_logic_error (solver_types_loop f lib types d p).
Proof.
  induction types as [|i rest IH]; intros d p; simpl; auto with containing.
  destruct (os_symbol_solver lib (CREATE_SOLVER_FUN_NAMES i)) as [create|]; auto.
  apply contains_bind; auto with containing.
  intros [[[q v]|]|]; auto with containing.
  destruct (negb _); auto. destruct (describe_solver f v); auto with containing.
Qed.

Lemma contains_GetAllModelsInDir d : contains_logic_error (GetAllModelsInDir d).
Proof.
  unfold GetAllModelsInDir. apply contains_fold_for. intros f res.
  apply contains_bind; auto with containing. intros lib.
  destruct (N.eqb lib 0); auto with containing.
  apply contains_bind; [apply contains_TryGetUnitDescriptor |]. intros u.
  apply contains_bind.
  - destruct (descriptor_bool _ u); auto with containing.
    apply contains_bind.
    + unfold TryGetSolverDescriptor.
      apply contains_bind; [apply contains_solver_types_loop |]. intros r.
      apply contains_bind; auto with containing.
    + intros v. destruct (descriptor_bool _ v); auto with containing.
  - intros r. apply contains_bind; auto with containing.
Qed.

Lemma contains_scan_dir i : contains_logic_error (scan_dir i).
Proof.
  unfold scan_dir. apply contains_bind; auto with containing. intros s.
  destruct (m_dirsList s !! i) as [d|]; auto with containing.
  destruct (_ && _); auto with containing.
  apply contains_bind.
  - unfold GetModelsList. apply contains_bind; [apply contains_GetAllModelsInDir |].
    intros [[|u us] [|v vs]]; auto with containing. apply contains_GetAllModelsInDir.
  - intros found.
    repeat (apply contains_bind; [apply contains_modify | intros _]). apply contains_modify.
Qed.

Lemma entries_kept_refl s : entries_kept s s.
Proof. now repeat split. Qed.

Lemma entries_kept_trans s1 s2 s3 :
  entries_kept s1 s2 -> entries_kept s2 s3 -> entries_kept s1 s3.
Proof.
  intros (A1 & A2 & A3 & A4 & A5) (B1 & B2 & B3 & B4 & B5).
  repeat split; congruence.
Qed.

Lemma keeps_bind {A B} (c : M A) (k : A -> M B) :
  keeps_entries c -> (forall a, keeps_entries (k a)) -> keeps_entries (bind c k).
Proof.
  intros Hc Hk s. unfold bind. specialize (Hc s).
  destruct (c s) as [a s1|e s1|s1]; simpl in *; try assumption.
  eapply entries_kept_trans; [exact Hc | apply Hk].
Qed.

Lemma keeps_probing {A} (c : M A) : probing c -> keeps_entries c.
Proof.
  intros Hc s. destruct (Hc s) as (Hd & _ & _ & Hu & Hv).
  unfold entries_kept. rewrite Hd. now repeat split.
Qed.

Lemma keeps_modify f :
  (forall s, entries_kept s (f s)) -> keeps_entries (modify f).
Proof. intros Hf s. apply Hf. Qed.

Lemma keeps_for_each {A} (l : list A) body :
  (forall x, keeps_entries (body x)) -> keeps_entries (for_each l body).
Proof.
  intros Hb. induction l as [|x l IH]; simpl; [intros s; apply entries_kept_refl |].
  apply keeps_bind; [apply Hb | intros _; exact IH].
Qed.

Lemma keeps_scan_dir i : keeps_entries (scan_dir i).
Proof.
  intros s. unfold scan_dir, bind at 1, get.
  destruct (m_dirsList s !! i) as [d|] eqn:Hd; [| apply entries_kept_refl].
  destruct (_ && _); [| apply entries_kept_refl].
  unfold bind at 1. pose proof (probing_GetModelsList (dir_path d) s) as Hp.
  destruct (GetModelsList (dir_path d) s) as [found s1|e s1|s1]; cbn [final] in Hp;
    destruct Hp as (H1 & _ & _ & H4 & H5).
  2, 3: unfold entries_kept; simpl; rewrite H1; now repeat split.
  unfold bind, modify. cbn [final]. unfold entries_kept. simpl. rewrite H1.
  rewrite !map_fmap, !list_fmap_insert. simpl.
  rewrite !list_insert_id by (rewrite list_lookup_fmap, Hd; reflexivity).
  now repeat split.
Qed.

Lemma keeps_reposition_steps idx s :
  entries_kept s (fold_left reposition_step idx s).
Proof.
  revert s. induction idx as [|i idx IH]; intros s; simpl; [apply entries_kept_refl |].
  eapply entries_kept_trans; [| apply IH].
  unfold reposition_step. destruct (m_dirsList s !! i); now repeat split.
Qed.

Lemma keeps_UpdateAvailableModels : keeps_entries UpdateAvailableModels.
Proof.
  unfold UpdateAvailableModels.
  do 2 (apply keeps_bind; [apply keeps_modify; intros s; now repeat split | intros _]).
  apply keeps_bind; [intros s; apply entries_kept_refl |]. intros s0.
  apply keeps_bind; [apply keeps_for_each; intros i; apply keeps_scan_dir | intros _].
  apply keeps_bind; [apply keeps_modify; intros s; apply keeps_reposition_steps | intros _].
  apply keeps_bind; [apply keeps_modify; intros s; now repeat split | intros _].
  apply keeps_modify; intros s; now repeat split.
Qed.

(** X15: Whatever a plug-in does during the reconciliation: a [std::logic_error]
    never leaves it, and when it returns or is left by an exception the
    directory entries have kept their keys, paths and activities, and the
    live instances are untouched. *)
Theorem UpdateAvailableModels_whatever_plugins_do s :
  (forall e s', UpdateAvailableModels s = Raise e s' ->
     e = other_exception /\ entries_kept s s') /\
  (forall s', UpdateAvailableModels s = Ret tt s' -> entries_kept s s').
Proof.
  pose proof (keeps_UpdateAvailableModels s) as Hk.
  split; [| intros s' Hrun; now rewrite Hrun in Hk].
  intros e s' Hrun. split; [| now rewrite Hrun in Hk]. clear Hk.
  revert s e s' Hrun. change (contains_logic_error UpdateAvailableModels).
  unfold UpdateAvailableModels.
  do 2 (apply contains_bind; [apply contains_modify | intros _]).
  apply contains_bind; [apply contains_get |]. intros s.
  apply contains_bind; [apply contains_for_each; intros i; apply contains_scan_dir | intros _].
  repeat (apply contains_bind; [apply contains_modify | intros _]). apply contains_modify.
Qed.

(** *** Probing a library *)

Lemma solver_types_loop_objects f lib types :
  forall d p s r s',
    heap_next s <> 0%N ->
    solver_types_loop f lib types d p s = Ret r s' ->
    exists n : nat,
      n <= length types /\
      heap_next s' = (heap_next s + N.of_nat n)%N /\
      live_objects (trace s') = (live_objects (trace s) + Z.of_nat n)%Z /\
      (n = 0 -> snd r = p) /\ (0 < n -> snd r <> nullptr).
Proof.
  induction types as [|i rest IH]; intros d p s r s' Hh; simpl.
  { intros [= <- <-]. exists 0. simpl. repeat split; try lia. }
  assert (Hskip : forall d, solver_types_loop f lib rest d p s = Ret r s' ->
    exists n : nat, n <= S (length rest) /\
      heap_next s' = (heap_next s + N.of_nat n)%N /\
      live_objects (trace s') = (live_objects (trace s) + Z.of_nat n)%Z /\
      (n = 0 -> snd r = p) /\ (0 < n -> snd r <> nullptr)).
  { intros d0 Hrun. destruct (IH _ _ _ _ _ Hh Hrun) as (n & Hn & H1 & H2 & H3 & H4).
    exists n. repeat split; auto; lia. }
  destruct (os_symbol_solver lib (CREATE_SOLVER_FUN_NAMES i)) as [[[v|]|[|]]|];
    try (apply Hskip); unfold bind, try_catch_logic_error, construct; try discriminate;
    try (apply Hskip).
  set (s1 := log (EvConstruct (heap_next s)) (with_heap (N.succ (heap_next s)) s)).
  assert (Hh1 : heap_next s1 <> 0%N) by (simpl; lia).
  assert (Hnext : forall d, solver_types_loop f lib rest d (heap_next s) s1 = Ret r s' ->
    exists n : nat, n <= S (length rest) /\
      heap_next s' = (heap_next s + N.of_nat n)%N /\
      live_objects (trace s') = (live_objects (trace s) + Z.of_nat n)%Z /\
      (n = 0 -> snd r = p) /\ (0 < n -> snd r <> nullptr)).
  { intros d0 Hrun. destruct (IH _ _ _ _ _ Hh1 Hrun) as (n & Hn & H1 & H2 & H3 & H4).
    exists (S n). split; [lia |]. split; [rewrite H1; simpl; lia |]. split.
    - rewrite H2. unfold s1. rewrite live_objects_log. simpl. lia.
    - split; [lia |]. intros _. destruct n as [|n]; [rewrite H3 by reflexivity | apply H4; lia].
      exact Hh. }
  destruct (negb _); [apply Hnext |].
  destruct (describe_solver f v) as [d1|]; [| apply Hnext].
  intros [= <- <-]. exists 1. split; [lia |]. split; [simpl; lia |]. split.
  - unfold s1. rewrite live_objects_log. simpl. lia.
  - split; [lia |]. intros _. exact Hh.
Qed.

(** X16: What a probe leaves behind when it returns: [TryGetUnitDescriptor] has
    deleted the instance it constructed; [TryGetSolverDescriptor] has
    deleted one of the [n] instances it constructed, the last, so that
    [n - 1] stay alive when the library exports the factories of several
    solver types. *)
Theorem probe_deletes_one_instance f lib s :
  heap_next s <> 0%N ->
  (forall d s', TryGetUnitDescriptor f lib s = Ret d s' ->
     live_objects (trace s') = live_objects (trace s)) /\
  (forall d s', TryGetSolverDescriptor f lib s = Ret d s' ->
     exists n : nat,
       n <= SOLVERS_TYPES_NUMBER /\
       heap_next s' = (heap_next s + N.of_nat n)%N /\
       live_objects (trace s') = (live_objects (trace s) + Z.of_nat (n - 1))%Z).
Proof.
  intros Hh. split.
  - intros d s'. unfold TryGetUnitDescriptor.
    destruct (os_symbol_unit lib DYSSOL_CREATE_MODEL_FUN_NAME) as [[[u|]|[|]]|];
      unfold bind, try_catch_logic_error, construct; try discriminate;
      try (intros [= <- <-]; reflexivity).
    destruct (negb _); rewrite delete_object_live by exact Hh;
      intros [= _ <-]; rewrite !live_objects_log; simpl; lia.
  - intros d s'. unfold TryGetSolverDescriptor. unfold bind at 1.
    destruct (solver_types_loop f lib (seq 1 SOLVERS_TYPES_NUMBER) no_solver nullptr s)
      as [r s1|e s1|s1] eqn:Hloop; try discriminate.
    destruct (solver_types_loop_objects _ _ _ _ _ _ _ _ Hh Hloop)
      as (n & Hn & H1 & H2 & H3 & H4).
    rewrite length_seq in Hn. exists n. split; [exact Hn |].
    unfold bind in H. revert H. unfold bind. destruct n as [|n].
    + rewrite H3 by reflexivity. unfold delete_object. simpl.
      intros [= _ <-]. split; [rewrite H1; simpl; lia | rewrite H2; simpl; lia].
    + rewrite delete_object_live by (apply H4; lia).
      intros [= _ <-]. split; [exact H1 |].
      rewrite live_objects_log, H2. simpl. lia.
Qed.

Lemma describe_unit_location f u :
  describe_unit f u = no_unit \/ fileLocation (describe_unit f u) = UnifyPath f.
Proof.
  unfold describe_unit.
  destruct (unit_GetUniqueID u), (unit_GetUnitName u), (unit_GetAuthorName u),
    (unit_GetUnitVersion u), (unit_IsDynamicUnit u); auto.
Qed.

Lemma describe_solver_location f v d :
  describe_solver f v = Some d -> fileLocation d = UnifyPath f.
Proof.
  unfold describe_solver.
  destruct (solver_GetUniqueID v), (solver_GetName v), (solver_GetAuthorName v),
    (solver_GetVersion v), (solver_GetType v); intros [= <-]; reflexivity.
Qed.

Lemma TryGetUnitDescriptor_of_instance f lib o s d s' :
  os_symbol_unit lib DYSSOL_CREATE_MODEL_FUN_NAME = Some (returns (Some o)) ->
  unit_nCompilerVer o = COMPILER_VERSION ->
  TryGetUnitDescriptor f lib s = Ret d s' -> d = describe_unit f o.
Proof.
  intros Hsym Hver. unfold TryGetUnitDescriptor. rewrite Hsym.
  unfold bind, try_catch_logic_error, construct. rewrite Hver, Z.eqb_refl. simpl.
  destruct (delete_object_returns (heap_next s)
              (log (EvConstruct (heap_next s)) (with_heap (N.succ (heap_next s)) s)))
    as (t & ->).
  now intros [= <- _].
Qed.

Lemma lists_of_files_bounds files us vs :
  lists_of_files files us vs ->
  Forall (fun d => exists f, f ∈ files /\ unit_of_file f d) us /\
  Forall (fun d => exists f, f ∈ files /\ solver_of_file f d) vs /\
  sublist (map fileLocation us) (map UnifyPath files) /\
  sublist (map fileLocation vs) (map UnifyPath files) /\
  length us + length vs <= length files.
Proof.
  induction 1 as [|f fs us vs _ IH|f fs u us vs Hu _ IH|f fs v us vs Hv _ _ IH].
  - repeat split; constructor.
  - destruct IH as (Fu & Fv & Su & Sv & Hl).
    assert (Hweak : forall K (P : path -> SModelDescriptor K -> Prop) l,
              Forall (fun d => exists f0, f0 ∈ fs /\ P f0 d) l ->
              Forall (fun d => exists f0, f0 ∈ f :: fs /\ P f0 d) l).
    { intros K P l Hall. eapply Forall_impl; [exact Hall |]. intros d (f0 & Hf0 & Hd).
      exists f0. split; [apply elem_of_cons; now right | exact Hd]. }
    split; [now apply Hweak |]. split; [now apply Hweak |].
    simpl. split; [now apply sublist_cons |]. split; [now apply sublist_cons | lia].
  - destruct IH as (Fu & Fv & Su & Sv & Hl).
    assert (Hweak : forall K (P : path -> SModelDescriptor K -> Prop) l,
              Forall (fun d => exists f0, f0 ∈ fs /\ P f0 d) l ->
              Forall (fun d => exists f0, f0 ∈ f :: fs /\ P f0 d) l).
    { intros K P l Hall. eapply Forall_impl; [exact Hall |]. intros d (f0 & Hf0 & Hd).
      exists f0. split; [apply elem_of_cons; now right | exact Hd]. }
    split.
    { constructor; [| now apply Hweak]. exists f. split; [apply elem_of_cons; now left | exact Hu]. }
    split; [now apply Hweak |]. simpl. split.
    { destruct Hu as (_ & -> & _). now apply sublist_skip. }
    split; [now apply sublist_cons | lia].
  - destruct IH as (Fu & Fv & Su & Sv & Hl).
    assert (Hweak : forall K (P : path -> SModelDescriptor K -> Prop) l,
              Forall (fun d => exists f0, f0 ∈ fs /\ P f0 d) l ->
              Forall (fun d => exists f0, f0 ∈ f :: fs /\ P f0 d) l).
    { intros K P l Hall. eapply Forall_impl; [exact Hall |]. intros d (f0 & Hf0 & Hd).
      exists f0. split; [apply elem_of_cons; now right | exact Hd]. }
    split; [now apply Hweak |]. split.
    { constructor; [| now apply Hweak]. exists f. split; [apply elem_of_cons; now left | exact Hv]. }
    simpl. split; [now apply sublist_cons |]. split; [| lia].
    destruct Hv as (_ & -> & _). now apply sublist_skip.
Qed.

Lemma GetAllModelsInDir_loop (Hempty : forall K k, descriptor_bool K (empty_descriptor k) = false)
    files :
  forall acc s res s',
    fold_for files
      (fun f (res : models) =>
         do lib <- LoadDyssolLibrary f;
         if N.eqb lib 0 then ret res
         else
           do unit <- TryGetUnitDescriptor f lib;
           do res' <-
             (if descriptor_bool _ unit then ret (fst res ++ [unit], snd res)
              else
                do solver <- TryGetSolverDescriptor f lib;
                if descriptor_bool _ solver then ret (fst res, snd res ++ [solver])
                else ret res);
           CloseDyssolLibrary lib ;;
           ret res')
      acc s = Ret res s' ->
    exists us vs,
      res = (fst acc ++ us, snd acc ++ vs) /\ lists_of_files files us vs.
Proof.
  induction files as [|f files IH]; intros acc s res s'; simpl.
  { intros [= <- _]. exists [], []. rewrite !app_nil_r. destruct acc.
    split; [reflexivity | constructor]. }
  match goal with |- context [fold_for files ?b] => set (body := b) end.
  assert (Hstay : forall t, fold_for files body acc t = Ret res s' ->
    exists us vs,
      res = (fst acc ++ us, snd acc ++ vs) /\ lists_of_files (f :: files) us vs).
  { intros t Hrun. destruct (IH _ _ _ _ Hrun) as (us & vs & -> & Hl).
    exists us, vs. split; [reflexivity | now apply file_skipped]. }
  intros Hrun. apply bind_inv in Hrun as (res1 & t1 & Hbody & Hrest).
  apply bind_inv in Hbody as (lib & t0 & Hload & Hb). injection Hload as <- <-.
  destruct (N.eqb_spec (os_open f) 0) as [Hz | Hopen].
  { injection Hb as <- <-. eapply Hstay, Hrest. }
  apply bind_inv in Hb as (u & s1 & Hprobe & Hb).
  apply bind_inv in Hb as (res' & s2 & Hsel & Hb).
  apply bind_inv in Hb as (x & s3 & _ & Hb). injection Hb as <- <-.
  pose proof (TryGetUnitDescriptor_source _ _ _ _ _ Hprobe) as Hsource.
  destruct (descriptor_bool bool u) eqn:Hbu.
  - injection Hsel as <- <-.
    destruct (IH _ _ _ _ Hrest) as (us & vs & -> & Hl).
    assert (Hfrom : unit_of_file f u).
    { destruct Hsource as [-> | (o & Hsym & Hver & ->)].
      { unfold no_unit in Hbu. now rewrite Hempty in Hbu. }
      split; [exact Hopen |]. split; [| eauto].
      destruct (describe_unit_location f o) as [Hn | Hloc]; [| exact Hloc].
      rewrite Hn in Hbu. unfold no_unit in Hbu. now rewrite Hempty in Hbu. }
    exists (u :: us), vs. simpl. rewrite <- app_assoc. simpl.
    split; [reflexivity | now apply file_unit].
  - apply bind_inv in Hsel as (v & s4 & Hprobe2 & Hsel).
    apply TryGetSolverDescriptor_source in Hprobe2.
    destruct (descriptor_bool nat v) eqn:Hbv.
    + injection Hsel as <- <-.
      destruct (IH _ _ _ _ Hrest) as (us & vs & -> & Hl).
      assert (Hfrom : solver_of_file f v).
      { destruct Hprobe2 as [-> | (i & o & Hi & Hsym & Hver & Hd)].
        { unfold no_solver in Hbv. now rewrite Hempty in Hbv. }
        split; [exact Hopen |]. split; [now apply describe_solver_location with o |].
        eauto 6. }
      assert (Hno_unit : forall u0, unit_of_file f u0 -> descriptor_bool bool u0 = false).
      { intros u0 (_ & _ & o & Hsym & Hver & ->).
        now rewrite <- (TryGetUnitDescriptor_of_instance _ _ _ _ _ _ Hsym Hver Hprobe). }
      exists us, (v :: vs). simpl. rewrite <- app_assoc. simpl.
      split; [reflexivity | now apply file_solver].
    + injection Hsel as <- <-. eapply Hstay, Hrest.
Qed.

Lemma GetAllModelsInDir_lists (Hempty : forall K k, descriptor_bool K (empty_descriptor k) = false)
    dir s us vs s' :
  GetAllModelsInDir dir s = Ret (us, vs) s' -> lists_of_files (FilesList dir) us vs.
Proof.
  intros Hrun. unfold GetAllModelsInDir in Hrun.
  destruct (GetAllModelsInDir_loop Hempty _ _ _ _ _ Hrun) as (us' & vs' & Heq & H).
  simpl in Heq. injection Heq as -> ->. exact H.
Qed.

(** X17: What [GetAllModelsInDir] lists, when it returns and the empty
    descriptor converts to [false].  It goes through the files of the
    directory in their order, and every file gives nothing, one unit, or -
    only when it gives no unit - one solver: never a unit and a solver.
    Every listed descriptor comes from a file that loads, of an instance
    with the host's compiler version; so both lists follow the order of the
    files, and together they are no longer than the list of files. *)
Theorem GetAllModelsInDir_lists_files dir s us vs s' :
  (forall K k, descriptor_bool K (empty_descriptor k) = false) ->
  GetAllModelsInDir dir s = Ret (us, vs) s' ->
  lists_of_files (FilesList dir) us vs /\
  Forall (fun d => exists f, f ∈ FilesList dir /\ unit_of_file f d) us /\
  Forall (fun d => exists f, f ∈ FilesList dir /\ solver_of_file f d) vs /\
  sublist (map fileLocation us) (map UnifyPath (FilesList dir)) /\
  sublist (map fileLocation vs) (map UnifyPath (FilesList dir)) /\
  length us + length vs <= length (FilesList dir).
Proof.
  intros Hempty Hrun. pose proof (GetAllModelsInDir_lists Hempty _ _ _ _ _ Hrun) as Hl.
  split; [exact Hl | now apply lists_of_files_bounds].
Qed.

(** X21: [GetModelsList] lists the models of one directory: what
    [GetAllModelsInDir] lists for the path taken as absolute when that is
    anything, and otherwise what it lists for the path below the directory
    of the executable; the two are never mixed.  In both cases every file
    of that directory gives nothing, one unit, or - only when it gives no
    unit - one solver. *)
Theorem GetModelsList_lists_one_directory dir s us vs s' :
  (forall K k, descriptor_bool K (empty_descriptor k) = false) ->
  GetModelsList dir s = Ret (us, vs) s' ->
  exists d,
    (d = AbsolutePath dir /\ (us, vs) <> ([], []) /\
     GetAllModelsInDir d s = Ret (us, vs) s' \/
     d = AbsolutePath (String.append ExecutableDirPath (String.append "/" dir)) /\
     exists s1, GetAllModelsInDir (AbsolutePath dir) s = Ret ([], []) s1 /\
                GetAllModelsInDir d s1 = Ret (us, vs) s') /\
    lists_of_files (FilesList d) us vs /\
    Forall (fun u => exists f, f ∈ FilesList d /\ unit_of_file f u) us /\
    Forall (fun v => exists f, f ∈ FilesList d /\ solver_of_file f v) vs /\
    length us + length vs <= length (FilesList d).
Proof.
  intros Hempty Hrun. unfold GetModelsList in Hrun.
  apply bind_inv in Hrun as (found & s1 & Habs & Hrest).
  assert (Hfrom : forall d t t' us vs,
    GetAllModelsInDir d t = Ret (us, vs) t' ->
    lists_of_files (FilesList d) us vs /\
    Forall (fun u => exists f, f ∈ FilesList d /\ unit_of_file f u) us /\
    Forall (fun v => exists f, f ∈ FilesList d /\ solver_of_file f v) vs /\
    length us + length vs <= length (FilesList d)).
  { intros d t t' us0 vs0 H. pose proof (GetAllModelsInDir_lists Hempty _ _ _ _ _ H) as Hl.
    split; [exact Hl |].
    destruct (lists_of_files_bounds _ _ _ Hl) as (Hu & Hv & _ & _ & Hlen). auto. }
  destruct found as [[|u us0] [|v vs0]].
  - eexists. split; [right; split; [reflexivity | eauto] |]. eapply Hfrom, Hrest.
  - injection Hrest as <- <- <-. eexists.
    split; [left; split; [reflexivity | split; [discriminate | exact Habs]] |].
    eapply Hfrom, Habs.
  - injection Hrest as <- <- <-. eexists.
    split; [left; split; [reflexivity | split; [discriminate | exact Habs]] |].
    eapply Hfrom, Habs.
  - injection Hrest as <- <- <-. eexists.
    split; [left; split; [reflexivity | split; [discriminate | exact Habs]] |].
    eapply Hfrom, Habs.
Qed.

(** *** Lookup of solver libraries *)

Lemma find_first {A} (f : A -> bool) (l : list A) v :
  v ∈ l -> f v = true ->
  (forall w, w ∈ l -> f w = true -> w = v) ->
  List.find f l = Some v.
Proof.
  intros Hin Hv Huniq. destruct (List.find f l) as [w|] eqn:Hfind.
  - apply find_some in Hfind as (Hw & Hfw). f_equal. apply Huniq; [| exact Hfw].
    now apply list_elem_of_In.
  - apply list_elem_of_In in Hin. apply (find_none _ _ Hfind) in Hin. congruence.
Qed.

(** X18: Looking a solver up by key and by library: when no two listed solvers
    share a key or a library name, the library name found for the key of a
    listed solver leads back to this solver; a key or a library that no
    listed solver has gives the empty string and the empty descriptor. *)
Theorem solver_lookup (FileName : path -> path) s :
  (forall v,
     (forall p, FileName (FileName p) = FileName p) ->
     v ∈ GetAvailableSolvers s ->
     (forall w, w ∈ GetAvailableSolvers s -> uniqueID w = uniqueID v -> w = v) ->
     (forall w, w ∈ GetAvailableSolvers s ->
                FileName (fileLocation w) = FileName (fileLocation v) -> w = v) ->
     GetSolverLibName FileName (uniqueID v) s = FileName (fileLocation v) /\
     GetSolverDescriptor FileName (fileLocation v) s = v /\
     GetSolverDescriptor FileName (GetSolverLibName FileName (uniqueID v) s) s = v) /\
  (forall k, Forall (fun w => uniqueID w <> k) (GetAvailableSolvers s) ->
             GetSolverLibName FileName k s = "") /\
  (forall f, Forall (fun w => FileName (fileLocation w) <> FileName f) (GetAvailableSolvers s) ->
             GetSolverDescriptor FileName f s = no_solver).
Proof.
  unfold GetAvailableSolvers. split; [| split].
  - intros v Hidem Hin Hkey Hlib.
    assert (Hname : GetSolverLibName FileName (uniqueID v) s = FileName (fileLocation v)).
    { unfold GetSolverLibName.
      rewrite (find_first _ _ v Hin); [reflexivity | apply String.eqb_refl |].
      intros w Hw Heq. apply Hkey; [exact Hw | now apply String.eqb_eq]. }
    assert (Hdesc : forall f, FileName f = FileName (fileLocation v) ->
                              GetSolverDescriptor FileName f s = v).
    { intros f Hf. unfold GetSolverDescriptor. cbv zeta.
      rewrite (find_first _ _ v Hin); [reflexivity | rewrite Hf; apply String.eqb_refl |].
      intros w Hw Heq. apply Hlib; [exact Hw |]. apply String.eqb_eq in Heq. congruence. }
    split; [exact Hname |]. split; [now apply Hdesc |].
    apply Hdesc. rewrite Hname. apply Hidem.
  - intros k Hnone. unfold GetSolverLibName.
    destruct (List.find _ _) as [w|] eqn:Hfind; [| reflexivity].
    apply find_some in Hfind as (Hw & Heq). apply list_elem_of_In in Hw.
    apply String.eqb_eq in Heq. rewrite Forall_forall in Hnone. now apply Hnone in Hw.
  - intros f Hnone. unfold GetSolverDescriptor. cbv zeta.
    destruct (List.find _ _) as [w|] eqn:Hfind; [| reflexivity].
    apply find_some in Hfind as (Hw & Heq). apply list_elem_of_In in Hw.
    apply String.eqb_eq in Heq. rewrite Forall_forall in Hnone. now apply Hnone in Hw.
Qed.

(** *** Sessions *)

Section Preserved.
Context (R : CModelsManager -> CModelsManager -> Prop).
Hypothesis R_refl : forall s, R s s.
Hypothesis R_trans : forall s1 s2 s3, R s1 s2 -> R s2 s3 -> R s1 s3.
Hypothesis R_log : forall e s, R s (log e s).
Hypothesis R_heap : forall s, R s (with_heap (N.succ (heap_next s)) s).

Lemma preserves_ret {A} (a : A) : preserves R (ret a).
Proof. intros s. apply R_refl. Qed.

Lemma preserves_bind {A B} (c : M A) (k : A -> M B) :
  preserves R c -> (forall a, preserves R (k a)) -> preserves R (bind c k).
Proof.
  intros Hc Hk s. unfold bind. specialize (Hc s).
  destruct (c s) as [a s1|e s1|s1]; simpl in *; try assumption.
  eapply R_trans; [exact Hc | apply Hk].
Qed.

Lemma preserves_get : preserves R get.
Proof. intros s. apply R_refl. Qed.

Lemma preserves_null_deref {A} : preserves R (@null_deref A).
Proof. intros s. apply R_refl. Qed.

Lemma preserves_modify f : (forall s, R s (f s)) -> preserves R (modify f).
Proof. intros Hf s. apply Hf. Qed.

Lemma preserves_try_catch {A} (c : M A) :
  preserves R c -> preserves R (try_catch_logic_error c).
Proof.
  intros Hc s. specialize (Hc s). unfold try_catch_logic_error.
  destruct (c s) as [a s1|[|] s1|s1]; exact Hc.
Qed.

Lemma preserves_for_each {A} (l : list A) body :
  (forall x, preserves R (body x)) -> preserves R (for_each l body).
Proof.
  intros Hb. induction l as [|x l IH]; simpl; [apply preserves_ret |].
  apply preserves_bind; [apply Hb | intros _; exact IH].
Qed.

Lemma preserves_fold_for {A S} (l : list A) (body : A -> S -> M S) acc :
  (forall x a, preserves R (body x a)) -> preserves R (fold_for l body acc).
Proof.
  intros Hb. revert acc. induction l as [|x l IH]; intros acc; simpl; [apply preserves_ret |].
  apply preserves_bind; [apply Hb | intros a; apply IH].
Qed.

Lemma preserves_construct {O} (create : call (option O)) : preserves R (construct create).
Proof.
  intros s. unfold construct. destruct create as [[o|]|e]; simpl; try apply R_refl.
  eapply R_trans; [apply R_heap | apply R_log].
Qed.

Lemma preserves_delete_object p : preserves R (delete_object p).
Proof.
  intros s. unfold delete_object. destruct (N.eqb p nullptr); [apply R_refl | apply R_log].
Qed.

Lemma preserves_LoadDyssolLibrary f : preserves R (LoadDyssolLibrary f).
Proof. intros s. apply R_log. Qed.

Lemma preserves_CloseDyssolLibrary h : preserves R (CloseDyssolLibrary h).
Proof. intros s. apply R_log. Qed.

Lemma preserves_TryGetUnitDescriptor f lib : preserves R (TryGetUnitDescriptor f lib).
Proof.
  unfold TryGetUnitDescriptor.
  destruct (os_symbol_unit lib DYSSOL_CREATE_MODEL_FUN_NAME) as [create|];
    [| apply preserves_ret].
  apply preserves_bind; [apply preserves_try_catch, preserves_construct |].
  intros [[[p u]|]|]; [| apply preserves_null_deref | apply preserves_ret].
  destruct (negb _);
    (apply preserves_bind; [apply preserves_delete_object | intros _; apply preserves_ret]).
Qed.

Lemma preserves_solver_types_loop f lib types :
  forall d p, preserves R (solver_types_loop f lib types d p).
Proof.
  induction types as [|i rest IH]; intros d p; simpl; [apply preserves_ret |].
  destruct (os_symbol_solver lib (CREATE_SOLVER_FUN_NAMES i)) as [create|]; [| apply IH].
  apply preserves_bind; [apply preserves_try_catch, preserves_construct |].
  intros [[[q v]|]|]; [| apply preserves_null_deref | apply IH].
  destruct (negb _); [apply IH |].
  destruct (describe_solver f v); [apply preserves_ret | apply IH].
Qed.

Lemma preserves_TryGetSolverDescriptor f lib : preserves R (TryGetSolverDescriptor f lib).
Proof.
  unfold TryGetSolverDescriptor.
  apply preserves_bind; [apply preserves_solver_types_loop |]. intros r.
  apply preserves_bind; [apply preserves_delete_object | intros _; apply preserves_ret].
Qed.

Lemma preserves_GetAllModelsInDir d : preserves R (GetAllModelsInDir d).
Proof.
  unfold GetAllModelsInDir. apply preserves_fold_for. intros f res.
  apply preserves_bind; [apply preserves_LoadDyssolLibrary |]. intros lib.
  destruct (N.eqb lib 0); [apply preserves_ret |].
  apply preserves_bind; [apply preserves_TryGetUnitDescriptor |]. intros u.
  apply preserves_bind.
  - destruct (descriptor_bool _ u); [apply preserves_ret |].
    apply preserves_bind; [apply preserves_TryGetSolverDescriptor |]. intros v.
    destruct (descriptor_bool _ v); apply preserves_ret.
  - intros r.
    apply preserves_bind; [apply preserves_CloseDyssolLibrary | intros _; apply preserves_ret].
Qed.

Lemma preserves_GetModelsList d : preserves R (GetModelsList d).
Proof.
  unfold GetModelsList. apply preserves_bind; [apply preserves_GetAllModelsInDir |].
  intros [[|u us] [|v vs]]; try apply preserves_ret. apply preserves_GetAllModelsInDir.
Qed.

Hypothesis R_dirs : forall l s, R s (with_dirs l s).
Hypothesis R_units : forall l s, R s (with_units l s).
Hypothesis R_solvers : forall l s, R s (with_solvers l s).

Lemma preserves_scan_dir i : preserves R (scan_dir i).
Proof.
  unfold scan_dir. apply preserves_bind; [apply preserves_get |]. intros s.
  destruct (m_dirsList s !! i) as [d|]; [| apply preserves_ret].
  destruct (_ && _); [| apply preserves_ret].
  apply preserves_bind; [apply preserves_GetModelsList |]. intros found.
  apply preserves_bind; [apply preserves_modify; intros s0; apply R_units | intros _].
  apply preserves_bind; [apply preserves_modify; intros s0; apply R_solvers | intros _].
  apply preserves_modify; intros s0; apply R_dirs.
Qed.

Lemma preserves_reposition_steps idx s : R s (fold_left reposition_step idx s).
Proof.
  revert s. induction idx as [|i idx IH]; intros s; simpl; [apply R_refl |].
  eapply R_trans; [| apply IH].
  unfold reposition_step. destruct (m_dirsList s !! i); [| apply R_refl].
  eapply R_trans; [apply R_units | apply R_solvers].
Qed.

Lemma preserves_UpdateAvailableModels : preserves R UpdateAvailableModels.
Proof.
  unfold UpdateAvailableModels.
  apply preserves_bind; [apply preserves_modify; intros s; apply R_units | intros _].
  apply preserves_bind; [apply preserves_modify; intros s; apply R_solvers | intros _].
  apply preserves_bind; [apply preserves_get |]. intros s0.
  apply preserves_bind; [apply preserves_for_each; intros i; apply preserves_scan_dir | intros _].
  apply preserves_bind;
    [apply preserves_modify; intros s; apply preserves_reposition_steps | intros _].
  apply preserves_bind; [apply preserves_modify; intros s; apply R_units | intros _].
  apply preserves_modify; intros s; apply R_solvers.
Qed.

End Preserved.

Lemma heap_grows_UpdateAvailableModels s s' :
  UpdateAvailableModels s = Ret tt s' -> heap_le s s'.
Proof.
  intros Hrun.
  assert (H : preserves heap_le UpdateAvailableModels).
  { apply preserves_UpdateAvailableModels; unfold heap_le; intros; simpl; lia. }
  specialize (H s). now rewrite Hrun in H.
Qed.

Lemma instances_kept_refl s : instances_kept s s.
Proof. unfold instances_kept, heap_le. repeat split; auto; lia. Qed.

Lemma UpdateAvailableModels_instances_kept s s' :
  UpdateAvailableModels s = Ret tt s' -> instances_kept s s'.
Proof.
  intros Hrun. pose proof (keeps_UpdateAvailableModels s) as (_ & _ & _ & Hu & Hv).
  rewrite Hrun in Hu, Hv. simpl in Hu, Hv.
  split; [exact Hu |]. split; [exact Hv |]. split.
  - now apply heap_grows_UpdateAvailableModels.
  - intros h Hh. exact (closes_UpdateAvailableModels s tt s' Hrun h Hh).
Qed.

Lemma directory_call_instances_kept (l : list SModelDir) (b b' : bool) s s' :
  (modify (fun s => with_dirs l s) ;; UpdateAvailableModels ;; ret b) s = Ret b' s' ->
  instances_kept s s'.
Proof.
  unfold bind, modify, ret.
  destruct (UpdateAvailableModels (with_dirs l s)) as [[] s1|e s1|s1] eqn:Hrun;
    try discriminate.
  intros [= _ <-]. now apply UpdateAvailableModels_instances_kept in Hrun.
Qed.

Lemma directory_calls_keep_instances s s' :
  (forall f a b, AddDir f a s = Ret b s' -> instances_kept s s') /\
  (forall i b, RemoveDir i s = Ret b s' -> instances_kept s s') /\
  (forall i b, UpDir i s = Ret b s' -> instances_kept s s') /\
  (forall i b, DownDir i s = Ret b s' -> instances_kept s s') /\
  (forall i a, SetDirActivity i a s = Ret tt s' -> instances_kept s s').
Proof.
  split; [| split; [| split; [| split]]].
  - intros f a b. unfold AddDir, bind at 1, get.
    destruct (existsb _ _); [intros [= _ <-]; apply instances_kept_refl |].
    apply directory_call_instances_kept.
  - intros i b. unfold RemoveDir, bind at 1, get.
    destruct (Nat.leb _ _); [intros [= _ <-]; apply instances_kept_refl |].
    apply directory_call_instances_kept.
  - intros i b. unfold UpDir, bind at 1, get.
    destruct (_ || _); [intros [= _ <-]; apply instances_kept_refl |].
    apply directory_call_instances_kept.
  - intros i b. unfold DownDir, bind at 1, get.
    destruct (_ || _); [intros [= _ <-]; apply instances_kept_refl |].
    apply directory_call_instances_kept.
  - intros i a. unfold SetDirActivity, bind at 1, get.
    destruct (Nat.leb _ _); [intros [= <-]; apply instances_kept_refl |].
    unfold bind, modify. intros Hrun.
    apply UpdateAvailableModels_instances_kept in Hrun.
    unfold SetDirActivity_flags in Hrun. destruct (m_dirsList s !! i); exact Hrun.
Qed.

Lemma instances_kept_accounted s s' :
  instances_kept s s' -> heap_fresh s -> handles_accounted s ->
  heap_fresh s' /\ handles_accounted s'.
Proof.
  intros (Hu & Hv & Hh & Hc) (Hnz & Hfu & Hfv) Hacc. unfold heap_le in Hh. split.
  - split; [lia |]. split; intros p h; [rewrite Hu | rewrite Hv]; intros Hp;
      [apply Hfu in Hp | apply Hfv in Hp]; lia.
  - intros h Hne. rewrite Hc, Hu, Hv by exact Hne. now apply Hacc.
Qed.

Lemma filter_length_Permutation {A} (f : A -> bool) (l l' : list A) :
  l ≡ₚ l' -> length (List.filter f l) = length (List.filter f l').
Proof.
  induction 1 as [|x l l' _ IH|x y l|l1 l2 l3 _ IH1 _ IH2]; simpl.
  - reflexivity.
  - destruct (f x); simpl; congruence.
  - destruct (f x), (f y); reflexivity.
  - congruence.
Qed.

Lemma instances_of_insert h p h0 (m : gmap N N) :
  m !! p = None ->
  instances_of h (<[p := h0]> m) = (instances_of h m + if N.eqb h0 h then 1 else 0)%Z.
Proof.
  intros Hp. unfold instances_of.
  rewrite (filter_length_Permutation _ _ _ (map_to_list_insert m p h0 Hp)). simpl.
  destruct (N.eqb h0 h); simpl; lia.
Qed.

Lemma instances_of_delete h p h0 (m : gmap N N) :
  m !! p = Some h0 ->
  instances_of h (delete p m) = (instances_of h m - if N.eqb h0 h then 1 else 0)%Z.
Proof.
  intros Hp. unfold instances_of.
  rewrite <- (filter_length_Permutation _ _ _ (map_to_list_delete m p h0 Hp)). simpl.
  destruct (N.eqb h0 h); simpl; lia.
Qed.

Lemma consistent_same_lists s s' :
  m_dirsList s' = m_dirsList s -> m_availableUnits s' = m_availableUnits s ->
  m_availableSolvers s' = m_availableSolvers s -> consistent s -> consistent s'.
Proof.
  intros Hd Hu Hv [C1 C2 C3 C4 C5 C6]. split; rewrite ?Hd, ?Hu, ?Hv; assumption.
Qed.

Lemma InstantiateUnit_accounted k s p s' :
  InstantiateUnit k s = Ret p s' -> heap_fresh s -> handles_accounted s ->
  heap_fresh s' /\ handles_accounted s'.
Proof.
  intros Hrun Hf Hacc.
  destruct (InstantiateUnit_from_outcome _ _ _ _ _ Hrun) as ((_ & _ & _ & Hsol) & Ho).
  destruct Ho as [(_ & Hl & Hh & _ & Hc) | (-> & Hh' & _ & u & _ & _ & Hopen & Hl & Hcnt)].
  - apply (instances_kept_accounted s s'); auto.
    unfold instances_kept, heap_le. rewrite Hh. repeat split; auto; lia.
  - destruct Hf as (Hnz & Hfu & Hfv).
    assert (Hnone : m_loadedUnits s !! heap_next s = None).
    { destruct (m_loadedUnits s !! heap_next s) as [h|] eqn:Hl0; [| reflexivity].
      apply Hfu in Hl0. lia. }
    split.
    + split; [rewrite Hh'; lia |]. split.
      * intros q h. rewrite Hl, Hh'. intros Hq.
        apply lookup_insert_Some in Hq as [(<- & _) | (_ & Hq)]; [lia |].
        apply Hfu in Hq. lia.
      * intros q h. rewrite Hsol, Hh'. intros Hq. apply Hfv in Hq. lia.
    + intros h Hne. rewrite (Hcnt h Hne), Hl, Hsol, (instances_of_insert _ _ _ _ Hnone).
      rewrite (Hacc h Hne). lia.
Qed.

Lemma InstantiateSolver_accounted k s p s' :
  InstantiateSolver k s = Ret p s' -> heap_fresh s -> handles_accounted s ->
  heap_fresh s' /\ handles_accounted s'.
Proof.
  intros Hrun Hf Hacc.
  destruct (InstantiateSolver_from_outcome _ _ _ _ _ Hrun) as ((_ & _ & _ & Hun) & Ho).
  destruct Ho as [(_ & Hl & Hh & _ & Hc) | (-> & Hh' & _ & u & _ & _ & Hopen & Hl & Hcnt)].
  - apply (instances_kept_accounted s s'); auto.
    unfold instances_kept, heap_le. rewrite Hh. repeat split; auto; lia.
  - destruct Hf as (Hnz & Hfu & Hfv).
    assert (Hnone : m_loadedSolvers s !! heap_next s = None).
    { destruct (m_loadedSolvers s !! heap_next s) as [h|] eqn:Hl0; [| reflexivity].
      apply Hfv in Hl0. lia. }
    split.
    + split; [rewrite Hh'; lia |]. split.
      * intros q h. rewrite Hun, Hh'. intros Hq. apply Hfu in Hq. lia.
      * intros q h. rewrite Hl, Hh'. intros Hq.
        apply lookup_insert_Some in Hq as [(<- & _) | (_ & Hq)]; [lia |].
        apply Hfv in Hq. lia.
    + intros h Hne. rewrite (Hcnt h Hne), Hl, Hun, (instances_of_insert _ _ _ _ Hnone).
      rewrite (Hacc h Hne). lia.
Qed.

Lemma FreeUnit_accounted p s s' :
  FreeUnit p s = Ret tt s' -> heap_fresh s -> handles_accounted s ->
  (m_dirsList s' = m_dirsList s /\ m_availableUnits s' = m_availableUnits s /\
   m_availableSolvers s' = m_availableSolvers s) /\
  heap_fresh s' /\ handles_accounted s'.
Proof.
  unfold FreeUnit, bind at 1, get.
  destruct (N.eqb_spec p nullptr) as [Hp | Hp]; [intros [= <-]; auto |].
  destruct (m_loadedUnits s !! p) as [h0|] eqn:Hl; [| intros [= <-]; auto].
  unfold bind, modify, CloseDyssolLibrary, modify. rewrite delete_object_live by exact Hp.
  intros [= <-] (Hnz & Hfu & Hfv) Hacc. split; [now repeat split |]. split.
  - split; [exact Hnz |]. split; [| exact Hfv].
    intros q h. simpl. intros Hq. apply lookup_delete_Some in Hq as (_ & Hq).
    now apply Hfu in Hq.
  - intros h Hne. rewrite !open_count_log. cbn [trace with_loadedUnits m_loadedUnits
      m_loadedSolvers log].
    rewrite (instances_of_delete _ _ _ _ Hl), (Hacc h Hne). simpl.
    destruct (N.eqb h0 h); lia.
Qed.

Lemma FreeSolver_accounted p s s' :
  FreeSolver p s = Ret tt s' -> heap_fresh s -> handles_accounted s ->
  (m_dirsList s' = m_dirsList s /\ m_availableUnits s' = m_availableUnits s /\
   m_availableSolvers s' = m_availableSolvers s) /\
  heap_fresh s' /\ handles_accounted s'.
Proof.
  unfold FreeSolver, bind at 1, get.
  destruct (N.eqb_spec p nullptr) as [Hp | Hp]; [intros [= <-]; auto |].
  destruct (m_loadedSolvers s !! p) as [h0|] eqn:Hl; [| intros [= <-]; auto].
  unfold bind, modify, CloseDyssolLibrary, modify. rewrite delete_object_live by exact Hp.
  intros [= <-] (Hnz & Hfu & Hfv) Hacc. split; [now repeat split |]. split.
  - split; [exact Hnz |]. split; [exact Hfu |].
    intros q h. simpl. intros Hq. apply lookup_delete_Some in Hq as (_ & Hq).
    now apply Hfv in Hq.
  - intros h Hne. rewrite !open_count_log. cbn [trace with_loadedSolvers m_loadedUnits
      m_loadedSolvers log].
    rewrite (instances_of_delete _ _ _ _ Hl), (Hacc h Hne). simpl.
    destruct (N.eqb h0 h); lia.
Qed.

Lemma addresses_distinct_same s s' :
  m_loadedUnits s' = m_loadedUnits s -> m_loadedSolvers s' = m_loadedSolvers s ->
  addresses_distinct s -> addresses_distinct s'.
Proof. unfold addresses_distinct. now intros -> ->. Qed.

Lemma fresh_address_unused s :
  heap_fresh s ->
  heap_next s <> nullptr /\
  m_loadedUnits s !! heap_next s = None /\ m_loadedSolvers s !! heap_next s = None.
Proof.
  intros (Hnz & Hfu & Hfv). split; [exact Hnz |]. split.
  - destruct (m_loadedUnits s !! heap_next s) as [h|] eqn:Hl; [| reflexivity].
    apply Hfu in Hl. lia.
  - destruct (m_loadedSolvers s !! heap_next s) as [h|] eqn:Hl; [| reflexivity].
    apply Hfv in Hl. lia.
Qed.

Lemma Instantiate_addresses_distinct k s p s' :
  InstantiateUnit k s = Ret p s' \/ InstantiateSolver k s = Ret p s' ->
  heap_fresh s -> addresses_distinct s -> addresses_distinct s'.
Proof.
  intros Hrun Hf (Hdis & Hu0 & Hv0).
  destruct (fresh_address_unused s Hf) as (Hnz & Hnu & Hnv).
  destruct Hrun as [Hrun | Hrun].
  - destruct (InstantiateUnit_from_outcome _ _ _ _ _ Hrun) as ((_ & _ & _ & Hsol) & Ho).
    destruct Ho as [(_ & Hl & _) | (-> & _ & _ & u & _ & _ & _ & Hl & _)].
    + apply (addresses_distinct_same s); [exact Hl | exact Hsol | now repeat split].
    + unfold addresses_distinct. rewrite Hl, Hsol. split; [| split; [| exact Hv0]].
      * apply map_disjoint_insert_l. split; [exact Hnv | exact Hdis].
      * rewrite lookup_insert_ne by exact Hnz. exact Hu0.
  - destruct (InstantiateSolver_from_outcome _ _ _ _ _ Hrun) as ((_ & _ & _ & Hun) & Ho).
    destruct Ho as [(_ & Hl & _) | (-> & _ & _ & u & _ & _ & _ & Hl & _)].
    + apply (addresses_distinct_same s); [exact Hun | exact Hl | now repeat split].
    + unfold addresses_distinct. rewrite Hl, Hun. split; [| split; [exact Hu0 |]].
      * apply map_disjoint_insert_r. split; [exact Hnu | exact Hdis].
      * rewrite lookup_insert_ne by exact Hnz. exact Hv0.
Qed.

Lemma Free_addresses_distinct p s s' :
  FreeUnit p s = Ret tt s' \/ FreeSolver p s = Ret tt s' ->
  addresses_distinct s -> addresses_distinct s'.
Proof.
  intros Hrun (Hdis & Hu0 & Hv0). destruct Hrun as [Hrun | Hrun]; revert Hrun.
  - unfold FreeUnit, bind at 1, get.
    destruct (N.eqb_spec p nullptr) as [Hp | Hp]; [intros [= <-]; now repeat split |].
    destruct (m_loadedUnits s !! p) as [h0|] eqn:Hl; [| intros [= <-]; now repeat split].
    unfold bind, modify, CloseDyssolLibrary, modify. rewrite delete_object_live by exact Hp.
    intros [= <-]. unfold addresses_distinct. simpl. split; [| split; [| exact Hv0]].
    + now apply map_disjoint_delete_l.
    + rewrite lookup_delete_ne by exact Hp. exact Hu0.
  - unfold FreeSolver, bind at 1, get.
    destruct (N.eqb_spec p nullptr) as [Hp | Hp]; [intros [= <-]; now repeat split |].
    destruct (m_loadedSolvers s !! p) as [h0|] eqn:Hl; [| intros [= <-]; now repeat split].
    unfold bind, modify, CloseDyssolLibrary, modify. rewrite delete_object_live by exact Hp.
    intros [= <-]. unfold addresses_distinct. simpl. split; [| split; [exact Hu0 |]].
    + now apply map_disjoint_delete_r.
    + rewrite lookup_delete_ne by exact Hp. exact Hv0.
Qed.

Lemma perform_keeps_invariants `{!SortContract E} (HU : UniqueContract E) c s s' :
  perform c s = Ret tt s' ->
  consistent s /\ heap_fresh s /\ addresses_distinct s /\ handles_accounted s ->
  consistent s' /\ heap_fresh s' /\ addresses_distinct s' /\ handles_accounted s'.
Proof.
  intros Hrun (Hc & Hf & Hd & Hacc).
  assert (Hkept : instances_kept s s' ->
            heap_fresh s' /\ addresses_distinct s' /\ handles_accounted s').
  { intros Hk. destruct (instances_kept_accounted s s' Hk Hf Hacc) as (Hf' & Hacc').
    destruct Hk as (Hu & Hv & _).
    split; [exact Hf' |]. split; [now apply (addresses_distinct_same s) | exact Hacc']. }
  destruct (operations_keep_consistent HU s Hc) as (C1 & C2 & C3 & C4 & C5).
  destruct (directory_calls_keep_instances s s') as (K1 & K2 & K3 & K4 & K5).
  destruct c as [f a|i|i|i|i a| |k|k|p|p]; simpl in Hrun.
  - apply bind_inv in Hrun as (b & s1 & Hop & [= <-]).
    split; [eapply C1, Hop |]. eapply Hkept, K1, Hop.
  - apply bind_inv in Hrun as (b & s1 & Hop & [= <-]).
    split; [eapply C2, Hop |]. eapply Hkept, K2, Hop.
  - apply bind_inv in Hrun as (b & s1 & Hop & [= <-]).
    split; [eapply C3, Hop |]. eapply Hkept, K3, Hop.
  - apply bind_inv in Hrun as (b & s1 & Hop & [= <-]).
    split; [eapply C4, Hop |]. eapply Hkept, K4, Hop.
  - split; [eapply C5, Hrun |]. eapply Hkept, K5, Hrun.
  - injection Hrun as <-. split; [split; simpl; constructor |].
    split; [exact Hf |]. split; [exact Hd | exact Hacc].
  - apply bind_inv in Hrun as (q & s1 & Hop & [= <-]).
    destruct (InstantiateUnit_from_outcome _ _ _ _ _ Hop) as ((D1 & D2 & D3 & _) & _).
    destruct (InstantiateUnit_accounted _ _ _ _ Hop Hf Hacc) as (Hf' & Hacc').
    split; [now apply (consistent_same_lists s s1) |]. split; [exact Hf' |].
    split; [eapply Instantiate_addresses_distinct; eauto | exact Hacc'].
  - apply bind_inv in Hrun as (q & s1 & Hop & [= <-]).
    destruct (InstantiateSolver_from_outcome _ _ _ _ _ Hop) as ((D1 & D2 & D3 & _) & _).
    destruct (InstantiateSolver_accounted _ _ _ _ Hop Hf Hacc) as (Hf' & Hacc').
    split; [now apply (consistent_same_lists s s1) |]. split; [exact Hf' |].
    split; [eapply Instantiate_addresses_distinct; eauto | exact Hacc'].
  - destruct (FreeUnit_accounted _ _ _ Hrun Hf Hacc) as ((D1 & D2 & D3) & Hf' & Hacc').
    split; [now apply (consistent_same_lists s s') |]. split; [exact Hf' |].
    split; [eapply Free_addresses_distinct; eauto | exact Hacc'].
  - destruct (FreeSolver_accounted _ _ _ Hrun Hf Hacc) as ((D1 & D2 & D3) & Hf' & Hacc').
    split; [now apply (consistent_same_lists s s') |]. split; [exact Hf' |].
    split; [eapply Free_addresses_distinct; eauto | exact Hacc'].
Qed.

(** X19: Whatever a client calls, in whatever order: as long as the calls
    return, the manager is in a consistent state; every address recorded
    for a live instance was given out by the manager (it lies below the
    next free one), is not [nullptr] and is recorded for one instance only,
    never for a unit and a solver at once; and every library is open
    exactly as many times as there are live instances created from it - no
    handle of a probe or of a failed instantiation is retained, and none is
    closed too early. *)
Theorem session_invariants `{!SortContract E} (HU : UniqueContract E) calls s :
  session calls new_manager = Ret tt s ->
  consistent s /\ heap_fresh s /\ addresses_distinct s /\ handles_accounted s.
Proof.
  assert (Hgen : forall s0,
    consistent s0 /\ heap_fresh s0 /\ addresses_distinct s0 /\ handles_accounted s0 ->
    session calls s0 = Ret tt s ->
    consistent s /\ heap_fresh s /\ addresses_distinct s /\ handles_accounted s).
  { unfold session. induction calls as [|c calls IH]; intros s0 Hinv; simpl.
    - intros [= <-]. exact Hinv.
    - intros Hrun. apply bind_inv in Hrun as ([] & s1 & Hc & Hrest).
      apply (IH s1); [| exact Hrest]. eapply perform_keeps_invariants; eauto. }
  apply Hgen. split; [apply new_manager_consistent |]. split; [| split].
  - split; [discriminate |]. split; intros p h; simpl; rewrite lookup_empty; discriminate.
  - split; [apply map_disjoint_empty_l |]. split; apply lookup_empty.
  - intros h _. reflexivity.
Qed.

(** *** What [AddDir] lists *)

Lemma scan_settled_range l s :
  (forall j, j ∈ l ->
     match m_dirsList s !! j with Some d => pending d = false | None => True end) ->
  for_each l scan_dir s = Ret tt s.
Proof.
  induction l as [|j l IH]; intros H; simpl; [reflexivity |].
  erewrite bind_Ret; [apply IH | apply scan_dir_settled, H; apply elem_of_cons; now left].
  intros j' Hj'. apply H. apply elem_of_cons. now right.
Qed.

Lemma active_key_app dirs more k : active_key dirs k -> active_key (dirs ++ more) k.
Proof.
  intros (d & Hd & H). exists d. split; [apply elem_of_app; now left | exact H].
Qed.

Lemma positioned_app {K} dirs more (m : SModelDescriptor K) :
  positioned dirs m -> positioned (dirs ++ more) m.
Proof.
  intros (d & Hd & H). exists d. split; [now apply lookup_app_l_Some | exact H].
Qed.

Lemma UpdateAvailableModels_scans_one `{!SortContract E} s0 n new found s1 :
  m_dirsList s0 !! n = Some new -> pending new = true ->
  (forall j d, j <> n -> m_dirsList s0 !! j = Some d -> pending d = false) ->
  drop_orphans s0 = s0 ->
  GetModelsList (dir_path new) s0 = Ret found s1 ->
  exists s', UpdateAvailableModels s0 = Ret tt s' /\ trace s' = trace s1 /\
    m_dirsList s' = <[n := set_checked true new]> (m_dirsList s0) /\
    m_availableUnits s'
      ≡ₚ map (reposition_all (<[n := set_checked true new]> (m_dirsList s0)))
             (m_availableUnits s0 ++ map (set_dirKey (dir_key new)) (fst found)) /\
    m_availableSolvers s'
      ≡ₚ map (reposition_all (<[n := set_checked true new]> (m_dirsList s0)))
             (m_availableSolvers s0 ++ map (set_dirKey (dir_key new)) (snd found)).
Proof.
  intros Hn Hp Hothers Hdrop Hfind.
  pose proof (probing_GetModelsList (dir_path new) s0) as Hsame.
  rewrite Hfind in Hsame. destruct Hsame as (Hd & Hu & Hv & _). cbn [final] in Hd, Hu, Hv.
  assert (Hscan : exists s2, scan_dir n s0 = Ret tt s2 /\ trace s2 = trace s1 /\
            m_dirsList s2 = <[n := set_checked true new]> (m_dirsList s0) /\
            m_availableUnits s2
              = m_availableUnits s0 ++ map (set_dirKey (dir_key new)) (fst found) /\
            m_availableSolvers s2
              = m_availableSolvers s0 ++ map (set_dirKey (dir_key new)) (snd found)).
  { unfold scan_dir, bind, get, modify. rewrite Hn. unfold pending in Hp. rewrite Hp, Hfind.
    eexists. split; [reflexivity |]. simpl. rewrite Hd, Hu, Hv. now repeat split. }
  destruct Hscan as (s2 & Hscan & Ht2 & Hd2 & Hu2 & Hv2).
  pose proof (lookup_lt_Some _ _ _ Hn) as Hlt.
  rewrite UpdateAvailableModels_unfold, Hdrop.
  replace (length (m_dirsList s0)) with (n + S (length (m_dirsList s0) - S n)) by lia.
  rewrite seq_app. simpl. rewrite for_each_app.
  unfold bind at 1. rewrite scan_settled_range.
  2: { intros j Hj. apply elem_of_seq in Hj.
       destruct (m_dirsList s0 !! j) as [d|] eqn:Hj'; [| exact I].
       apply (Hothers j d); [lia | exact Hj']. }
  simpl. unfold bind at 1. rewrite Hscan. rewrite scan_settled_range.
  2: { intros j Hj. apply elem_of_seq in Hj. rewrite Hd2.
       rewrite list_lookup_insert_ne by lia.
       destruct (m_dirsList s0 !! j) as [d|] eqn:Hj'; [| exact I].
       apply (Hothers j d); [lia | exact Hj']. }
  eexists. split; [reflexivity |].
  unfold sort_models. simpl. rewrite Hd2, Hu2, Hv2.
  split; [exact Ht2 |]. split; [reflexivity |]. split; apply std_sort_permutation.
Qed.

(** X20: What [AddDir] adds to the lists, from a consistent state and for a
    path that is not there: an inactive directory is not scanned, no
    library is loaded and both lists keep their descriptors; for an active
    one the lists gain exactly the models [GetModelsList] finds in it, each
    with the key of the new entry and its index as position. *)
Theorem AddDir_lists_the_models_found `{!SortContract E} (HU : UniqueContract E) s f :
  consistent s ->
  Forall (fun d => dir_path d <> f) (m_dirsList s) ->
  (exists s', AddDir f false s = Ret true s' /\ trace s' = trace s /\
     GetAvailableUnits s' ≡ₚ GetAvailableUnits s /\
     GetAvailableSolvers s' ≡ₚ GetAvailableSolvers s) /\
  (forall found s1,
     GetModelsList f
       (with_dirs (m_dirsList s ++ [mkDir f (GenerateUniqueString "" (AllDirsKeys s)) true false])
                  s)
     = Ret found s1 ->
     exists s', AddDir f true s = Ret true s' /\ trace s' = trace s1 /\
       GetAvailableUnits s'
         ≡ₚ GetAvailableUnits s
            ++ map (fun u => set_position (DirsNumber s)
                               (set_dirKey (GenerateUniqueString "" (AllDirsKeys s)) u))
                   (fst found) /\
       GetAvailableSolvers s'
         ≡ₚ GetAvailableSolvers s
            ++ map (fun v => set_position (DirsNumber s)
                               (set_dirKey (GenerateUniqueString "" (AllDirsKeys s)) v))
                   (snd found)).
Proof.
  intros [Hk Hpend Hou Hov Hpu Hpv] Hnew.
  unfold GetAvailableUnits, GetAvailableSolvers, DirsNumber.
  set (key := GenerateUniqueString "" (AllDirsKeys s)).
  assert (Hex : existsb (fun entry => String.eqb (dir_path entry) f) (m_dirsList s) = false).
  { apply not_true_is_false. intros H. apply existsb_exists in H as (d & Hin & Heq).
    apply String.eqb_eq in Heq. rewrite Forall_forall in Hnew.
    apply (Hnew d); [now apply list_elem_of_In | exact Heq]. }
  assert (Hkeys : forall a c, NoDup (map dir_key (m_dirsList s ++ [mkDir f key a c]))).
  { intros a c. pose proof (AddDir_keys HU s f a Hk) as H.
    rewrite map_app in *. exact H. }
  assert (Hown : forall K (ms : list (SModelDescriptor K)) more,
            Forall (fun m => active_key (m_dirsList s) (dirKey m)) ms ->
            Forall (fun m => active_key (m_dirsList s ++ more) (dirKey m)) ms).
  { intros K ms more H. eapply Forall_impl; [exact H |]. intros m. apply active_key_app. }
  assert (Hpos : forall K (ms : list (SModelDescriptor K)) more,
            Forall (positioned (m_dirsList s)) ms ->
            Forall (positioned (m_dirsList s ++ more)) ms).
  { intros K ms more H. eapply Forall_impl; [exact H |]. intros m. apply positioned_app. }
  split.
  - destruct (settled_same_owners s (m_dirsList s ++ [mkDir f key false false]))
      as (s' & Hrun & _ & Ht & _ & _ & _ & Hu & Hv & _).
    { apply Forall_app. split; [exact Hpend | now repeat constructor]. }
    { now apply Hown. }
    { now apply Hown. }
    exists s'. unfold AddDir, bind, get, modify. rewrite Hex. fold key. rewrite Hrun.
    split; [reflexivity |]. split; [exact Ht |].
    rewrite reposition_all_consistent in Hu by (apply Hkeys || now apply Hpos).
    rewrite reposition_all_consistent in Hv by (apply Hkeys || now apply Hpos).
    split; [exact Hu | exact Hv].
  - intros found s1 Hfind. fold key in Hfind.
    set (n := length (m_dirsList s)).
    set (new := mkDir f key true false) in *.
    set (dirs1 := m_dirsList s ++ [new]) in *.
    assert (Hn : dirs1 !! n = Some new) by (unfold dirs1, n; apply list_lookup_middle; reflexivity).
    assert (Hdrop : drop_orphans (with_dirs dirs1 s) = with_dirs dirs1 s).
    { unfold drop_orphans. simpl.
      rewrite (VectorDelete_keeps dirs1 _ (Hown _ _ [new] Hou)).
      rewrite (VectorDelete_keeps dirs1 _ (Hown _ _ [new] Hov)).
      now destruct s. }
    destruct (UpdateAvailableModels_scans_one (with_dirs dirs1 s) n new found s1)
      as (s' & Hrun & Ht & Hd & Hu & Hv); try assumption.
    { reflexivity. }
    { intros j d Hne Hjd. simpl in Hjd. unfold dirs1 in Hjd.
      assert (Hj : j < n).
      { apply lookup_lt_Some in Hjd. rewrite length_app in Hjd. simpl in Hjd.
        unfold n in *. lia. }
      rewrite lookup_app_l in Hjd by exact Hj.
      exact (Forall_lookup_1 (fun d => pending d = false) _ _ _ Hpend Hjd). }
    exists s'. unfold AddDir, bind, get, modify. rewrite Hex. fold key new dirs1. rewrite Hrun.
    split; [reflexivity |]. split; [exact Ht |].
    simpl in Hu, Hv.
    assert (Hdirs2 : <[n := set_checked true new]> dirs1 = m_dirsList s ++ [set_checked true new]).
    { unfold dirs1, n. rewrite insert_app_r_alt by lia. now rewrite Nat.sub_diag. }
    rewrite Hdirs2 in Hu, Hv.
    assert (Hn2 : (m_dirsList s ++ [set_checked true new]) !! n = Some (set_checked true new))
      by (unfold n; apply list_lookup_middle; reflexivity).
    assert (Hnew_pos : forall K (ms : list (SModelDescriptor K)),
              map (reposition_all (m_dirsList s ++ [set_checked true new]))
                  (map (set_dirKey key) ms)
              = map (fun m => set_position n (set_dirKey key m)) ms).
    { intros K ms. rewrite map_map. apply map_ext. intros m.
      apply (reposition_all_owner _ n (set_checked true new) (Hkeys true true) Hn2).
      reflexivity. }
    rewrite map_app, Hnew_pos in Hu, Hv.
    rewrite reposition_all_consistent in Hu by (apply (Hkeys true true) || now apply Hpos).
    rewrite reposition_all_consistent in Hv by (apply (Hkeys true true) || now apply Hpos).
    split; [exact Hu | exact Hv].
Qed.

Lemma active_key_insert_inactive dirs i d d0 k :
  dirs !! i = Some d -> dir_active d = false ->
  active_key dirs k -> active_key (<[i := d0]> dirs) k.
Proof.
  intros Hi Hoff Hact. apply active_key_lookup in Hact as (j & d' & Hj & Hk & Hon).
  assert (j <> i) by (intros ->; congruence).
  exists d'. split; [| auto].
  apply (list_elem_of_lookup_2 _ j). now rewrite list_lookup_insert_ne by congruence.
Qed.

Lemma positioned_insert_same_key {K} dirs i d d0 (m : SModelDescriptor K) :
  dirs !! i = Some d -> dir_key d0 = dir_key d ->
  positioned dirs m -> positioned (<[i := d0]> dirs) m.
Proof.
  intros Hi Hkey (d' & Hp & Hk). destruct (decide (position m = i)) as [Heq | Hne].
  - exists d0. rewrite Heq in *. split.
    + apply list_lookup_insert_eq. now apply lookup_lt_Some in Hi.
    + congruence.
  - exists d'. split; [now rewrite list_lookup_insert_ne by congruence | exact Hk].
Qed.

(** X22: Activating a directory of a consistent state: it is scanned, and
    the lists gain exactly the models [GetModelsList] finds in it, each
    with the key of the directory and its index as position; its entry is
    active and checked afterwards. *)
Theorem activation_lists_the_models_found `{!SortContract E} s i d :
  consistent s ->
  m_dirsList s !! i = Some d -> dir_active d = false ->
  forall found s1,
    GetModelsList (dir_path d)
      (with_dirs (<[i := mkDir (dir_path d) (dir_key d) true false]> (m_dirsList s)) s)
    = Ret found s1 ->
    exists s', SetDirActivity i true s = Ret tt s' /\ trace s' = trace s1 /\
      m_dirsList s' = <[i := mkDir (dir_path d) (dir_key d) true true]> (m_dirsList s) /\
      GetAvailableUnits s'
        ≡ₚ GetAvailableUnits s
           ++ map (fun u => set_position i (set_dirKey (dir_key d) u)) (fst found) /\
      GetAvailableSolvers s'
        ≡ₚ GetAvailableSolvers s
           ++ map (fun v => set_position i (set_dirKey (dir_key d) v)) (snd found).
Proof.
  intros [Hk Hpend Hou Hov Hpu Hpv] Hi Hoff found s1 Hfind.
  unfold GetAvailableUnits, GetAvailableSolvers.
  pose proof (lookup_lt_Some _ _ _ Hi) as Hlt.
  set (new := mkDir (dir_path d) (dir_key d) true false) in *.
  set (dirs1 := <[i := new]> (m_dirsList s)) in *.
  assert (Hflags : SetDirActivity_flags i true s = with_dirs dirs1 s).
  { unfold SetDirActivity_flags. rewrite Hi. unfold set_active, set_checked. simpl.
    rewrite Hoff. reflexivity. }
  assert (Hn : dirs1 !! i = Some new) by (apply list_lookup_insert_eq; exact Hlt).
  assert (Hown : forall K (ms : list (SModelDescriptor K)),
            Forall (fun m => active_key (m_dirsList s) (dirKey m)) ms ->
            Forall (fun m => active_key dirs1 (dirKey m)) ms).
  { intros K ms Hms. eapply Forall_impl; [exact Hms |]. intros m.
    now apply (active_key_insert_inactive _ i d). }
  assert (Hdrop : drop_orphans (with_dirs dirs1 s) = with_dirs dirs1 s).
  { unfold drop_orphans. simpl.
    rewrite (VectorDelete_keeps dirs1 _ (Hown _ _ Hou)).
    rewrite (VectorDelete_keeps dirs1 _ (Hown _ _ Hov)).
    now destruct s. }
  destruct (UpdateAvailableModels_scans_one (with_dirs dirs1 s) i new found s1)
    as (s' & Hrun & Ht & Hd & Hu & Hv); try assumption.
  { reflexivity. }
  { intros j d' Hne Hjd. simpl in Hjd. unfold dirs1 in Hjd.
    rewrite list_lookup_insert_ne in Hjd by congruence.
    exact (Forall_lookup_1 (fun d => pending d = false) _ _ _ Hpend Hjd). }
  exists s'. unfold SetDirActivity, bind, get, modify.
  destruct (Nat.leb_spec (length (m_dirsList s)) i); [lia |].
  rewrite Hflags, Hrun. split; [reflexivity |]. split; [exact Ht |].
  simpl in Hd, Hu, Hv. unfold dirs1 in Hd, Hu, Hv. rewrite list_insert_insert_eq in Hd, Hu, Hv.
  change (set_checked true new) with (mkDir (dir_path d) (dir_key d) true true) in Hd, Hu, Hv.
  set (dirs2 := <[i := mkDir (dir_path d) (dir_key d) true true]> (m_dirsList s)) in *.
  split; [exact Hd |].
  assert (Hk2 : NoDup (map dir_key dirs2)).
  { unfold dirs2. rewrite map_fmap, list_fmap_insert. simpl.
    rewrite list_insert_id; [now rewrite <- map_fmap |].
    now rewrite list_lookup_fmap, Hi. }
  assert (Hn2 : dirs2 !! i = Some (mkDir (dir_path d) (dir_key d) true true))
    by (apply list_lookup_insert_eq; exact Hlt).
  assert (Hpos : forall K (ms : list (SModelDescriptor K)),
            Forall (positioned (m_dirsList s)) ms -> Forall (positioned dirs2) ms).
  { intros K ms Hms. eapply Forall_impl; [exact Hms |]. intros m.
    now apply (positioned_insert_same_key _ i d). }
  assert (Hnew_pos : forall K (ms : list (SModelDescriptor K)),
            map (reposition_all dirs2) (map (set_dirKey (dir_key d)) ms)
            = map (fun m => set_position i (set_dirKey (dir_key d) m)) ms).
  { intros K ms. rewrite map_map. apply map_ext. intros m.
    apply (reposition_all_owner _ i _ Hk2 Hn2). reflexivity. }
  rewrite map_app, Hnew_pos in Hu, Hv.
  rewrite reposition_all_consistent in Hu by (exact Hk2 || now apply Hpos).
  rewrite reposition_all_consistent in Hv by (exact Hk2 || now apply Hpos).
  split; [exact Hu | exact Hv].
Qed.

End Operations.

(** ** Runs on the example managers *)

Lemma two_dirs_consistent : consistent Demo.two_dirs.
Proof. exact (proj1 (UpdateAvailableModels_Ret _ _ two_dirs_keys two_dirs_settled)). Qed.

Lemma two_dirs_paths : NoDup (map dir_path (m_dirsList Demo.two_dirs)).
Proof. apply (bool_decide_unpack _). vm_compute. exact I. Qed.

Lemma two_dirs_heap_fresh : heap_fresh Demo.two_dirs.
Proof.
  split; [discriminate |].
  split; intros p h;
    [change (m_loadedUnits Demo.two_dirs) with (∅ : gmap N N)
    | change (m_loadedSolvers Demo.two_dirs) with (∅ : gmap N N)];
    rewrite lookup_empty; discriminate.
Qed.

Lemma append_length (a b : string) :
  String.length (String.append a b) = String.length a + String.length b.
Proof. induction a as [|c a IH]; simpl; [reflexivity | now rewrite IH]. Qed.

Lemma concat_length_member (x : string) (l : list string) :
  x ∈ l -> String.length x <= String.length (String.concat "" l).
Proof.
  induction l as [|y l IH]; intros Hin; [now apply elem_of_nil in Hin |].
  apply elem_of_cons in Hin. simpl. destruct l as [|z l].
  - destruct Hin as [-> | Hin]; [lia | now apply elem_of_nil in Hin].
  - rewrite !append_length. destruct Hin as [-> | Hin]; [lia |].
    specialize (IH Hin). simpl in *. lia.
Qed.

Lemma demo_keys_unique : UniqueContract Demo.env.
Proof.
  intros init existing Hin. apply concat_length_member in Hin.
  change (@GenerateUniqueString Demo.env init existing)
    with (Demo.unique_string init existing) in Hin.
  unfold Demo.unique_string in Hin. rewrite !append_length in Hin. simpl in Hin. lia.
Qed.

Lemma tidy_plugins_tame : @tame_plugins Tidy.env.
Proof.
  split.
  - intros h. change (tame (Tidy.symbol_unit h Demo.unit_symbol)).
    unfold Tidy.symbol_unit, Demo.symbol_unit. simpl.
    destruct (N.eqb_spec h 17) as [-> | H17]; [exact I |].
    destruct (N.eqb_spec h 19) as [-> | H19]; [exact I |]. simpl.
    repeat (destruct (N.eqb h _); [exact I |]). exact I.
  - intros h i. change (tame (Tidy.symbol_solver h (Demo.solver_symbol i))).
    unfold Tidy.symbol_solver, Demo.symbol_solver.
    destruct (N.eqb h 20).
    + repeat (destruct (String.eqb _ _); [exact I |]). exact I.
    + repeat (destruct (_ && _); [exact I |]). exact I.
Qed.

Lemma file_name_no_slash p : Tidy.has_slash p = false -> Tidy.file_name p = p.
Proof. destruct p as [|c p]; [reflexivity |]. intros H. simpl in *. now rewrite H. Qed.

Lemma file_name_has_no_slash p : Tidy.has_slash (Tidy.file_name p) = false.
Proof.
  induction p as [|c p IH]; [reflexivity |].
  cbn [Tidy.file_name]. destruct (Tidy.has_slash (String c p)) eqn:H; [exact IH | exact H].
Qed.

Lemma file_name_idempotent p : Tidy.file_name (Tidy.file_name p) = Tidy.file_name p.
Proof. apply file_name_no_slash, file_name_has_no_slash. Qed.

Lemma AddDir_new_path_witness :
  m_dirsList (final (@AddDir Demo.env "/models/A" true new_manager))
  = [mkDir "/models/A" "k" true true] /\
  GetDirPath 0 (final (@AddDir Demo.env "/models/A" true new_manager)) = "/models/A".
Proof.
  destruct (@AddDir_new_path Demo.env new_manager "/models/A" true true
              (final (@AddDir Demo.env "/models/A" true new_manager)))
    as (_ & Hd & _ & Hp & _); [constructor | vm_compute; reflexivity |].
  split; [exact Hd | exact Hp].
Defined.

Lemma UpDir_DownDir_effect_witness :
  GetDirPath 0 (final (@UpDir Demo.env 1 Demo.two_dirs)) = GetDirPath 1 Demo.two_dirs.
Proof.
  destruct (proj1 (@UpDir_DownDir_effect Demo.env Demo.two_dirs 1 true
                     (final (@UpDir Demo.env 1 Demo.two_dirs))))
    as [(Hf & _) | (_ & _ & _ & H & _)];
    [vm_compute; reflexivity | discriminate | exact H].
Defined.

Lemma RemoveDir_effect_witness :
  S (DirsNumber Demo.first_removed) = DirsNumber Demo.two_dirs.
Proof.
  destruct (@RemoveDir_effect Demo.env Demo.two_dirs 0 true Demo.first_removed)
    as [(Hf & _) | (_ & _ & _ & H & _)];
    [vm_compute; reflexivity | discriminate | exact H].
Defined.

Lemma directory_paths_stay_distinct_witness :
  NoDup (map dir_path (m_dirsList (final (@AddDir Demo.env "/models/C" false Demo.two_dirs)))).
Proof.
  apply (proj1 (@directory_paths_stay_distinct Demo.env Demo.two_dirs two_dirs_paths)
           "/models/C" false true).
  vm_compute. reflexivity.
Defined.

Lemma UpdateAvailableModels_nothing_to_do_witness :
  exists s', @UpdateAvailableModels Demo.env Demo.two_dirs = Ret tt s' /\
             trace s' = trace Demo.two_dirs.
Proof.
  destruct (@UpdateAvailableModels_nothing_to_do Demo.env _ Demo.two_dirs two_dirs_consistent)
    as (s' & Hrun & _ & Ht & _).
  exists s'. split; [exact Hrun | exact Ht].
Defined.

Lemma SetDirActivity_same_value_witness :
  exists s', @SetDirActivity Demo.env 0 true Demo.two_dirs = Ret tt s' /\
             trace s' = trace Demo.two_dirs.
Proof.
  destruct (@SetDirActivity_same_value Demo.env _ Demo.two_dirs 0
              (mkDir "/models/A" "k" true true) two_dirs_consistent eq_refl)
    as (s' & Hrun & _ & Ht & _).
  exists s'. split; [exact Hrun | exact Ht].
Defined.

Lemma UpDir_then_DownDir_witness :
  exists s1 s2, @UpDir Demo.env 1 Demo.two_dirs = Ret true s1 /\
                @DownDir Demo.env 0 s1 = Ret true s2 /\
                m_dirsList s2 = m_dirsList Demo.two_dirs.
Proof.
  destruct (@UpDir_then_DownDir Demo.env _ Demo.two_dirs 0 two_dirs_consistent)
    as (s1 & s2 & H1 & H2 & H3 & _); [vm_compute; lia |].
  exists s1, s2. split; [exact H1 |]. split; [exact H2 | exact H3].
Defined.

Lemma UpDir_gives_priority_witness :
  exists s1, @UpDir Demo.env 1 Demo.two_dirs = Ret true s1 /\
    forall a b u v,
      GetAvailableUnits s1 !! a = Some u -> GetAvailableUnits s1 !! b = Some v ->
      dirKey u = "kk" -> dirKey v = "k" -> a < b.
Proof.
  destruct (@UpDir_gives_priority Demo.env _ Demo.two_dirs 0
              (mkDir "/models/A" "k" true true) (mkDir "/models/B" "kk" true true)
              two_dirs_consistent eq_refl eq_refl)
    as (s1 & Hrun & Hu & _).
  exists s1. split; [exact Hrun | exact Hu].
Defined.

Lemma directory_operations_close_libraries_witness :
  open_count 11 (trace (final (@AddDir Demo.env "/models/A" true new_manager)))
  = open_count 11 (trace new_manager).
Proof.
  destruct (@directory_operations_close_libraries Demo.env 11%N) as (_ & H & _);
    [discriminate |].
  apply (H "/models/A" true new_manager true). vm_compute. reflexivity.
Defined.

Lemma Instantiate_accounts_for_libraries_witness :
  instantiate_outcome (E := Demo.env) m_loadedUnits (m_availableUnits Demo.two_dirs)
    "4E2C9FB3BBA1" Demo.two_dirs 5%N Demo.mixer_loaded.
Proof.
  apply (proj1 (@Instantiate_accounts_for_libraries Demo.env "4E2C9FB3BBA1"
                  Demo.two_dirs 5%N Demo.mixer_loaded)).
  vm_compute. reflexivity.
Defined.

Lemma Instantiate_unknown_key_witness :
  @InstantiateUnit Demo.env "000000000000" Demo.two_dirs = Ret nullptr Demo.two_dirs.
Proof.
  apply (proj1 (@Instantiate_unknown_key Demo.env "000000000000" Demo.two_dirs)).
  apply (bool_decide_unpack _). vm_compute. exact I.
Defined.

Lemma Instantiate_then_Free_witness :
  exists s'', FreeUnit 5%N Demo.mixer_loaded = Ret tt s'' /\
              m_loadedUnits s'' = m_loadedUnits Demo.two_dirs.
Proof.
  destruct (proj1 (@Instantiate_then_Free Demo.env "4E2C9FB3BBA1" Demo.two_dirs 5%N
                     Demo.mixer_loaded two_dirs_heap_fresh ltac:(discriminate)))
    as (_ & _ & s'' & Hfree & Hu & _); [vm_compute; reflexivity |].
  exists s''. split; [exact Hfree | exact Hu].
Defined.

Lemma tame_plugins_always_return_witness :
  always_returns (@UpdateAvailableModels Tidy.env) /\
  forall f a, always_returns (@AddDir Tidy.env f a).
Proof.
  destruct (@tame_plugins_always_return Tidy.env tidy_plugins_tame) as (H1 & H2 & _).
  split; [exact H1 | exact H2].
Defined.

Lemma UpdateAvailableModels_whatever_plugins_do_witness :
  exists s', @UpdateAvailableModels Demo.env
               (with_dirs [mkDir "/models/D" "k" true false] new_manager)
             = Raise other_exception s' /\
             entries_kept (with_dirs [mkDir "/models/D" "k" true false] new_manager) s'.
Proof.
  eexists. split; [vm_compute; reflexivity |].
  apply (proj1 (@UpdateAvailableModels_whatever_plugins_do Demo.env
                  (with_dirs [mkDir "/models/D" "k" true false] new_manager))
           other_exception).
  vm_compute. reflexivity.
Defined.

Lemma probe_deletes_one_instance_witness :
  exists d s', @TryGetSolverDescriptor Tidy.env "/models/F/two.so" 20%N new_manager = Ret d s' /\
               heap_next s' = 3%N /\ live_objects (trace s') = 1%Z.
Proof.
  exists (mkDescriptor "5A3F0C7E9D11" "PBM" "SPE TUHH" 1%N "/models/F/two.so" "" 0 2),
         (final (@TryGetSolverDescriptor Tidy.env "/models/F/two.so" 20%N new_manager)).
  assert (Hrun : @TryGetSolverDescriptor Tidy.env "/models/F/two.so" 20%N new_manager
                 = Ret (mkDescriptor "5A3F0C7E9D11" "PBM" "SPE TUHH" 1%N "/models/F/two.so" "" 0 2)
                       (final (@TryGetSolverDescriptor Tidy.env "/models/F/two.so" 20%N
                                 new_manager)))
    by (vm_compute; reflexivity).
  split; [exact Hrun |]. split; [reflexivity |].
  destruct (proj2 (@probe_deletes_one_instance Tidy.env "/models/F/two.so" 20%N new_manager
                     ltac:(discriminate)) _ _ Hrun) as (n & _ & Hn & Hl).
  assert (n = 2) as ->.
  { change (heap_next (final (@TryGetSolverDescriptor Tidy.env "/models/F/two.so" 20%N
                                new_manager))) with 3%N in Hn.
    change (heap_next new_manager) with 1%N in Hn. lia. }
  exact Hl.
Defined.

Lemma GetAllModelsInDir_lists_files_witness :
  @lists_of_files Demo.env (@FilesList Demo.env "/models/B")
    [Demo.crusher_descriptor "/models/B/crusher.so" "" 0]
    [mkDescriptor "C77D1D5A7B9F" "FFT" "SPE TUHH" 1%N "/models/B/fft.so" "" 0 1] /\
  sublist (map fileLocation [Demo.crusher_descriptor "/models/B/crusher.so" "" 0])
          (map (@UnifyPath Demo.env) (@FilesList Demo.env "/models/B")) /\
  1 + 1 <= length (@FilesList Demo.env "/models/B").
Proof.
  destruct (@GetAllModelsInDir_lists_files Demo.env "/models/B" new_manager
              [Demo.crusher_descriptor "/models/B/crusher.so" "" 0]
              [mkDescriptor "C77D1D5A7B9F" "FFT" "SPE TUHH" 1%N "/models/B/fft.so" "" 0 1]
              (final (@GetAllModelsInDir Demo.env "/models/B" new_manager)))
    as (Hf & _ & _ & Hs & _ & Hl); [reflexivity | vm_compute; reflexivity |].
  split; [exact Hf |]. split; [exact Hs | exact Hl].
Defined.

Lemma solver_lookup_witness :
  GetSolverDescriptor Tidy.file_name
    (GetSolverLibName Tidy.file_name "5A3F0C7E9D11" Tidy.solver_dirs) Tidy.solver_dirs
  = Tidy.pbm_descriptor.
Proof.
  assert (Hlist : GetAvailableSolvers Tidy.solver_dirs
                  = [mkDescriptor "C77D1D5A7B9F" "FFT" "SPE TUHH" 1%N "/models/B/fft.so" "k" 0 1;
                     Tidy.pbm_descriptor]) by (vm_compute; reflexivity).
  apply (proj1 (solver_lookup Tidy.file_name Tidy.solver_dirs) Tidy.pbm_descriptor).
  - exact file_name_idempotent.
  - rewrite Hlist. apply elem_of_cons. right. apply elem_of_cons. now left.
  - intros w Hw Hk. rewrite Hlist in Hw.
    apply elem_of_cons in Hw as [-> | Hw]; [discriminate |].
    apply elem_of_cons in Hw as [-> | Hw]; [reflexivity | now apply elem_of_nil in Hw].
  - intros w Hw Hk. rewrite Hlist in Hw.
    apply elem_of_cons in Hw as [-> | Hw]; [vm_compute in Hk; discriminate |].
    apply elem_of_cons in Hw as [-> | Hw]; [reflexivity | now apply elem_of_nil in Hw].
Defined.

Lemma session_invariants_witness :
  addresses_distinct
    (final (@session Demo.env
              [CallAddDir "/models/A" true; CallAddDir "/models/B" true;
               CallInstantiateUnit "4E2C9FB3BBA1"; CallUpDir 1;
               CallInstantiateSolver "C77D1D5A7B9F"; CallFreeUnit 5%N;
               CallSetDirActivity 0 false] new_manager)) /\
  handles_accounted
    (final (@session Demo.env
              [CallAddDir "/models/A" true; CallAddDir "/models/B" true;
               CallInstantiateUnit "4E2C9FB3BBA1"; CallUpDir 1;
               CallInstantiateSolver "C77D1D5A7B9F"; CallFreeUnit 5%N;
               CallSetDirActivity 0 false] new_manager)).
Proof.
  destruct (@session_invariants Demo.env _ demo_keys_unique
              [CallAddDir "/models/A" true; CallAddDir "/models/B" true;
               CallInstantiateUnit "4E2C9FB3BBA1"; CallUpDir 1;
               CallInstantiateSolver "C77D1D5A7B9F"; CallFreeUnit 5%N;
               CallSetDirActivity 0 false]
              (final (@session Demo.env
                        [CallAddDir "/models/A" true; CallAddDir "/models/B" true;
                         CallInstantiateUnit "4E2C9FB3BBA1"; CallUpDir 1;
                         CallInstantiateSolver "C77D1D5A7B9F"; CallFreeUnit 5%N;
                         CallSetDirActivity 0 false] new_manager)))
    as (_ & _ & Hd & Ha); [vm_compute; reflexivity |].
  split; [exact Hd | exact Ha].
Defined.

Lemma AddDir_lists_the_models_found_witness :
  exists s', @AddDir Demo.env "/models/A" true new_manager = Ret true s' /\
    GetAvailableUnits s'
      ≡ₚ map (fun u => set_position 0 (set_dirKey "k" u)) (fst Demo.found_in_first_dir).
Proof.
  destruct (proj2 (@AddDir_lists_the_models_found Demo.env _ demo_keys_unique new_manager
                     "/models/A" new_manager_consistent ltac:(constructor))
              Demo.found_in_first_dir
              (final (@GetModelsList Demo.env "/models/A"
                        (with_dirs [mkDir "/models/A" "k" true false] new_manager))))
    as (s' & Hrun & _ & Hu & _); [vm_compute; reflexivity |].
  exists s'. split; [exact Hrun | exact Hu].
Defined.

Lemma GetModelsList_lists_one_directory_witness :
  exists d, @lists_of_files Demo.env (@FilesList Demo.env d)
              (fst Demo.found_in_first_dir) (snd Demo.found_in_first_dir).
Proof.
  destruct (@GetModelsList_lists_one_directory Demo.env "/models/A" new_manager
              (fst Demo.found_in_first_dir) (snd Demo.found_in_first_dir)
              (final (@GetModelsList Demo.env "/models/A" new_manager)))
    as (d & _ & Hl & _); [reflexivity | vm_compute; reflexivity |].
  exists d. exact Hl.
Defined.

Lemma first_off_consistent : consistent Demo.first_off.
Proof.
  apply (proj2 (proj2 (proj2 (proj2
           (@operations_keep_consistent Demo.env _ demo_keys_unique Demo.two_dirs
              two_dirs_consistent)))) 0 false).
  vm_compute. reflexivity.
Qed.

Lemma first_off_entry :
  m_dirsList Demo.first_off !! 0 = Some (mkDir "/models/A" "k" false true).
Proof. vm_compute. reflexivity. Qed.

Lemma activation_lists_the_models_found_witness :
  exists s', @SetDirActivity Demo.env 0 true Demo.first_off = Ret tt s' /\
    GetAvailableUnits s'
      ≡ₚ GetAvailableUnits Demo.first_off
         ++ map (fun u => set_position 0 (set_dirKey "k" u)) (fst Demo.found_in_first_dir).
Proof.
  destruct (@activation_lists_the_models_found Demo.env _ Demo.first_off 0
              (mkDir "/models/A" "k" false true) first_off_consistent first_off_entry eq_refl
              Demo.found_in_first_dir
              (final (@GetModelsList Demo.env "/models/A"
                        (with_dirs (<[0 := mkDir "/models/A" "k" true false]>
                                      (m_dirsList Demo.first_off)) Demo.first_off))))
    as (s' & Hrun & _ & _ & Hu & _); [vm_compute; reflexivity |].
  exists s'. split; [exact Hrun | exact Hu].
Defined.
